(** * n29-climarisk: hash-chained ledger, rule engine, projections, audit

    A shallow embedding of the ledger core of the repository:
    - [stableStringify], [sha256Hex]   (services/api/src/index.js, services/worker/src/worker.js)
    - [appendLedgerEvent], the audit route [/api/read/audit/verify]
    - [decideRisk], [applyProjections] and the job handler's input extraction
    - the tables and the genesis block of infra/postgres/init.sql

    JavaScript strings are sequences of UTF-16 code units, numbers are
    binary64 floats (Rocq's primitive floats), objects are association lists
    in insertion order, and the database is an explicit state that the
    operations thread through. *)

From Stdlib Require Import Floats Ascii String NArith ZArith.
From stdpp Require Import strings gmap list sorting.

Set Warnings "-inexact-float,-register-all".
Local Open Scope N_scope.

(* ===================================================================== *)
(** * Part I: the model *)
(* ===================================================================== *)

(** ** JavaScript strings *)

(** A string value: its UTF-16 code units. *)
Abbreviation jstr := (list N).

(** An ASCII literal as a JavaScript string. *)
Definition js (s : string) : jstr :=
  (λ a, N_of_ascii a) <$> list_ascii_of_string s.

(** The same, with every apostrophe of the literal standing for the
    double quote (code unit 34). *)
Definition jsq (s : string) : jstr :=
  (λ c, if c =? 39 then 34 else c) <$> js s.

(** [a < b] for strings: the comparison of [Array.prototype.sort] without a
    comparator, code unit by code unit. *)
Fixpoint str_ltb (a b : jstr) : bool :=
  match a, b with
  | _, [] => false
  | [], _ :: _ => true
  | x :: a', y :: b' => if x <? y then true else if y <? x then false else str_ltb a' b'
  end.

Definition str_leb (a b : jstr) : bool := negb (str_ltb b a).
Definition str_le (a b : jstr) : Prop := str_leb a b = true.

Definition str_eqb (a b : jstr) : bool := bool_decide (a = b).

(** Lower-case hexadecimal digit. *)
Definition hexdigit (d : N) : N := if d <? 10 then 48 + d else 87 + d.

(** Four lower-case hex digits of a code unit. *)
Definition hex4 (c : N) : jstr :=
  [hexdigit (N.shiftr c 12 mod 16); hexdigit (N.shiftr c 8 mod 16);
   hexdigit (N.shiftr c 4 mod 16); hexdigit (c mod 16)].

Definition is_high_surrogate (c : N) : bool := (0xD800 <=? c) && (c <=? 0xDBFF).
Definition is_low_surrogate (c : N) : bool := (0xDC00 <=? c) && (c <=? 0xDFFF).

(** Decimal digits of a natural number, most significant first. *)
Fixpoint digits_fuel (fuel : nat) (n : N) (acc : jstr) : jstr :=
  match fuel with
  | O => acc
  | S fuel' =>
      let acc' := (48 + n mod 10) :: acc in
      if n <? 10 then acc' else digits_fuel fuel' (n / 10) acc'
  end.

Definition decimal (n : N) : jstr := digits_fuel (S (N.to_nat (N.log2 n))) n [].

(** The body of [JSON.stringify(s)] for a string [s] (QuoteJSONString): the
    escapes of the two-character forms, [\u00xx] for the other control
    characters, [\udxxx] for a surrogate that has no partner. *)
Fixpoint quote_body (s : jstr) : jstr :=
  match s with
  | [] => []
  | c :: rest =>
      if c =? 8 then js "\b" ++ quote_body rest
      else if c =? 9 then js "\t" ++ quote_body rest
      else if c =? 10 then js "\n" ++ quote_body rest
      else if c =? 12 then js "\f" ++ quote_body rest
      else if c =? 13 then js "\r" ++ quote_body rest
      else if c =? 34 then [92; 34] ++ quote_body rest
      else if c =? 92 then [92; 92] ++ quote_body rest
      else if c <? 32 then js "\u" ++ hex4 c ++ quote_body rest
      else if is_high_surrogate c then
        match rest with
        | d :: rest' =>
            if is_low_surrogate d then c :: d :: quote_body rest'
            else js "\u" ++ hex4 c ++ quote_body rest
        | [] => js "\u" ++ hex4 c
        end
      else if is_low_surrogate c then js "\u" ++ hex4 c ++ quote_body rest
      else c :: quote_body rest
  end.

Definition JSON_stringify_string (s : jstr) : jstr := [34] ++ quote_body s ++ [34].

(** [Array.prototype.join] over strings. *)
Fixpoint join (sep : jstr) (l : list jstr) : jstr :=
  match l with
  | [] => []
  | [x] => x
  | x :: rest => x ++ sep ++ join sep rest
  end.

(** The UTF-8 bytes of a string, as [update(s, "utf8")] feeds them to the
    digest: a surrogate pair is one four-byte sequence, a surrogate without
    partner is replaced by U+FFFD. *)
Fixpoint utf8 (s : jstr) : list N :=
  match s with
  | [] => []
  | c :: rest =>
      if c <? 0x80 then c :: utf8 rest
      else if c <? 0x800 then
        N.lor 0xC0 (N.shiftr c 6) :: N.lor 0x80 (N.land c 0x3F) :: utf8 rest
      else if is_high_surrogate c then
        match rest with
        | d :: rest' =>
            if is_low_surrogate d then
              let cp := 0x10000 + N.shiftl (c - 0xD800) 10 + (d - 0xDC00) in
              N.lor 0xF0 (N.shiftr cp 18)
                :: N.lor 0x80 (N.land (N.shiftr cp 12) 0x3F)
                :: N.lor 0x80 (N.land (N.shiftr cp 6) 0x3F)
                :: N.lor 0x80 (N.land cp 0x3F) :: utf8 rest'
            else 0xEF :: 0xBF :: 0xBD :: utf8 rest
        | [] => [0xEF; 0xBF; 0xBD]
        end
      else if is_low_surrogate c then 0xEF :: 0xBF :: 0xBD :: utf8 rest
      else
        N.lor 0xE0 (N.shiftr c 12)
          :: N.lor 0x80 (N.land (N.shiftr c 6) 0x3F)
          :: N.lor 0x80 (N.land c 0x3F) :: utf8 rest
  end.

(** ** SHA-256 (FIPS 180-4), the digest behind [sha256Hex] *)

Module Sha256.

Definition add32 (a b : N) : N := (a + b) mod 0x100000000.
Definition rotr (n x : N) : N :=
  N.lor (N.shiftr x n) (N.shiftl x (32 - n) mod 0x100000000).
Definition Ch (x y z : N) : N :=
  N.lxor (N.land x y) (N.land (N.lxor x 0xFFFFFFFF) z).
Definition Maj (x y z : N) : N :=
  N.lxor (N.lxor (N.land x y) (N.land x z)) (N.land y z).
Definition Sigma0 (x : N) : N := N.lxor (N.lxor (rotr 2 x) (rotr 13 x)) (rotr 22 x).
Definition Sigma1 (x : N) : N := N.lxor (N.lxor (rotr 6 x) (rotr 11 x)) (rotr 25 x).
Definition sigma0 (x : N) : N := N.lxor (N.lxor (rotr 7 x) (rotr 18 x)) (N.shiftr x 3).
Definition sigma1 (x : N) : N := N.lxor (N.lxor (rotr 17 x) (rotr 19 x)) (N.shiftr x 10).

(** The integer [deg]-th root of [n], bit by bit from the top. *)
Fixpoint root_bits (k : nat) (bit n r deg : N) : N :=
  match k with
  | O => r
  | S k' => root_bits k' (bit / 2) n (if (r + bit) ^ deg <=? n then r + bit else r) deg
  end.

Definition iroot (deg n : N) : N := root_bits 64 (2 ^ 63) n 0 deg.

Definition is_prime (n : N) : bool :=
  (2 <=? n) && forallb (λ d, negb (n mod d =? 0)) (N.of_nat <$> seq 2 (N.to_nat n - 2)).

Definition primes (count : nat) : list N :=
  take count (filter (λ n, is_prime n = true) (N.of_nat <$> seq 2 400)).

(** The round constants: the first 32 bits of the fractional parts of the
    cube roots of the first 64 primes (0x428a2f98, ..., 0xc67178f2). *)
Definition K : list N :=
  Eval vm_compute in (λ p, iroot 3 (p * 2 ^ 96) mod 2 ^ 32) <$> primes 64.

(** The initial hash value: the same of the square roots of the first 8
    primes (0x6a09e667, ..., 0x5be0cd19). *)
Definition H0 : list N :=
  Eval vm_compute in (λ p, iroot 2 (p * 2 ^ 64) mod 2 ^ 32) <$> primes 8.

(** Big-endian bytes of a number, [n] of them. *)
Fixpoint be_bytes (n : nat) (x : N) : list N :=
  match n with
  | O => []
  | S n' => (N.shiftr x (8 * N.of_nat n') mod 256) :: be_bytes n' x
  end.

(** The message, the byte 0x80, zeros up to 56 modulo 64, the bit length. *)
Definition pad (msg : list N) : list N :=
  let len := N.of_nat (length msg) in
  let zeros := N.to_nat ((119 - len mod 64) mod 64) in
  msg ++ [0x80] ++ replicate zeros 0 ++ be_bytes 8 (8 * len).

(** The sixteen big-endian words of a 64-byte block. *)
Fixpoint words (n : nat) (bytes : list N) : list N :=
  match n, bytes with
  | S n', a :: b :: c :: d :: rest =>
      (N.shiftl a 24 + N.shiftl b 16 + N.shiftl c 8 + d) :: words n' rest
  | _, _ => []
  end.

(** The message schedule, latest word first: [rev_w] holds W[t-1], W[t-2], ... *)
Fixpoint schedule (n : nat) (rev_w : list N) : list N :=
  match n with
  | O => rev_w
  | S n' =>
      let w := add32 (add32 (sigma1 (nth 1 rev_w 0)) (nth 6 rev_w 0))
                     (add32 (sigma0 (nth 14 rev_w 0)) (nth 15 rev_w 0)) in
      schedule n' (w :: rev_w)
  end.

Record regs := Regs { ra : N; rb : N; rc : N; rd : N; re : N; rf : N; rg : N; rh : N }.

Definition round (r : regs) (kw : N * N) : regs :=
  let t1 := add32 (add32 (add32 (rh r) (Sigma1 (re r))) (Ch (re r) (rf r) (rg r)))
                  (add32 (fst kw) (snd kw)) in
  let t2 := add32 (Sigma0 (ra r)) (Maj (ra r) (rb r) (rc r)) in
  Regs (add32 t1 t2) (ra r) (rb r) (rc r) (add32 (rd r) t1) (re r) (rf r) (rg r).

Definition of_list (h : list N) : regs :=
  Regs (nth 0 h 0) (nth 1 h 0) (nth 2 h 0) (nth 3 h 0)
       (nth 4 h 0) (nth 5 h 0) (nth 6 h 0) (nth 7 h 0).

Definition to_list (r : regs) : list N :=
  [ra r; rb r; rc r; rd r; re r; rf r; rg r; rh r].

Definition compress (h : list N) (block : list N) : list N :=
  let w := rev (schedule 48 (rev (words 16 block))) in
  let r := foldl round (of_list h) (zip K w) in
  zip_with add32 h (to_list r).

Fixpoint blocks (n : nat) (h : list N) (bytes : list N) : list N :=
  match n with
  | O => h
  | S n' => blocks n' (compress h (take 64 bytes)) (drop 64 bytes)
  end.

Definition digest (msg : list N) : list N :=
  let p := pad msg in
  mjoin (be_bytes 4 <$> blocks (length p / 64)%nat H0 p).

Definition hex (bytes : list N) : jstr :=
  mjoin ((λ b, [hexdigit (b / 16); hexdigit (b mod 16)]) <$> bytes).

End Sha256.

(** A lower-case hexadecimal digit, as a code unit. *)
Definition is_lower_hex (c : N) : Prop := 48 ≤ c ≤ 57 ∨ 97 ≤ c ≤ 102.

(** No control character: a code unit from the space on. *)
Definition no_control (c : N) : Prop := 32 ≤ c.

(** [crypto.createHash("sha256").update(s, "utf8").digest("hex")]. *)
Definition sha256Hex (s : jstr) : jstr := Sha256.hex (Sha256.digest (utf8 s)).


(** ** Numbers: [String(v)] for a number (Number::toString, radix 10) *)

Module NumberToString.
Local Open Scope Z_scope.

(** The sign of [s * 10^p - num / den]. *)
Definition cmp10 (s p num den : Z) : comparison :=
  if 0 <=? p then (s * 10 ^ p * den) ?= num else (s * den) ?= (num * 10 ^ (- p)).

(** [floor ((num / den) / 10^p)]. *)
Definition floor10 (p num den : Z) : Z :=
  if 0 <=? p then num / (den * 10 ^ p) else (num * 10 ^ (- p)) / den.

(** The exponent [n] with [10^(n-1) <= num/den < 10^n], from an estimate
    by bit lengths that is then moved by single steps. *)
Fixpoint adjust (fuel : nat) (n num den : Z) : Z :=
  match fuel with
  | O => n
  | S fuel' =>
      match cmp10 1 (n - 1) num den with
      | Gt => adjust fuel' (n - 1) num den
      | _ => match cmp10 1 n num den with
             | Gt => n
             | _ => adjust fuel' (n + 1) num den
             end
      end
  end.

Definition magnitude (num den : Z) : Z :=
  adjust 8 ((Z.log2 num - Z.log2 den) * 30103 / 100000 + 1) num den.

(** The value [x = 4m * 2^(e-2)] of a finite positive float, with the two
    midpoints to its neighbours, over one denominator. *)
Record interval := Interval { lo : Z; mid : Z; hi : Z; den : Z; closed : bool }.

Definition interval_of (m : positive) (e : Z) : interval :=
  let m := Z.pos m in
  let below := if (m =? 2 ^ 52) && (-1074 <? e) then 4 * m - 1 else 4 * m - 2 in
  let scale := if 2 <=? e then 2 ^ (e - 2) else 1 in
  let d := if 2 <=? e then 1 else 2 ^ (2 - e) in
  Interval (below * scale) (4 * m * scale) ((4 * m + 2) * scale) d (Z.even m).

(** Does [s * 10^p] read back as the float of the interval? *)
Definition inside (i : interval) (s p : Z) : bool :=
  match cmp10 s p (lo i) (den i), cmp10 s p (hi i) (den i) with
  | Gt, Lt => true
  | Eq, Lt | Gt, Eq => closed i
  | _, _ => false
  end.

(** The shortest digit string [s] (of [k] digits) with [s * 10^(n-k)]
    inside the interval; of two of one length the closer one, the even one
    on a tie. *)
Fixpoint shortest (fuel : nat) (k n : Z) (i : interval) : Z * Z :=
  let p := n - k in
  let s_lo := floor10 p (mid i) (den i) in
  let s_hi := s_lo + 1 in
  match fuel with
  | O => (s_lo, k)
  | S fuel' =>
      match inside i s_lo p, inside i s_hi p with
      | true, false => (s_lo, k)
      | false, true => (s_hi, k)
      | true, true =>
          match cmp10 (2 * s_lo + 1) p (2 * mid i) (den i) with
          | Gt => (s_lo, k)
          | Lt => (s_hi, k)
          | Eq => (if Z.even s_lo then s_lo else s_hi, k)
          end
      | false, false => shortest fuel' (k + 1) n i
      end
  end.

Definition zeros (n : Z) : jstr := replicate (Z.to_nat n) 48%N.

(** The digits [s] (of [k] digits) and the exponent [n], laid out. *)
Definition layout (s k n : Z) : jstr :=
  let ds := decimal (Z.to_N s) in
  if (k <=? n) && (n <=? 21) then ds ++ zeros (n - k)
  else if (0 <? n) && (n <=? 21) then
    take (Z.to_nat n) ds ++ js "." ++ drop (Z.to_nat n) ds
  else if (-6 <? n) && (n <=? 0) then js "0." ++ zeros (- n) ++ ds
  else
    let e := n - 1 in
    let exp := js "e" ++ (if e <? 0 then js "-" else js "+") ++ decimal (Z.to_N (Z.abs e)) in
    if k =? 1 then ds ++ exp else take 1 ds ++ js "." ++ drop 1 ds ++ exp.

Definition positive_finite (m : positive) (e : Z) : jstr :=
  let i := interval_of m e in
  let n := magnitude (mid i) (den i) in
  let '(s, k) := shortest 17 1 n i in
  if s =? 10 ^ k then layout 1 1 (n + 1) else layout s k n.

Definition toString (x : float) : jstr :=
  match Prim2SF x with
  | S754_nan => js "NaN"
  | S754_zero _ => js "0"
  | S754_infinity s => (if s then js "-" else []) ++ js "Infinity"
  | S754_finite s m e => (if s then js "-" else []) ++ positive_finite m e
  end.

End NumberToString.

Definition Number_isFinite (x : float) : bool := is_finite x.

(** ** JavaScript values and the canonical encoder *)

(** A value tree.  An object lists its own enumerable properties in
    insertion order (keys are unique); [toJSON = Some r] says that the
    object's [toJSON] property is a function and that calling it returns
    [r] (a [Date], for one).  [VFun] stands for the values whose [typeof] is
    none of the tested ones: functions, symbols, bigints. *)
Inductive value : Type :=
  | VNull
  | VUndefined
  | VNum (x : float)
  | VBool (b : bool)
  | VStr (s : jstr)
  | VArr (elems : list value)
  | VObj (toJSON : option value) (fields : list (jstr * value))
  | VFun.

(** [Array.prototype.sort(cmp)]: the elements in an order in which no
    element is followed by one that [cmp] puts before it; elements that
    compare equal keep their order (the sort is stable). *)
Section ArraySort.
Context {A : Type} (cmp : A → A → Z).

Fixpoint sort_insert (x : A) (l : list A) : list A :=
  match l with
  | [] => [x]
  | y :: l' => if (cmp x y <=? 0)%Z then x :: y :: l' else y :: sort_insert x l'
  end.

Definition Array_sort (l : list A) : list A := foldr sort_insert [] l.
End ArraySort.

(** The comparison [sort()] uses when it is given none. *)
Definition default_compare (a b : jstr) : Z :=
  if str_ltb a b then (-1)%Z else if str_ltb b a then 1%Z else 0%Z.

(** [Object.keys(v)] and [v[k]] of an object with the given properties. *)
Definition Object_keys {V} (fields : list (jstr * V)) : list jstr := fields.*1.

Fixpoint get_field {V} (fields : list (jstr * V)) (k : jstr) : option V :=
  match fields with
  | [] => None
  | (k', v) :: rest => if str_eqb k' k then Some v else get_field rest k
  end.

(** [stableStringify] (index.js 14-26, worker.js 11-23).  The object case
    encodes each property value where it stands and looks the encoding up by
    key, which is [stableStringify(v[k])]: see [stableStringify_object]. *)
Fixpoint stableStringify (v : value) : jstr :=
  match v with
  | VNull | VUndefined => js "null"
  | VNum x => if Number_isFinite x then NumberToString.toString x else js "null"
  | VBool b => if b then js "true" else js "false"
  | VStr s => JSON_stringify_string s
  | VArr elems => js "[" ++ join (js ",") (stableStringify <$> elems) ++ js "]"
  | VObj (Some r) _ => stableStringify r
  | VObj None fields =>
      let encoded := (λ kv, (kv.1, stableStringify kv.2)) <$> fields in
      let keys := Array_sort default_compare (Object_keys fields) in
      js "{"
        ++ join (js ",")
             ((λ k, JSON_stringify_string k ++ js ":" ++ default (js "null") (get_field encoded k))
                <$> keys)
        ++ js "}"
  | VFun => js "null"
  end.

(** [v[k]] as a value: [undefined] when the key is absent. *)
Definition get_value (fields : list (jstr * value)) (k : jstr) : value :=
  default VUndefined (get_field fields k).

(** Two trees that differ in nothing but the order in which objects list
    their properties. *)
Inductive same_tree : value → value → Prop :=
  | same_leaf v : same_tree v v
  | same_array elems1 elems2 :
      Forall2 same_tree elems1 elems2 → same_tree (VArr elems1) (VArr elems2)
  | same_object fields1 fields2 reordered :
      NoDup (Object_keys fields1) →
      fields1 ≡ₚ reordered →
      Forall2 (λ a b, a.1 = b.1 ∧ same_tree a.2 b.2) reordered fields2 →
      same_tree (VObj None fields1) (VObj None fields2)
  | same_toJSON r1 r2 fields1 fields2 :
      same_tree r1 r2 → same_tree (VObj (Some r1) fields1) (VObj (Some r2) fields2).

(** ** The decision rules *)

Module Risk.

Record rule := Rule { id : jstr; severity : jstr; why : jstr }.

#[global] Instance rule_eq_dec : EqDecision rule.
Proof. solve_decision. Defined.

Record applied_rule_t := AppliedRule {
version : Z;
inputs : value * value * value;   (* tempC, windMs, rain1hMm *)
rules : list rule
}.

Record pack := Pack { decision : jstr; applied_rule : applied_rule_t }.

(** ToNumber of an operand of [>=] or [<=] against a number: [null] is 0,
  [undefined] is NaN, booleans are 0 and 1.  Strings and objects go
  through StringToNumber and ToPrimitive, which are not modelled: [None]. *)
Definition toNumber (v : value) : option float :=
match v with
| VNull => Some 0%float
| VUndefined => Some nan
| VNum x => Some x
| VBool b => Some (if b then 1 else 0)%float
| VStr _ | VArr _ | VObj _ _ | VFun => None
end.

(** [x >= c] and [x <= c] on numbers: IEEE comparisons, false on NaN. *)
Definition ge (x c : float) : bool := (c <=? x)%float.
Definition le (x c : float) : bool := (x <=? c)%float.

Section DecideRisk.
(** [String.prototype.localeCompare] of the host: negative, zero or
    positive.  What it answers is the collation of the host's locale. *)
Variable localeCompare : jstr → jstr → Z.

(** [decideRisk] (worker.js 32-52). *)
Definition decideRisk (tempC windMs rain1hMm : value) : option pack :=
  t ← toNumber tempC;
  w ← toNumber windMs;
  r ← toNumber rain1hMm;
  let rules := [] in
  let rules :=
    if ge r 20 then rules ++ [Rule (js "RAIN_20MM_1H") (js "CRITICAL") (js "rain_1h_mm>=20")]
    else if ge r 8 then rules ++ [Rule (js "RAIN_8MM_1H") (js "ALERT") (js "rain_1h_mm>=8")]
    else rules in
  let rules :=
    if ge w 20 then rules ++ [Rule (js "WIND_20MS") (js "CRITICAL") (js "wind_ms>=20")]
    else if ge w 12 then rules ++ [Rule (js "WIND_12MS") (js "ALERT") (js "wind_ms>=12")]
    else rules in
  let rules :=
    if ge t 38 then rules ++ [Rule (js "TEMP_38C") (js "CRITICAL") (js "temp_c>=38")]
    else if ge t 33 then rules ++ [Rule (js "TEMP_33C") (js "ALERT") (js "temp_c>=33")]
    else rules in
  let rules :=
    if le t (-3) then rules ++ [Rule (js "TEMP_-3C") (js "CRITICAL") (js "temp_c<=-3")]
    else if le t 2 then rules ++ [Rule (js "TEMP_2C") (js "ALERT") (js "temp_c<=2")]
    else rules in
  let decision :=
    if existsb (λ r, str_eqb (severity r) (js "CRITICAL")) rules then js "CRITICAL"
    else if existsb (λ r, str_eqb (severity r) (js "ALERT")) rules then js "ALERT"
    else js "NORMAL" in
  let rules := Array_sort (λ a b, localeCompare (id a) (id b)) rules in
  Some (Pack decision (AppliedRule 1 (tempC, windMs, rain1hMm) rules)).

End DecideRisk.

(** [v?.[k]]: [undefined] on [null] and [undefined], the property otherwise.
    The keys the job handler asks for ([main], [temp], [wind], [speed],
    [rain], [1h]) are no properties of strings, numbers, booleans or
    arrays, so only an object answers with something defined. *)
Definition opt_get (v : value) (k : jstr) : value :=
  match v with
  | VObj _ fields => get_value fields k
  | _ => VUndefined
  end.

(** [a ?? b]. *)
Definition nullish (a b : value) : value :=
  match a with
  | VNull | VUndefined => b
  | _ => a
  end.

(** The three readings the job handler takes from the fetched weather
    (worker.js 142-144). *)
Definition reading_tempC (raw : value) : value :=
  nullish (opt_get (opt_get raw (js "main")) (js "temp")) VNull.
Definition reading_windMs (raw : value) : value :=
  nullish (opt_get (opt_get raw (js "wind")) (js "speed")) (VNum 0).
Definition reading_rain1hMm (raw : value) : value :=
  nullish (opt_get (opt_get raw (js "rain")) (js "1h")) (VNum 0).

(** worker.js 146. *)
Definition decide_reading (localeCompare : jstr → jstr → Z) (raw : value) : option pack :=
  decideRisk localeCompare (reading_tempC raw) (reading_windMs raw) (reading_rain1hMm raw).

(** *** Vocabulary for the properties of the rule engine *)

Definition rain_ids : list jstr := [js "RAIN_20MM_1H"; js "RAIN_8MM_1H"].
Definition wind_ids : list jstr := [js "WIND_20MS"; js "WIND_12MS"].
Definition temp_ids : list jstr := [js "TEMP_38C"; js "TEMP_33C"; js "TEMP_-3C"; js "TEMP_2C"].
Definition rule_ids : list jstr := rain_ids ++ wind_ids ++ temp_ids.

(** The rules of a decision whose id is one of [ids], as (id, severity). *)
Definition matched (ids : list jstr) (p : pack) : list (jstr * jstr) :=
  (λ r, (id r, severity r)) <$> filter (λ r, id r ∈ ids) (rules (applied_rule p)).

(** CRITICAL if any rule is, else ALERT if any rule is, else NORMAL. *)
Definition classification (rs : list rule) : jstr :=
  if existsb (λ r, str_eqb (severity r) (js "CRITICAL")) rs then js "CRITICAL"
  else if existsb (λ r, str_eqb (severity r) (js "ALERT")) rs then js "ALERT"
  else js "NORMAL".

(** The table of the four dimensions, one at a time: the rule each one
    contributes, highest severity first. *)
Definition rain_rule (r : float) : list rule :=
  if ge r 20 then [Rule (js "RAIN_20MM_1H") (js "CRITICAL") (js "rain_1h_mm>=20")]
  else if ge r 8 then [Rule (js "RAIN_8MM_1H") (js "ALERT") (js "rain_1h_mm>=8")]
  else [].
Definition wind_rule (w : float) : list rule :=
  if ge w 20 then [Rule (js "WIND_20MS") (js "CRITICAL") (js "wind_ms>=20")]
  else if ge w 12 then [Rule (js "WIND_12MS") (js "ALERT") (js "wind_ms>=12")]
  else [].
Definition heat_rule (t : float) : list rule :=
  if ge t 38 then [Rule (js "TEMP_38C") (js "CRITICAL") (js "temp_c>=38")]
  else if ge t 33 then [Rule (js "TEMP_33C") (js "ALERT") (js "temp_c>=33")]
  else [].
Definition cold_rule (t : float) : list rule :=
  if le t (-3) then [Rule (js "TEMP_-3C") (js "CRITICAL") (js "temp_c<=-3")]
  else if le t 2 then [Rule (js "TEMP_2C") (js "ALERT") (js "temp_c<=2")]
  else [].
Definition table (t w r : float) : list rule :=
  rain_rule r ++ wind_rule w ++ heat_rule t ++ cold_rule t.

(** Rule ids in the order of their code units. *)
Definition id_lt (a b : rule) : Prop := str_ltb (id a) (id b) = true.

(** A collation that puts two rule ids that begin with different letters
    in the order of these letters (R before T before W). *)
Definition by_first_letter (localeCompare : jstr → jstr → Z) : Prop :=
  ∀ x a y b, x :: a ∈ rule_ids → y :: b ∈ rule_ids → (x < y)%N →
    (localeCompare (x :: a) (y :: b) < 0)%Z ∧ (0 < localeCompare (y :: b) (x :: a))%Z.

(** The severity of a decision: NORMAL below ALERT below CRITICAL. *)
Definition rank (decision : jstr) : nat :=
  if str_eqb decision (js "CRITICAL") then 2%nat
  else if str_eqb decision (js "ALERT") then 1%nat
  else 0%nat.

End Risk.

(** ** Results of statements and calls *)

Inductive error : Type :=
  | TypeError               (* a property read on [undefined] *)
  | RangeError              (* maximum call stack size exceeded *)
  | NotNullViolation
  | UniqueViolation
  | CheckViolation
  | ForeignKeyViolation.

Inductive result (A : Type) : Type :=
  | Ok (a : A)
  | Err (e : error).
Arguments Ok {A} a.
Arguments Err {A} e.

Definition is_ok {A} (r : result A) : bool :=
  match r with Ok _ => true | Err _ => false end.

(** A JavaScript [null] or [undefined] parameter reaches the database as
    SQL NULL. *)
Definition is_sql_null (v : value) : bool :=
  match v with VNull | VUndefined => true | _ => false end.

(** [String(n)] for an integer [n]. *)
Definition String_of_Z (n : Z) : jstr :=
  (if (n <? 0)%Z then js "-" else []) ++ decimal (Z.to_N (Z.abs n)).

(** ** The ledger: table, genesis, append, audit *)

Module Ledger.

(** A row of [ledger_events] (init.sql 4-11); [created_at] is read by no
    statement of the program and is left out. *)
Record LedgerEvent := Event {
  id : Z;
  event_type : jstr;
  payload : value;
  prev_hash : jstr;
  event_hash : jstr
}.

(** The table, its rows in the order of the primary key [id], and the
    last value its BIGSERIAL sequence handed out. *)
Record Db := MkDb {
  ledger_events : list LedgerEvent;
  ledger_events_id_seq : Z
}.

Definition empty : Db := MkDb [] 0.

(** [insert into ledger_events(event_type, payload, prev_hash, event_hash)]:
    the sequence moves whether or not the row goes in; [payload] is NOT
    NULL and [event_hash] is UNIQUE.  The column gives back the payload it
    was given. *)
Definition insert_event (eventType : jstr) (payloadObj : value)
    (prevHash eventHash : jstr) (db : Db) : result unit * Db :=
  let next := (ledger_events_id_seq db + 1)%Z in
  if is_sql_null payloadObj then
    (Err NotNullViolation, MkDb (ledger_events db) next)
  else if existsb (λ e, str_eqb (event_hash e) eventHash) (ledger_events db) then
    (Err UniqueViolation, MkDb (ledger_events db) next)
  else
    (Ok (), MkDb (ledger_events db ++ [Event next eventType payloadObj prevHash eventHash]) next).

(** [select event_hash from ledger_events order by id desc limit 1]. *)
Definition select_last (db : Db) : list LedgerEvent :=
  match last (ledger_events db) with
  | Some e => [e]
  | None => []
  end.

(** The object [{ event_type: eventType, payload: payloadObj }]. *)
Definition envelope (eventType : jstr) (payloadObj : value) : value :=
  VObj None [(js "event_type", VStr eventType); (js "payload", payloadObj)].

(** [prevHash + "\n" + stableStringify({ event_type, payload })], hashed. *)
Definition chain_hash (prevHash eventType : jstr) (payloadObj : value) : jstr :=
  sha256Hex (prevHash ++ [10] ++ stableStringify (envelope eventType payloadObj)).

(** [appendLedgerEvent] (index.js 76-89): the [{ prevHash, eventHash }] it
    returns and the table after it.  [last.rows[0].event_hash] on an
    empty result is a property read on [undefined]. *)
Definition appendLedgerEvent (eventType : jstr) (payloadObj : value) (db : Db)
    : result (jstr * jstr) * Db :=
  match select_last db !! 0%nat with
  | None => (Err TypeError, db)
  | Some row0 =>
      let prevHash := event_hash row0 in
      let eventHash := chain_hash prevHash eventType payloadObj in
      match insert_event eventType payloadObj prevHash eventHash db with
      | (Ok _, db') => (Ok (prevHash, eventHash), db')
      | (Err e, db') => (Err e, db')
      end
  end.

(** The worker's copy (worker.js 89-102) returns [{ eventHash }] alone. *)
Definition worker_appendLedgerEvent (eventType : jstr) (payloadObj : value) (db : Db)
    : result jstr * Db :=
  match appendLedgerEvent eventType payloadObj db with
  | (Ok (_, eventHash), db') => (Ok eventHash, db')
  | (Err e, db') => (Err e, db')
  end.

(** The genesis block of init.sql (49-60): nothing on a table that has a
    row; otherwise the GENESIS row, its hash taken over the literal text. *)
Definition genesis_payload : value :=
  VObj None [(js "note", VStr (js "n29 climarisk genesis"))].

Definition genesis_text : jstr :=
  js "0" ++ [10] ++ jsq "{'event_type':'GENESIS','payload':{'note':'n29 climarisk genesis'}}".

Definition genesis (db : Db) : Db :=
  match ledger_events db with
  | _ :: _ => db
  | [] => (insert_event (js "GENESIS") genesis_payload (js "0") (sha256Hex genesis_text) db).2
  end.

(** The entries of the audit's [errors] array. *)
Inductive audit_error : Type :=
  | hash_mismatch (id : jstr) (expected got : jstr)
  | genesis_prev_hash_not_zero (id : jstr) (prev_hash : jstr)
  | prev_hash_link_broken (id : jstr) (prev_hash should_be : jstr).

Record audit := Audit { ok : bool; count : nat; errors : list audit_error }.

(** One turn of the loop of the audit route (index.js 150-173), on the
    pair [(ok, errors)]. *)
Definition verify_row (rows : list LedgerEvent) (st : bool * list audit_error) (i : nat)
    : bool * list audit_error :=
  match rows !! i with
  | None => st
  | Some e =>
      let computed := chain_hash (prev_hash e) (event_type e) (payload e) in
      let st :=
        if negb (str_eqb computed (event_hash e)) then
          (false, st.2 ++ [hash_mismatch (String_of_Z (id e)) (event_hash e) computed])
        else st in
      if (i =? 0)%nat then
        if negb (str_eqb (prev_hash e) (js "0")) then
          (false, st.2 ++ [genesis_prev_hash_not_zero (String_of_Z (id e)) (prev_hash e)])
        else st
      else
        match rows !! (i - 1)%nat with
        | None => st
        | Some prev =>
            if negb (str_eqb (prev_hash e) (event_hash prev)) then
              (false, st.2 ++ [prev_hash_link_broken (String_of_Z (id e)) (prev_hash e) (event_hash prev)])
            else st
        end
  end.

(** [GET /api/read/audit/verify] (index.js 143-176): the rows by
    ascending [id], the loop over their indices, the answer. *)
Definition verify (db : Db) : audit :=
  let rows := ledger_events db in
  let st := foldl (verify_row rows) (true, []) (seq 0 (length rows)) in
  Audit st.1 (length rows) st.2.

(** Appends one after the other; [None] as soon as one of them fails. *)
Fixpoint append_all (events : list (jstr * value)) (db : Db) : option Db :=
  match events with
  | [] => Some db
  | (eventType, payloadObj) :: rest =>
      match appendLedgerEvent eventType payloadObj db with
      | (Ok _, db') => append_all rest db'
      | (Err _, _) => None
      end
  end.




(** *** Vocabulary for the properties of the ledger *)

(** The row before the rows [l], when [prev] is the row before them all. *)
Definition last_or (prev : option LedgerEvent) (l : list LedgerEvent) : option LedgerEvent :=
  match last l with
  | Some e => Some e
  | None => prev
  end.

(** What the audit holds against one row, given the row before it. *)
Definition row_errors (prev : option LedgerEvent) (e : LedgerEvent) : list audit_error :=
  let computed := chain_hash (prev_hash e) (event_type e) (payload e) in
  (if negb (str_eqb computed (event_hash e))
   then [hash_mismatch (String_of_Z (id e)) (event_hash e) computed] else [])
  ++ match prev with
     | None =>
         if negb (str_eqb (prev_hash e) (js "0"))
         then [genesis_prev_hash_not_zero (String_of_Z (id e)) (prev_hash e)] else []
     | Some p =>
         if negb (str_eqb (prev_hash e) (event_hash p))
         then [prev_hash_link_broken (String_of_Z (id e)) (prev_hash e) (event_hash p)] else []
     end.

Fixpoint audit_rows (prev : option LedgerEvent) (rows : list LedgerEvent) : list audit_error :=
  match rows with
  | [] => []
  | e :: rest => row_errors prev e ++ audit_rows (Some e) rest
  end.

(** A ledger for the examples: the genesis row and two appended events. *)
Definition sample_events : list (jstr * value) :=
  [(js "CMD_LOCATION_REFRESH", VObj None [(js "locationId", VStr (js "loc-1"))]);
   (js "DECISION_WEATHER_RISK",
    VObj None [(js "decision", VStr (js "ALERT")); (js "raw_weather", VObj None [])])].

Definition sample : Db := default empty (append_all sample_events (genesis empty)).

Definition no_errors (errs : list audit_error) : bool :=
  match errs with [] => true | _ :: _ => false end.


(** *** Further vocabulary: the shape of a ledger, and changes behind the
    program's back *)

(** Every row carries the hash of its own content, the first row names the
    sentinel "0", every later row the hash of the row before it. *)
Definition intact (rows : list LedgerEvent) : Prop :=
  ∀ i e, rows !! i = Some e →
    event_hash e = chain_hash (prev_hash e) (event_type e) (payload e)
    ∧ match i with
      | O => prev_hash e = js "0"
      | S j => ∃ p, rows !! j = Some p ∧ prev_hash e = event_hash p
      end.

(** What the table's declaration keeps: ids ascending and handed out by
    the sequence, no [event_hash] twice. *)
Definition well_formed (db : Db) : Prop :=
  StronglySorted Z.lt (id <$> ledger_events db)
  ∧ Forall (λ e, (id e ≤ ledger_events_id_seq db)%Z) (ledger_events db)
  ∧ NoDup (event_hash <$> ledger_events db).

(** The last rows cut off, [n] rows kept. *)
Definition truncate (n : nat) (db : Db) : Db :=
  MkDb (take n (ledger_events db)) (ledger_events_id_seq db).

(** The row at index [i] removed. *)
Definition delete_row (i : nat) (db : Db) : Db :=
  MkDb (delete i (ledger_events db)) (ledger_events_id_seq db).

(** The stored [prev_hash] of the row at index [i] set to [h]. *)
Definition rewire (i : nat) (h : jstr) (db : Db) : Db :=
  MkDb (alter (λ e, Event (id e) (event_type e) (payload e) h (event_hash e)) i
          (ledger_events db))
       (ledger_events_id_seq db).

End Ledger.

(** ** The projections: [location_state] and [weather_snapshots] *)

Module Projections.

(** A row of [locations] (init.sql 16-23). *)
Record Location := MkLocation {
  id : jstr;
  name : jstr;
  lat : float;
  lon : float;
  is_active : bool
}.

(** The columns the two projection tables share. *)
Record Projected := MkProjected {
  decision : jstr;
  applied_rule : value;
  raw_weather : value;
  ledger_hash : jstr
}.

(** A row of [location_state] (init.sql 26-33), without its key. *)
Record StateRow := MkState {
  updated_at : Z;
  state : Projected
}.

(** A row of [weather_snapshots] (init.sql 36-44). *)
Record Snapshot := MkSnapshot {
  snapshot_id : Z;
  location_id : jstr;
  created_at : Z;
  snapshot : Projected
}.

(** [location_state] by its primary key [location_id];
    [weather_snapshots] in the order of its [id]. *)
Record Db := MkDb {
  locations : list Location;
  location_state : gmap jstr StateRow;
  weather_snapshots : list Snapshot;
  weather_snapshots_id_seq : Z
}.

(** What both statements of [applyProjections] ask of their row: the two
    JSONB columns NOT NULL, the CHECK on [decision], the reference to
    [locations(id)]. *)
Definition constraints (locationId : jstr) (p : Projected) (db : Db) : result unit :=
  if is_sql_null (applied_rule p) || is_sql_null (raw_weather p) then Err NotNullViolation
  else if negb (bool_decide (decision p ∈ [js "NORMAL"; js "ALERT"; js "CRITICAL"])) then
    Err CheckViolation
  else if negb (bool_decide (locationId ∈ id <$> locations db)) then Err ForeignKeyViolation
  else Ok ().

(** [insert into location_state ... on conflict (location_id) do update set
    ...]: every column of the row is set, [updated_at] to [now()]. *)
Definition upsert_location_state (now : Z) (locationId : jstr) (p : Projected) (db : Db)
    : result unit * Db :=
  match constraints locationId p db with
  | Err e => (Err e, db)
  | Ok _ =>
      (Ok (), MkDb (locations db) (<[locationId := MkState now p]> (location_state db))
                   (weather_snapshots db) (weather_snapshots_id_seq db))
  end.

(** [insert into weather_snapshots(location_id, decision, applied_rule,
    raw_weather, ledger_hash)]: [id] from the sequence, [created_at] by
    default [now()]; no column but [id] is unique. *)
Definition insert_weather_snapshot (now : Z) (locationId : jstr) (p : Projected) (db : Db)
    : result unit * Db :=
  let next := (weather_snapshots_id_seq db + 1)%Z in
  match constraints locationId p db with
  | Err e => (Err e, MkDb (locations db) (location_state db) (weather_snapshots db) next)
  | Ok _ =>
      (Ok (), MkDb (locations db) (location_state db)
                   (weather_snapshots db ++ [MkSnapshot next locationId now p]) next)
  end.

(** [applyProjections] (worker.js 104-122); [now1] and [now2] are what
    [now()] answers in its two statements. *)
Definition applyProjections (now1 now2 : Z) (locationId : jstr) (p : Projected) (db : Db)
    : result unit * Db :=
  match upsert_location_state now1 locationId p db with
  | (Err e, db') => (Err e, db')
  | (Ok _, db') => insert_weather_snapshot now2 locationId p db'
  end.

(** A database for the examples: one location, no projection yet. *)
Definition sample : Db :=
  MkDb [MkLocation (js "loc-1") (js "Recife") (-8.05) (-34.9) true] ∅ [] 0.

Definition sample_projection : Projected :=
  MkProjected (js "ALERT") (VObj None [(js "version", VNum 1)]) (VObj None [])
              (js "73a40a72547662574a1465f920470a9b0adeda8f39b7133f3da22a0604473ac8").

(** The history rows that carry a given [ledger_hash]. *)
Definition history_of (h : jstr) (db : Db) : list Snapshot :=
  filter (λ s, ledger_hash (snapshot s) = h) (weather_snapshots db).

(** The latest history row of a location. *)
Definition latest (locationId : jstr) (db : Db) : option Snapshot :=
  last (filter (λ s, location_id s = locationId) (weather_snapshots db)).

(** The current state is the latest history row, location by location. *)
Definition consistent (db : Db) : Prop :=
  ∀ locationId, state <$> location_state db !! locationId = snapshot <$> latest locationId db.

End Projections.

(** ** Appends whose statements interleave *)

Module Interleaving.
Import Ledger.






End Interleaving.

(** ** Values with identity: objects in a heap *)

Module Heap.

Abbreviation loc := nat.

(** A value is a primitive or a reference to an object. *)
Inductive hvalue : Type :=
  | HNull
  | HUndefined
  | HNum (x : float)
  | HBool (b : bool)
  | HStr (s : jstr)
  | HRef (l : loc)
  | HFun.

(** What a location holds: an array or an object, the latter with what
    its [toJSON], if it has one, returns. *)
Inductive hobject : Type :=
  | HArray (elems : list hvalue)
  | HObject (toJSON : option hvalue) (fields : list (jstr * hvalue)).

Definition heap := loc → hobject.

Definition bind {A B} (r : result A) (k : A → result B) : result B :=
  match r with Ok a => k a | Err e => Err e end.

(** [Array.prototype.map] with a callback that may throw: the first
    exception ends it. *)
Fixpoint mapM {A B} (f : A → result B) (l : list A) : result (list B) :=
  match l with
  | [] => Ok []
  | x :: rest => bind (f x) (λ y, bind (mapM f rest) (λ ys, Ok (y :: ys)))
  end.

(** [stableStringify] on a heap, with the number of stack frames left:
    each call takes one, and a call with none left throws the engine's
    RangeError. *)
Fixpoint stableStringify (frames : nat) (h : heap) (v : hvalue) : result jstr :=
  match frames with
  | O => Err RangeError
  | S frames' =>
      match v with
      | HNull | HUndefined => Ok (js "null")
      | HNum x => Ok (if Number_isFinite x then NumberToString.toString x else js "null")
      | HBool b => Ok (if b then js "true" else js "false")
      | HStr s => Ok (JSON_stringify_string s)
      | HFun => Ok (js "null")
      | HRef l =>
          match h l with
          | HArray elems =>
              bind (mapM (stableStringify frames' h) elems)
                   (λ parts, Ok (js "[" ++ join (js ",") parts ++ js "]"))
          | HObject (Some r) _ => stableStringify frames' h r
          | HObject None fields =>
              let keys := Array_sort default_compare (Object_keys fields) in
              bind (mapM (λ k, bind (stableStringify frames' h (default HUndefined (get_field fields k)))
                                    (λ s, Ok (JSON_stringify_string k ++ js ":" ++ s)))
                         keys)
                   (λ parts, Ok (js "{" ++ join (js ",") parts ++ js "}"))
          end
      end
  end.





(** The heap value [hv] stands for the tree [v]: the same primitives, and
    behind each reference an array or object with the tree's children. *)
Inductive represents (h : heap) : hvalue → value → Prop :=
  | rep_null : represents h HNull VNull
  | rep_undefined : represents h HUndefined VUndefined
  | rep_num x : represents h (HNum x) (VNum x)
  | rep_bool b : represents h (HBool b) (VBool b)
  | rep_str s : represents h (HStr s) (VStr s)
  | rep_fun : represents h HFun VFun
  | rep_array l helems elems :
      h l = HArray helems → Forall2 (represents h) helems elems →
      represents h (HRef l) (VArr elems)
  | rep_toJSON l hr r hfields fields :
      h l = HObject (Some hr) hfields → represents h hr r →
      represents h (HRef l) (VObj (Some r) fields)
  | rep_object l hfields fields :
      h l = HObject None hfields →
      Forall2 (λ a b, a.1 = b.1 ∧ represents h a.2 b.2) hfields fields →
      represents h (HRef l) (VObj None fields).

(** The depth of a tree: the frames its encoding takes. *)
Fixpoint depth (v : value) : nat :=
  match v with
  | VArr elems => S (foldr (λ e d, Nat.max (depth e) d) 0%nat elems)
  | VObj (Some r) _ => S (depth r)
  | VObj None fields => S (foldr (λ kv d, Nat.max (depth kv.2) d) 0%nat fields)
  | _ => 1
  end.

End Heap.


(** ** The handlers: what they throw *)

Inductive exn : Type :=
  | JsError (message : jstr)     (* new Error(message) *)
  | FsError                       (* readFileSync failed *)
  | DbError (e : error)           (* a statement refused, or the TypeError of an append *)
  | InvalidUuid                   (* a parameter that the database does not read as a uuid *)
  | InvalidText.                  (* a text with a NUL character *)

Inductive outcome (A : Type) : Type :=
  | Returns (a : A)
  | Throws (e : exn).
Arguments Returns {A} a.
Arguments Throws {A} e.

(** ** The key file *)

Module KeyFile.

(** WhiteSpace and LineTerminator, the code units [trim] strips. *)
Definition is_space (c : N) : bool :=
  bool_decide (c ∈ [9; 10; 11; 12; 13; 32; 0xA0; 0x1680; 0x2028; 0x2029; 0x202F; 0x205F;
                    0x3000; 0xFEFF])
  || (0x2000 <=? c) && (c <=? 0x200A).

Fixpoint trimStart (s : jstr) : jstr :=
  match s with
  | [] => []
  | c :: rest => if is_space c then trimStart rest else s
  end.

Definition trimEnd (s : jstr) : jstr := reverse (trimStart (reverse s)).

(** [String.prototype.trim]. *)
Definition trim (s : jstr) : jstr := trimEnd (trimStart s).

(** [readKeyFromFile] (index.js 28-32, worker.js 25-29); [fs] gives the
    text of the files that can be read. *)
Definition readKeyFromFile (fs : jstr → option jstr) (path : jstr) : outcome jstr :=
  match fs path with
  | None => Throws FsError
  | Some content =>
      let raw := trim content in
      if bool_decide (raw = []) then Throws (JsError (js "OWM api key file empty"))
      else Returns raw
  end.

End KeyFile.

(** ** The worker's job handler *)

Module Worker.

Record Job := MkJob { name : jstr; data : value }.

(** The two halves of the database the handlers work on. *)
Record Store := MkStore { ledger : Ledger.Db; projections : Projections.Db }.

(** ToBoolean. *)
Definition truthy (v : value) : bool :=
  match v with
  | VNull | VUndefined => false
  | VBool b => b
  | VNum x => negb (is_nan x || (x =? 0)%float)
  | VStr s => negb (bool_decide (s = []))
  | VArr _ | VObj _ _ | VFun => true
  end.

(** [const { locationId } = job.data || {}]. *)
Definition job_locationId (data : value) : value :=
  Risk.opt_get (if truthy data then data else VObj None []) (js "locationId").

(** An integer as a number. *)
Definition Number_of_Z (z : Z) : float :=
  if (z <? 0)%Z then (- PrimFloat.of_uint63 (Uint63.of_Z (- z)))%float
  else PrimFloat.of_uint63 (Uint63.of_Z z).

(** The objects of a decision, as the payload and the projections hold
    them. *)
Definition value_of_rule (r : Risk.rule) : value :=
  VObj None [(js "id", VStr (Risk.id r)); (js "severity", VStr (Risk.severity r));
             (js "why", VStr (Risk.why r))].

Definition value_of_applied_rule (a : Risk.applied_rule_t) : value :=
  let '(tempC, windMs, rain1hMm) := Risk.inputs a in
  VObj None [(js "version", VNum (Number_of_Z (Risk.version a)));
             (js "inputs", VObj None [(js "tempC", tempC); (js "windMs", windMs);
                                      (js "rain1hMm", rain1hMm)]);
             (js "rules", VArr (value_of_rule <$> Risk.rules a))].

Section Handler.
(** The host's collation, and the uuid a text denotes for the database (in
    the form the database prints it), if it denotes one. *)
Variable localeCompare : jstr → jstr → Z.
Variable uuid_in : jstr → option jstr.

(** [select ... from locations where id=$1 and is_active=true].  A
    parameter that is no string reaches the database as a text that is no
    uuid. *)
Definition select_active (param : value) (db : Projections.Db)
    : outcome (list Projections.Location) :=
  match param with
  | VStr text =>
      match uuid_in text with
      | None => Throws InvalidUuid
      | Some u =>
          Returns (filter (λ l, Projections.id l = u ∧ Projections.is_active l = true)
                          (Projections.locations db))
      end
  | _ => Throws InvalidUuid
  end.

(** The payload of a decision event (worker.js 148-153). *)
Definition decision_payload (loc : Projections.Location) (pack : Risk.pack) (raw : value)
    : value :=
  VObj None
    [(js "location",
      VObj None [(js "id", VStr (Projections.id loc)); (js "name", VStr (Projections.name loc));
                 (js "lat", VNum (Projections.lat loc)); (js "lon", VNum (Projections.lon loc))]);
     (js "decision", VStr (Risk.decision pack));
     (js "applied_rule", value_of_applied_rule (Risk.applied_rule pack));
     (js "raw_weather", raw)].

(** What [fetchOpenWeather] answers with, as far as the handler is
    modelled: a JSON object or [null].  Another answer (an array, a string,
    a number) reaches the JSONB columns through conversions of the driver
    that are not modelled. *)
Definition is_object_or_null (raw : value) : bool :=
  match raw with
  | VNull | VObj None _ => true
  | _ => false
  end.

(** The job handler (worker.js 126-166).  [fs] and [key_path] are the key
    file, [sensor] is what [fetchOpenWeather] answers for a key and a
    coordinate, [now1] and [now2] what [now()] answers in the projections.
    [None]: outside what is modelled, a weather answer that is neither an
    object nor [null], or a reading outside the coercions [decideRisk] is
    modelled on. *)
Definition handler (fs : jstr → option jstr) (key_path : jstr)
    (sensor : jstr → float → float → outcome value) (now1 now2 : Z)
    (job : Job) (st : Store) : option (outcome value * Store) :=
  if negb (str_eqb (name job) (js "refresh-location")) then Some (Returns VUndefined, st)
  else
    match KeyFile.readKeyFromFile fs key_path with
    | Throws e => Some (Throws e, st)
    | Returns apiKey =>
        let locationId := job_locationId (data job) in
        if negb (truthy locationId) then Some (Throws (JsError (js "missing locationId")), st)
        else
          match select_active locationId (projections st) with
          | Throws e => Some (Throws e, st)
          | Returns [] => Some (Throws (JsError (js "location not found / inactive")), st)
          | Returns (loc :: _) =>
              match sensor apiKey (Projections.lat loc) (Projections.lon loc) with
              | Throws e => Some (Throws e, st)
              | Returns raw =>
                  _ ← guard (is_object_or_null raw);
                  pack ← Risk.decide_reading localeCompare raw;
                  let payload := decision_payload loc pack raw in
                  match Ledger.worker_appendLedgerEvent (js "DECISION_WEATHER_RISK") payload
                          (ledger st) with
                  | (Err e, ledger') => Some (Throws (DbError e), MkStore ledger' (projections st))
                  | (Ok eventHash, ledger') =>
                      let p := Projections.MkProjected (Risk.decision pack)
                                 (value_of_applied_rule (Risk.applied_rule pack)) raw eventHash in
                      match Projections.applyProjections now1 now2 (Projections.id loc) p
                              (projections st) with
                      | (Err e, projections') =>
                          Some (Throws (DbError e), MkStore ledger' projections')
                      | (Ok _, projections') =>
                          Some (Returns (VObj None [(js "ok", VBool true);
                                                    (js "decision", VStr (Risk.decision pack));
                                                    (js "ledger_hash", VStr eventHash)]),
                                MkStore ledger' projections')
                      end
                  end
              end
          end
    end.

End Handler.

(** *** Vocabulary for the properties of the handler *)

(** The row a decision adds to the ledger after the row [row0]. *)
Definition decision_hash (row0 : Ledger.LedgerEvent) (loc : Projections.Location)
    (pack : Risk.pack) (raw : value) : jstr :=
  Ledger.chain_hash (Ledger.event_hash row0) (js "DECISION_WEATHER_RISK")
                    (decision_payload loc pack raw).

Definition decision_event (db : Ledger.Db) (row0 : Ledger.LedgerEvent)
    (loc : Projections.Location) (pack : Risk.pack) (raw : value) : Ledger.LedgerEvent :=
  Ledger.Event (Ledger.ledger_events_id_seq db + 1) (js "DECISION_WEATHER_RISK")
               (decision_payload loc pack raw) (Ledger.event_hash row0)
               (decision_hash row0 loc pack raw).

(** What the handler projects, and what it returns. *)
Definition projected (pack : Risk.pack) (raw : value) (eventHash : jstr)
    : Projections.Projected :=
  Projections.MkProjected (Risk.decision pack)
    (value_of_applied_rule (Risk.applied_rule pack)) raw eventHash.

Definition result_value (pack : Risk.pack) (eventHash : jstr) : value :=
  VObj None [(js "ok", VBool true); (js "decision", VStr (Risk.decision pack));
             (js "ledger_hash", VStr eventHash)].

(** A store, a job, a key file and a weather answer for the examples. *)
Definition sample_store : Store := MkStore Ledger.sample Projections.sample.

Definition sample_job : Job :=
  MkJob (js "refresh-location") (VObj None [(js "locationId", VStr (js "loc-1"))]).

Definition sample_fs : jstr → option jstr := λ _, Some (js " owm-key ").

Definition sample_fields : list (jstr * value) :=
  [(js "main", VObj None [(js "temp", VNum 35)]);
   (js "wind", VObj None [(js "speed", VNum 3)])].

Definition sample_sensor (raw : value) : jstr → float → float → outcome value :=
  λ _ _ _, Returns raw.

End Worker.

(** ** The command routes of the API *)

Module Api.

(** The database and the job queue. *)
Record System := MkSystem {
  store : Worker.Store;
  queue : list Worker.Job;
  queue_seq : Z
}.

(** What a route answers: 400 with the schema's report, 404, or 200 with a
    body. *)
Inductive response : Type :=
  | BadRequest
  | NotFound
  | Json (body : value).

(** The schema [LocationCreate] (index.js 92-96) on a request body: the
    three fields of an accepted body, other keys dropped. *)
Definition LocationCreate (body : value) : option (jstr * float * float) :=
  match body with
  | VObj None fields =>
      match get_value fields (js "name"), get_value fields (js "lat"),
            get_value fields (js "lon") with
      | VStr name, VNum lat, VNum lon =>
          if (1 <=? length name)%nat && (length name <=? 80)%nat
             && negb (is_nan lat) && Risk.ge lat (-90) && Risk.le lat 90
             && negb (is_nan lon) && Risk.ge lon (-180) && Risk.le lon 180
          then Some (name, lat, lon)
          else None
      | _, _, _ => None
      end
  | _ => None
  end.

(** A text as the database stores and returns it: a surrogate without
    partner is written as U+FFFD. *)
Fixpoint toWellFormed (s : jstr) : jstr :=
  match s with
  | [] => []
  | c :: rest =>
      if is_high_surrogate c then
        match rest with
        | d :: rest' =>
            if is_low_surrogate d then c :: d :: toWellFormed rest'
            else 0xFFFD%N :: toWellFormed rest
        | [] => [0xFFFD%N]
        end
      else if is_low_surrogate c then 0xFFFD%N :: toWellFormed rest
      else c :: toWellFormed rest
  end.

(** [insert into locations(name, lat, lon) ... returning id, name, lat, lon,
    is_active]; [new_id] is what [gen_random_uuid()] draws. *)
Definition insert_location (new_id name : jstr) (lat lon : float) (db : Projections.Db)
    : outcome Projections.Location * Projections.Db :=
  if bool_decide (0%N ∈ name) then (Throws InvalidText, db)
  else if bool_decide (new_id ∈ Projections.id <$> Projections.locations db) then
    (Throws (DbError UniqueViolation), db)
  else
    let loc := Projections.MkLocation new_id (toWellFormed name) lat lon true in
    (Returns loc,
     Projections.MkDb (Projections.locations db ++ [loc]) (Projections.location_state db)
                      (Projections.weather_snapshots db)
                      (Projections.weather_snapshots_id_seq db)).

(** The row of [locations] as the object the driver returns. *)
Definition value_of_location (loc : Projections.Location) : value :=
  VObj None [(js "id", VStr (Projections.id loc)); (js "name", VStr (Projections.name loc));
             (js "lat", VNum (Projections.lat loc)); (js "lon", VNum (Projections.lon loc));
             (js "is_active", VBool (Projections.is_active loc))].

(** [queue.add("refresh-location", { locationId }, ...)]: the job and its
    id. *)
Definition queue_add (locationId : jstr) (q : list Worker.Job) (q_seq : Z)
    : jstr * list Worker.Job * Z :=
  (String_of_Z (q_seq + 1),
   q ++ [Worker.MkJob (js "refresh-location") (VObj None [(js "locationId", VStr locationId)])],
   (q_seq + 1)%Z).

Section Routes.
Variable uuid_in : jstr → option jstr.

(** [POST /api/cmd/locations] (index.js 98-116). *)
Definition post_locations (new_id : jstr) (body : value) (sys : System)
    : outcome response * System :=
  match LocationCreate body with
  | None => (Returns BadRequest, sys)
  | Some (name, lat, lon) =>
      match insert_location new_id name lat lon (Worker.projections (store sys)) with
      | (Throws e, projections') =>
          (Throws e, MkSystem (Worker.MkStore (Worker.ledger (store sys)) projections')
                              (queue sys) (queue_seq sys))
      | (Returns loc, projections') =>
          match Ledger.appendLedgerEvent (js "CMD_LOCATION_ADD")
                  (VObj None [(js "location", value_of_location loc)])
                  (Worker.ledger (store sys)) with
          | (Err e, ledger') =>
              (Throws (DbError e),
               MkSystem (Worker.MkStore ledger' projections') (queue sys) (queue_seq sys))
          | (Ok _, ledger') =>
              let '(_, queue', seq') := queue_add (Projections.id loc) (queue sys) (queue_seq sys) in
              (Returns (Json (VObj None [(js "ok", VBool true);
                                         (js "location", value_of_location loc)])),
               MkSystem (Worker.MkStore ledger' projections') queue' seq')
          end
      end
  end.

(** [POST /api/cmd/locations/:id/refresh] (index.js 118-127). *)
Definition post_refresh (id : jstr) (sys : System) : outcome response * System :=
  match Worker.select_active uuid_in (VStr id) (Worker.projections (store sys)) with
  | Throws e => (Throws e, sys)
  | Returns [] => (Returns NotFound, sys)
  | Returns (_ :: _) =>
      match Ledger.appendLedgerEvent (js "CMD_LOCATION_REFRESH")
              (VObj None [(js "locationId", VStr id)]) (Worker.ledger (store sys)) with
      | (Err e, ledger') =>
          (Throws (DbError e),
           MkSystem (Worker.MkStore ledger' (Worker.projections (store sys)))
                    (queue sys) (queue_seq sys))
      | (Ok _, ledger') =>
          let '(jobId, queue', seq') := queue_add id (queue sys) (queue_seq sys) in
          (Returns (Json (VObj None [(js "ok", VBool true); (js "enqueued", VBool true);
                                     (js "jobId", VStr jobId)])),
           MkSystem (Worker.MkStore ledger' (Worker.projections (store sys))) queue' seq')
      end
  end.

End Routes.

(** A system and a request body for the examples. *)
Definition sample_system : System := MkSystem Worker.sample_store [] 0.

Definition sample_body : value :=
  VObj None [(js "name", VStr (js "Olinda")); (js "lat", VNum (-8.01));
             (js "lon", VNum (-34.85))].

End Api.
(* ===================================================================== *)
(** * Part II: properties *)
(* ===================================================================== *)

Local Close Scope N_scope.

(** ** The digest on the test vectors of FIPS 180-4 *)

Example sha_abc : sha256Hex (js "abc") = js "ba7816bf8f01cfea414140de5dae2223b00361a396177a9cb410ff61f20015ad".
Proof. vm_compute. reflexivity. Qed.
Example sha_empty : sha256Hex [] = js "e3b0c44298fc1c149afbf4c8996fb92427ae41e4649b934ca495991b7852b855".
Proof. vm_compute. reflexivity. Qed.
Example sha_two_blocks :
  sha256Hex (js "abcdbcdecdefdefgefghfghighijhijkijkljklmklmnlmnomnopnopq")
  = js "248d6a61d20638b8e5c026930c3e6039a33ce45964ff2167f6ecedd419db06c1".
Proof. vm_compute. reflexivity. Qed.

Example sha_constants :
  head Sha256.K = Some 0x428a2f98%N ∧ last Sha256.K = Some 0xc67178f2%N ∧ length Sha256.K = 64
  ∧ head Sha256.H0 = Some 0x6a09e667%N ∧ last Sha256.H0 = Some 0x5be0cd19%N.
Proof. by vm_compute. Qed.

(** ** Strings and their order *)

Lemma str_eqb_eq (a b : jstr) : str_eqb a b = true ↔ a = b.
Proof. unfold str_eqb. apply bool_decide_eq_true. Qed.

Lemma str_eqb_refl (a : jstr) : str_eqb a a = true.
Proof. by apply str_eqb_eq. Qed.

Lemma str_eqb_neq (a b : jstr) : str_eqb a b = false ↔ a ≠ b.
Proof. unfold str_eqb. apply bool_decide_eq_false. Qed.

Lemma str_ltb_irrefl (a : jstr) : str_ltb a a = false.
Proof.
  induction a as [|x a IH]; [done|]. simpl.
  by rewrite N.ltb_irrefl.
Qed.

Lemma str_ltb_trans (a b c : jstr) :
  str_ltb a b = true → str_ltb b c = true → str_ltb a c = true.
Proof.
  revert b c. induction a as [|x a IH]; intros [|y b] [|z c]; simpl; try done.
  destruct (N.ltb_spec x y), (N.ltb_spec y x), (N.ltb_spec y z), (N.ltb_spec z y),
    (N.ltb_spec x z), (N.ltb_spec z x); try done; try lia.
  apply IH.
Qed.

Lemma str_ltb_trichotomy (a b : jstr) :
  str_ltb a b = true ∨ a = b ∨ str_ltb b a = true.
Proof.
  revert b. induction a as [|x a IH]; intros [|y b]; simpl; auto.
  destruct (N.ltb_spec x y), (N.ltb_spec y x); auto; try lia.
  assert (x = y) as -> by lia.
  destruct (IH b) as [?|[->|?]]; auto.
Qed.

Lemma str_ltb_asym (a b : jstr) : str_ltb a b = true → str_ltb b a = false.
Proof.
  intros Hab. destruct (str_ltb b a) eqn:Hba; [|done].
  by rewrite <-(str_ltb_irrefl a), (str_ltb_trans a b a).
Qed.

Lemma default_compare_le (a b : jstr) : (default_compare a b ≤ 0)%Z ↔ str_le a b.
Proof.
  unfold default_compare, str_le, str_leb.
  destruct (str_ltb a b) eqn:Hab.
  - rewrite (str_ltb_asym a b Hab). by split; [|lia].
  - destruct (str_ltb b a); simpl; split; (done || lia).
Qed.

#[local] Instance str_le_trans : Transitive str_le.
Proof.
  intros a b c. unfold str_le, str_leb. rewrite !negb_true_iff. intros Hba Hcb.
  destruct (str_ltb c a) eqn:Hca; [|done].
  destruct (str_ltb_trichotomy a b) as [Hab|[->|Hab]]; [|congruence..].
  by rewrite (str_ltb_trans c a b) in Hcb.
Qed.

#[local] Instance str_le_antisym : AntiSymm (=) str_le.
Proof.
  intros a b. unfold str_le, str_leb. rewrite !negb_true_iff. intros Hba Hab.
  destruct (str_ltb_trichotomy a b) as [?|[->|?]]; congruence.
Qed.

Lemma str_le_total (a b : jstr) : str_le a b ∨ str_le b a.
Proof.
  unfold str_le, str_leb.
  destruct (str_ltb b a) eqn:Hba; [right|by left].
  by rewrite (str_ltb_asym b a Hba).
Qed.

(** ** [Array.prototype.sort] *)

Section ArraySortFacts.
Context {A : Type} (cmp : A → A → Z).

Lemma sort_insert_Permutation (x : A) (l : list A) : sort_insert cmp x l ≡ₚ x :: l.
Proof.
  induction l as [|y l IH]; simpl; [done|].
  destruct (cmp x y <=? 0)%Z; [done|].
  by rewrite IH, Permutation_swap.
Qed.

Lemma Array_sort_Permutation (l : list A) : Array_sort cmp l ≡ₚ l.
Proof.
  induction l as [|x l IH]; simpl; [done|].
  by rewrite sort_insert_Permutation, IH.
Qed.

Lemma Array_sort_length (l : list A) : length (Array_sort cmp l) = length l.
Proof. by rewrite Array_sort_Permutation. Qed.

Lemma Array_sort_singleton (x : A) : Array_sort cmp [x] = [x].
Proof. done. Qed.

(** The sort orders by [R] whenever [cmp] decides [R] between the
    elements at hand. *)
Lemma sort_insert_Sorted (R : A → A → Prop) (x : A) (l : list A) :
  (∀ y, y ∈ l → ((cmp x y ≤ 0)%Z → R x y) ∧ (¬ (cmp x y ≤ 0)%Z → R y x)) →
  Sorted R l → Sorted R (sort_insert cmp x l).
Proof.
  intros Hx Hl. induction Hl as [|y l Hl IH Hhd]; simpl.
  { repeat constructor. }
  destruct (Hx y) as [Hle Hgt]; [by left|].
  destruct (Z.leb_spec (cmp x y) 0).
  - constructor; [by constructor|]. constructor. by apply Hle.
  - constructor.
    + apply IH. intros z Hz. apply Hx. by right.
    + destruct Hhd as [|z l Hyz]; simpl.
      * constructor. apply Hgt. lia.
      * destruct (Z.leb_spec (cmp x z) 0); constructor; [|done]. apply Hgt. lia.
Qed.

Lemma Array_sort_Sorted (R : A → A → Prop) (l : list A) :
  NoDup l →
  (∀ x y, x ∈ l → y ∈ l → x ≠ y → ((cmp x y ≤ 0)%Z → R x y) ∧ (¬ (cmp x y ≤ 0)%Z → R y x)) →
  Sorted R (Array_sort cmp l).
Proof.
  induction 1 as [|x l Hx Hnd IH]; intros Hcmp; simpl; [constructor|].
  apply sort_insert_Sorted.
  - intros y Hy. rewrite Array_sort_Permutation in Hy.
    apply Hcmp; [by left|by right|]. by intros ->.
  - apply IH. intros y z Hy Hz. apply Hcmp; by right.
Qed.

(** With a comparison that is total, no duplicates are needed. *)
Lemma Array_sort_Sorted_total (R : A → A → Prop) (l : list A) :
  (∀ x y, ((cmp x y ≤ 0)%Z → R x y) ∧ (¬ (cmp x y ≤ 0)%Z → R y x)) →
  Sorted R (Array_sort cmp l).
Proof.
  intros Hcmp. induction l as [|x l IH]; simpl; [constructor|].
  apply sort_insert_Sorted; [|done]. intros y _. apply Hcmp.
Qed.
End ArraySortFacts.

(** Sorting keys: the result depends on the keys, not on their order. *)
Lemma sort_keys_Sorted (l : list jstr) : Sorted str_le (Array_sort default_compare l).
Proof.
  apply Array_sort_Sorted_total. intros x y. rewrite default_compare_le. split; [done|].
  intros Hxy. by destruct (str_le_total x y).
Qed.

Lemma sort_keys_Permutation (l1 l2 : list jstr) :
  l1 ≡ₚ l2 → Array_sort default_compare l1 = Array_sort default_compare l2.
Proof.
  intros Hl. apply (Sorted_unique str_le); [apply sort_keys_Sorted..|].
  by rewrite !Array_sort_Permutation.
Qed.

(** ** The canonical encoder *)

(** Induction over value trees, with the hypothesis for every child. *)
Lemma value_ind' (P : value → Prop) :
  P VNull → P VUndefined → (∀ x, P (VNum x)) → (∀ b, P (VBool b)) → (∀ s, P (VStr s)) →
  (∀ elems, Forall P elems → P (VArr elems)) →
  (∀ r fields, P r → P (VObj (Some r) fields)) →
  (∀ fields, Forall (λ kv, P kv.2) fields → P (VObj None fields)) →
  P VFun → ∀ v, P v.
Proof.
  intros Hnull Hundef Hnum Hbool Hstr Harr Htj Hobj Hfun.
  fix IH 1. intros [| |x|b|s|elems|[r|] fields|].
  - exact Hnull.
  - exact Hundef.
  - apply Hnum.
  - apply Hbool.
  - apply Hstr.
  - apply Harr. induction elems as [|e elems IHl]; constructor; [apply IH|exact IHl].
  - apply Htj, IH.
  - apply Hobj. induction fields as [|[k e] fields IHl]; constructor; [apply IH|exact IHl].
  - exact Hfun.
Qed.

Lemma get_field_fmap {V W} (f : V → W) (fields : list (jstr * V)) (k : jstr) :
  get_field ((λ kv, (kv.1, f kv.2)) <$> fields) k = f <$> get_field fields k.
Proof.
  induction fields as [|[k' v] fields IH]; simpl; [done|].
  by destruct (str_eqb k' k).
Qed.

(** The object case as the source writes it: the sorted keys, each with the
    encoding of [v[k]]. *)
Lemma stableStringify_object (fields : list (jstr * value)) :
  stableStringify (VObj None fields)
  = js "{"
      ++ join (js ",")
           ((λ k, JSON_stringify_string k ++ js ":" ++ stableStringify (get_value fields k))
              <$> Array_sort default_compare (Object_keys fields))
      ++ js "}".
Proof.
  cbn [stableStringify]. do 3 f_equal.
  apply list_fmap_ext. intros _ k _. do 2 f_equal.
  unfold get_value.
  change (list_fmap _ _ (λ kv, (kv.1, stableStringify kv.2)) fields)
    with ((λ kv : jstr * value, (kv.1, stableStringify kv.2)) <$> fields).
  rewrite get_field_fmap. by destruct (get_field fields k).
Qed.

Lemma get_field_Some {V} (fields : list (jstr * V)) (k : jstr) (v : V) :
  get_field fields k = Some v → (k, v) ∈ fields.
Proof.
  induction fields as [|[k' v'] fields IH]; simpl; [done|].
  destruct (str_eqb k' k) eqn:Hk.
  - apply str_eqb_eq in Hk as ->. intros [= ->]. by left.
  - intros Hv. right. by apply IH.
Qed.

Lemma get_field_NoDup {V} (fields : list (jstr * V)) (k : jstr) (v : V) :
  NoDup (Object_keys fields) → (k, v) ∈ fields → get_field fields k = Some v.
Proof.
  unfold Object_keys. induction fields as [|[k' v'] fields IH]; simpl.
  { by intros _ ?%elem_of_nil. }
  rewrite NoDup_cons. intros [Hk' Hnd] [[= -> ->]|Hin]%elem_of_cons.
  - by rewrite str_eqb_refl.
  - destruct (str_eqb k' k) eqn:Hk; [|by apply IH].
    apply str_eqb_eq in Hk as ->. destruct Hk'.
    apply list_elem_of_fmap. by exists (k, v).
Qed.

Lemma get_field_None {V} (fields : list (jstr * V)) (k : jstr) :
  get_field fields k = None ↔ k ∉ Object_keys fields.
Proof.
  unfold Object_keys. induction fields as [|[k' v'] fields IH]; simpl.
  { split; [intros _ ?%elem_of_nil|]; done. }
  rewrite not_elem_of_cons. destruct (str_eqb k' k) eqn:Hk.
  - apply str_eqb_eq in Hk. split; [done|]. intros [Hne _]. by destruct Hne.
  - apply str_eqb_neq in Hk. rewrite IH. split; [|by intros [_ ?]]. intros ?. split; [|done].
    by intros ->.
Qed.

(** Reading a property does not depend on where the object lists it. *)
Lemma get_field_Permutation {V} (fields1 fields2 : list (jstr * V)) (k : jstr) :
  NoDup (Object_keys fields1) → fields1 ≡ₚ fields2 →
  get_field fields1 k = get_field fields2 k.
Proof.
  intros Hnd Hperm.
  assert (NoDup (Object_keys fields2)) as Hnd2.
  { unfold Object_keys in *. by rewrite <-Hperm. }
  destruct (get_field fields1 k) as [v|] eqn:H1.
  - symmetry. apply get_field_NoDup; [done|]. rewrite <-Hperm. by apply get_field_Some.
  - symmetry. apply get_field_None. apply get_field_None in H1.
    unfold Object_keys in *. by rewrite <-Hperm.
Qed.

Lemma get_field_Forall2 {V W} (R : V → W → Prop)
    (fields1 : list (jstr * V)) (fields2 : list (jstr * W)) (k : jstr) :
  Forall2 (λ a b, a.1 = b.1 ∧ R a.2 b.2) fields1 fields2 →
  option_Forall2 R (get_field fields1 k) (get_field fields2 k).
Proof.
  induction 1 as [|[k1 v1] [k2 v2] ?? [Hk Hv]]; simpl in *; [constructor|]. subst k2.
  destruct (str_eqb k1 k); [by constructor|done].
Qed.

Lemma Forall2_keys {V W} (R : V → W → Prop)
    (fields1 : list (jstr * V)) (fields2 : list (jstr * W)) :
  Forall2 (λ a b, a.1 = b.1 ∧ R a.2 b.2) fields1 fields2 →
  Object_keys fields1 = Object_keys fields2.
Proof.
  unfold Object_keys. induction 1 as [|?? ?? [Hk _]]; simpl; [done|]. by f_equal.
Qed.

Lemma get_value_same (fields1 fields2 : list (jstr * value)) (k : jstr) :
  Forall (λ kv, ∀ w, same_tree kv.2 w → stableStringify kv.2 = stableStringify w) fields1 →
  Forall2 (λ a b, a.1 = b.1 ∧ same_tree a.2 b.2) fields1 fields2 →
  stableStringify (default VUndefined (get_field fields1 k))
  = stableStringify (default VUndefined (get_field fields2 k)).
Proof.
  intros IH Hf. induction Hf as [|[k1 v1] [k2 v2] l1 l2 [Hk Hv] Hl IHl]; [done|].
  apply Forall_cons in IH as [IHv IH]. simpl in *. subst k2.
  destruct (str_eqb k1 k); [by apply IHv|by apply IHl].
Qed.

(** C7. The canonical encoding is a function of the value alone, and two
    trees that list the same key-value pairs in different insertion orders,
    at the top or anywhere below, have the same encoding: the keys are
    sorted before they are joined. *)
Theorem stableStringify_deterministic (v w : value) :
  same_tree v w → stableStringify v = stableStringify w.
Proof.
  revert w. induction v as [| |x|b|s|elems IH|r fields IH|fields IH|] using value_ind';
    intros w Hvw; inv Hvw; try done.
  - (* arrays *)
    cbn [stableStringify]. do 3 f_equal.
    match goal with H : Forall2 same_tree _ _ |- _ => induction H as [|e1 e2 l1 l2 He Hl IHl] end;
      [done|].
    apply Forall_cons in IH as [IHe IH]. cbn. f_equal; [by apply IHe|by apply IHl].
  - (* toJSON *)
    cbn [stableStringify]. by apply IH.
  - (* objects *)
    match goal with
    | Hnd : NoDup _, Hp : fields ≡ₚ ?re, Hf : Forall2 _ ?re ?f2 |- _ =>
        rename re into reordered; rename f2 into fields2
    end.
    rewrite !stableStringify_object.
    assert (Object_keys fields ≡ₚ Object_keys fields2) as Hkeys.
    { rewrite <-(Forall2_keys same_tree reordered fields2) by done.
      unfold Object_keys. by apply fmap_Permutation. }
    rewrite (sort_keys_Permutation _ _ Hkeys). do 3 f_equal.
    apply list_fmap_ext. intros _ k _. do 2 f_equal.
    unfold get_value. rewrite (get_field_Permutation fields reordered k) by done.
    apply get_value_same; [|done].
    match goal with Hp : fields ≡ₚ reordered |- _ => by rewrite <-Hp end.
Qed.

(** ** The decision rules *)

Section RiskFacts.
Import Risk.
Variable localeCompare : jstr → jstr → Z.

Let by_id (a b : rule) : Z := localeCompare (id a) (id b).

(** [decideRisk] collects the rules of the table, dimension after dimension,
    classifies them and sorts them. *)
Lemma decideRisk_table (tempC windMs rain1hMm : value) (t w r : float) :
  toNumber tempC = Some t → toNumber windMs = Some w → toNumber rain1hMm = Some r →
  decideRisk localeCompare tempC windMs rain1hMm
  = Some (Pack (classification (table t w r))
               (AppliedRule 1 (tempC, windMs, rain1hMm) (Array_sort by_id (table t w r)))).
Proof.
  intros Ht Hw Hr. unfold decideRisk, table, rain_rule, wind_rule, heat_rule, cold_rule, classification.
  rewrite Ht, Hw, Hr. cbn [mbind option_bind].
  (destruct (ge r 20); [|destruct (ge r 8)]);
    (destruct (ge w 20); [|destruct (ge w 12)]);
    (destruct (ge t 38); [|destruct (ge t 33)]);
    (destruct (le t (-3)); [|destruct (le t 2)]);
    reflexivity.
Qed.

Lemma existsb_Permutation {A} (f : A → bool) (l1 l2 : list A) :
  l1 ≡ₚ l2 → existsb f l1 = existsb f l2.
Proof.
  induction 1 as [|x l1 l2 _ IH|x y l|l1 l2 l3 _ IH1 _ IH2]; simpl.
  - done.
  - by rewrite IH.
  - by destruct (f x), (f y).
  - by rewrite IH1.
Qed.

Lemma classification_Permutation (l1 l2 : list rule) :
  l1 ≡ₚ l2 → classification l1 = classification l2.
Proof.
  intros Hl. unfold classification.
  by rewrite !(existsb_Permutation _ l1 l2 Hl).
Qed.

(** The rules of one dimension among the rules of a decision. *)
Lemma matched_table (ids : list jstr) (decision : jstr) (ins : value * value * value)
    (t w r : float) (expected : list rule) :
  length expected ≤ 1 →
  filter (λ x, id x ∈ ids) (table t w r) = expected →
  matched ids (Pack decision (AppliedRule 1 ins (Array_sort by_id (table t w r))))
  = (λ x, (id x, severity x)) <$> expected.
Proof.
  intros Hlen Hfilter. unfold matched. cbn [applied_rule rules]. f_equal.
  assert (filter (λ x, id x ∈ ids) (Array_sort by_id (table t w r)) ≡ₚ expected) as Hperm.
  { by rewrite Array_sort_Permutation, Hfilter. }
  destruct expected as [|x [|??]]; simpl in Hlen; [| |lia].
  - by apply Permutation_nil_r.
  - by apply Permutation_singleton_r.
Qed.

Lemma filter_rain_table (t w r : float) :
  filter (λ x, id x ∈ rain_ids) (table t w r) = rain_rule r.
Proof.
  unfold table, rain_rule, wind_rule, heat_rule, cold_rule.
  destruct (ge r 20), (ge r 8), (ge w 20), (ge w 12), (ge t 38), (ge t 33), (le t (-3)), (le t 2);
    vm_compute; reflexivity.
Qed.

Lemma filter_wind_table (t w r : float) :
  filter (λ x, id x ∈ wind_ids) (table t w r) = wind_rule w.
Proof.
  unfold table, rain_rule, wind_rule, heat_rule, cold_rule.
  destruct (ge r 20), (ge r 8), (ge w 20), (ge w 12), (ge t 38), (ge t 33), (le t (-3)), (le t 2);
    vm_compute; reflexivity.
Qed.

Lemma filter_temp_table (t w r : float) :
  filter (λ x, id x ∈ temp_ids) (table t w r) = heat_rule t ++ cold_rule t.
Proof.
  unfold table, rain_rule, wind_rule, heat_rule, cold_rule.
  destruct (ge r 20), (ge r 8), (ge w 20), (ge w 12), (ge t 38), (ge t 33), (le t (-3)), (le t 2);
    vm_compute; reflexivity.
Qed.

Lemma rain_rule_length (r : float) : length (rain_rule r) ≤ 1.
Proof. unfold rain_rule. destruct (ge r 20), (ge r 8); simpl; lia. Qed.

Lemma wind_rule_length (w : float) : length (wind_rule w) ≤ 1.
Proof. unfold wind_rule. destruct (ge w 20), (ge w 12); simpl; lia. Qed.

(** The rules of one dimension of a decision on numbers. *)
Lemma matched_rain (t w r : float) :
  matched rain_ids <$> decideRisk localeCompare (VNum t) (VNum w) (VNum r)
  = Some ((λ x, (id x, severity x)) <$> rain_rule r).
Proof.
  rewrite (decideRisk_table _ _ _ t w r) by done. cbn [fmap option_fmap option_map]. f_equal.
  apply matched_table; [apply rain_rule_length|apply filter_rain_table].
Qed.

Lemma matched_wind (t w r : float) :
  matched wind_ids <$> decideRisk localeCompare (VNum t) (VNum w) (VNum r)
  = Some ((λ x, (id x, severity x)) <$> wind_rule w).
Proof.
  rewrite (decideRisk_table _ _ _ t w r) by done. cbn [fmap option_fmap option_map]. f_equal.
  apply matched_table; [apply wind_rule_length|apply filter_wind_table].
Qed.

Lemma matched_temp (t w r : float) :
  length (heat_rule t ++ cold_rule t) ≤ 1 →
  matched temp_ids <$> decideRisk localeCompare (VNum t) (VNum w) (VNum r)
  = Some ((λ x, (id x, severity x)) <$> (heat_rule t ++ cold_rule t)).
Proof.
  intros Hlen.
  rewrite (decideRisk_table _ _ _ t w r) by done. cbn [fmap option_fmap option_map]. f_equal.
  apply matched_table; [done|apply filter_temp_table].
Qed.

(** C5 (amended). On numbers, [decideRisk] matches the rules at their
    thresholds: rain 19.999 ALERT RAIN_8MM_1H (the CRITICAL rule starts at
    20, the ALERT rule at 8: 7.999 matches no rain rule) and rain 20 CRITICAL
    RAIN_20MM_1H; wind 11.999 none, wind 12 ALERT WIND_12MS, wind 20 CRITICAL
    WIND_20MS; temperature 2 ALERT TEMP_2C, 2.1 neither a heat nor a cold
    rule, 33 ALERT TEMP_33C, 38 CRITICAL TEMP_38C, -3 CRITICAL TEMP_-3C,
    whatever the other two readings are.  It answers on every triple of
    numbers, and the classification is CRITICAL if a matched rule is
    CRITICAL, else ALERT if one is ALERT, else NORMAL.  On (25, 25, 0) it
    answers CRITICAL with WIND_20MS alone. *)
Theorem decideRisk_thresholds :
  let decide t w r := decideRisk localeCompare (VNum t) (VNum w) (VNum r) in
  (∀ t w, matched rain_ids <$> decide t w 19.999%float
          = Some [(js "RAIN_8MM_1H", js "ALERT")])
  ∧ (∀ t w, matched rain_ids <$> decide t w 7.999%float = Some [])
  ∧ (∀ t w, matched rain_ids <$> decide t w 20%float
            = Some [(js "RAIN_20MM_1H", js "CRITICAL")])
  ∧ (∀ t r, matched wind_ids <$> decide t 11.999%float r = Some [])
  ∧ (∀ t r, matched wind_ids <$> decide t 12%float r = Some [(js "WIND_12MS", js "ALERT")])
  ∧ (∀ t r, matched wind_ids <$> decide t 20%float r = Some [(js "WIND_20MS", js "CRITICAL")])
  ∧ (∀ w r, matched temp_ids <$> decide 2%float w r = Some [(js "TEMP_2C", js "ALERT")])
  ∧ (∀ w r, matched temp_ids <$> decide 2.1%float w r = Some [])
  ∧ (∀ w r, matched temp_ids <$> decide 33%float w r = Some [(js "TEMP_33C", js "ALERT")])
  ∧ (∀ w r, matched temp_ids <$> decide 38%float w r = Some [(js "TEMP_38C", js "CRITICAL")])
  ∧ (∀ w r, matched temp_ids <$> decide (-3)%float w r = Some [(js "TEMP_-3C", js "CRITICAL")])
  ∧ (∀ t w r, ∃ p, decide t w r = Some p
               ∧ decision p = classification (rules (applied_rule p)))
  ∧ decide 25%float 25%float 0%float
    = Some (Pack (js "CRITICAL")
                 (AppliedRule 1 (VNum 25, VNum 25, VNum 0)
                    [Rule (js "WIND_20MS") (js "CRITICAL") (js "wind_ms>=20")])).
Proof.
  cbv zeta. split_and!; intros.
  1-3: by rewrite matched_rain; vm_compute.
  1-3: by rewrite matched_wind; vm_compute.
  1-5: by rewrite matched_temp by (vm_compute; lia); vm_compute.
  - eexists. split; [by apply decideRisk_table|]. cbn [decision applied_rule rules].
    apply classification_Permutation. by rewrite Array_sort_Permutation.
  - by rewrite (decideRisk_table _ _ _ 25 25 0).
Qed.

(** Two thresholds [lo < hi] cannot both be passed: a number at or above
    [hi] is not at or below [lo]. *)
Lemma ge_le_exclusive (hi lo x : float) :
  SFltb (Prim2SF lo) (Prim2SF hi) = true → ge x hi = true → le x lo = false.
Proof.
  unfold ge, le. rewrite !leb_spec. unfold SFltb, SFleb.
  destruct (Prim2SF lo) as [s1|s1| |s1 m1 e1], (Prim2SF hi) as [s2|s2| |s2 m2 e2],
    (Prim2SF x) as [s|s| |s m e]; simpl; try done;
    repeat match goal with b : bool |- _ => destruct b end; simpl; try done.
  all: try (destruct (Z.compare_spec e1 e2), (Z.compare_spec e2 e), (Z.compare_spec e e1);
            simpl; try done; try lia).
  all: subst; rewrite ?Pos.compare_cont_spec; simpl.
  all: try (destruct (Pos.compare_spec m1 m2), (Pos.compare_spec m2 m), (Pos.compare_spec m m1);
            simpl; try done; try lia).
Qed.

(** A number at or above the higher of two thresholds is at or above the
    lower one. *)
Lemma ge_weaken (hi lo x : float) :
  SFltb (Prim2SF lo) (Prim2SF hi) = true → ge x hi = true → ge x lo = true.
Proof.
  unfold ge. rewrite !leb_spec. unfold SFltb, SFleb.
  destruct (Prim2SF lo) as [s1|s1| |s1 m1 e1], (Prim2SF hi) as [s2|s2| |s2 m2 e2],
    (Prim2SF x) as [s|s| |s m e]; simpl; try done;
    repeat match goal with b : bool |- _ => destruct b end; simpl; try done.
  all: try (destruct (Z.compare_spec e1 e2), (Z.compare_spec e2 e), (Z.compare_spec e1 e);
            simpl; try done; try lia).
  all: subst; rewrite ?Pos.compare_cont_spec; simpl.
  all: try (destruct (Pos.compare_spec m1 m2), (Pos.compare_spec m2 m), (Pos.compare_spec m1 m);
            simpl; try done; try lia).
Qed.

(** No temperature is both hot and cold. *)
Lemma heat_or_cold (t : float) : heat_rule t = [] ∨ cold_rule t = [].
Proof.
  unfold heat_rule, cold_rule.
  destruct (ge t 38) eqn:H38.
  { right. by rewrite (ge_le_exclusive 38 (-3) t), (ge_le_exclusive 38 2 t). }
  destruct (ge t 33) eqn:H33; [|by left].
  right. by rewrite (ge_le_exclusive 33 (-3) t), (ge_le_exclusive 33 2 t).
Qed.

Lemma NoDup_fmap_eq {A B} (f : A → B) (l : list A) (x y : A) :
  NoDup (f <$> l) → x ∈ l → y ∈ l → f x = f y → x = y.
Proof.
  induction l as [|z l IH]; [by intros _ ?%elem_of_nil|].
  rewrite fmap_cons, NoDup_cons, !elem_of_cons.
  intros [Hz Hl] [->|Hx] [->|Hy] Hf; [done| | |by apply IH].
  - destruct Hz. rewrite Hf. by apply list_elem_of_fmap_2.
  - destruct Hz. rewrite <-Hf. by apply list_elem_of_fmap_2.
Qed.

(** The rules of the table are of different dimensions: their ids are
    rule ids that begin with different letters. *)
Lemma table_shape (t w r : float) :
  NoDup ((λ x, head (id x)) <$> table t w r) ∧ Forall (λ x, id x ∈ rule_ids) (table t w r).
Proof.
  unfold table. destruct (heat_or_cold t) as [->| ->];
    unfold rain_rule, wind_rule, heat_rule, cold_rule.
  - destruct (ge r 20), (ge r 8), (ge w 20), (ge w 12), (le t (-3)), (le t 2);
      split; apply (bool_decide_unpack _); by vm_compute.
  - destruct (ge r 20), (ge r 8), (ge w 20), (ge w 12), (ge t 38), (ge t 33);
      split; apply (bool_decide_unpack _); by vm_compute.
Qed.

Lemma table_NoDup (t w r : float) : NoDup (table t w r).
Proof. eapply NoDup_fmap_1, table_shape. Qed.

Lemma table_letters (t w r : float) (x y : rule) :
  x ∈ table t w r → y ∈ table t w r → x ≠ y →
  ∃ a s b s', id x = a :: s ∧ id y = b :: s' ∧ a ≠ b
              ∧ a :: s ∈ rule_ids ∧ b :: s' ∈ rule_ids.
Proof.
  intros Hx Hy Hxy. destruct (table_shape t w r) as [Hheads Hids].
  rewrite Forall_forall in Hids.
  pose proof (Hids x Hx) as Hidx. pose proof (Hids y Hy) as Hidy.
  assert ([] ∉ rule_ids) as Hnil by (apply (bool_decide_unpack _); by vm_compute).
  destruct (id x) as [|a s] eqn:Hida; [done|]. destruct (id y) as [|b s'] eqn:Hidb; [done|].
  exists a, s, b, s'. split_and!; try done. intros ->. apply Hxy.
  apply (NoDup_fmap_eq (λ x, head (id x)) (table t w r)); [done..|]. by rewrite Hida, Hidb.
Qed.

Section Collation.
Hypothesis collation : by_first_letter localeCompare.

(** Between two rules of different dimensions, the comparison decides the
    order of the ids by code units. *)
Lemma by_id_decides (l : list rule) (x y : rule) :
  (∀ x y, x ∈ l → y ∈ l → x ≠ y →
     ∃ a s b s', id x = a :: s ∧ id y = b :: s' ∧ a ≠ b
                 ∧ a :: s ∈ rule_ids ∧ b :: s' ∈ rule_ids) →
  x ∈ l → y ∈ l → x ≠ y →
  ((by_id x y ≤ 0)%Z → id_lt x y) ∧ (¬ (by_id x y ≤ 0)%Z → id_lt y x).
Proof.
  intros Hl Hx Hy Hxy. destruct (Hl x y) as (a & s & b & s' & Hida & Hidb & Hab & Ha & Hb); [done..|].
  unfold by_id, id_lt. rewrite Hida, Hidb. simpl.
  destruct (N.lt_total a b) as [Hlt|[->|Hlt]]; [|done|].
  - destruct (collation a s b s') as [Hneg Hpos]; [done..|].
    split; [|lia]. intros _. by apply N.ltb_lt in Hlt as ->.
  - destruct (collation b s' a s) as [Hneg Hpos]; [done..|].
    split; [lia|]. intros _. by apply N.ltb_lt in Hlt as ->.
Qed.

#[local] Instance id_lt_trans : Transitive id_lt.
Proof. intros a b c. apply str_ltb_trans. Qed.

Lemma sort_table_Sorted (t w r : float) (l : list rule) :
  l ≡ₚ table t w r → Sorted id_lt (Array_sort by_id l).
Proof.
  intros Hl. apply Array_sort_Sorted.
  - rewrite Hl. apply table_NoDup.
  - intros x y Hx Hy. apply (by_id_decides l); [|done..].
    intros x' y'. rewrite !Hl. apply table_letters.
Qed.

(** C6. On numbers, the rules of the decision stand in the order of the
    code units of their ids, strictly, whenever the host's collation orders
    ids of different dimensions by their first letter; and sorting any other
    arrangement of the same rules gives the same list, so the order in which
    the dimensions were evaluated does not show. *)
Theorem decideRisk_rules_sorted (t w r : float) :
  ∃ p, decideRisk localeCompare (VNum t) (VNum w) (VNum r) = Some p
       ∧ StronglySorted id_lt (rules (applied_rule p))
       ∧ ∀ l, l ≡ₚ rules (applied_rule p) →
              Array_sort (λ a b, localeCompare (id a) (id b)) l = rules (applied_rule p).
Proof.
  eexists. split; [by apply decideRisk_table|]. cbn [applied_rule rules]. split.
  - apply Sorted_StronglySorted; [apply _|]. by apply (sort_table_Sorted t w r).
  - intros l Hl. rewrite Array_sort_Permutation in Hl.
    apply (Sorted_unique_strong id_lt).
    + intros x y _ _ Hxy Hyx. unfold id_lt in *. by rewrite (str_ltb_asym _ _ Hxy) in Hyx.
    + by apply (sort_table_Sorted t w r).
    + by apply (sort_table_Sorted t w r).
    + by rewrite !Array_sort_Permutation.
Qed.

End Collation.

(** C10. When the fetched weather has no temperature ([raw?.main?.temp] is
    [undefined] or [null]), the job handler hands [tempC = null] to
    [decideRisk]; with wind and rain readings below their thresholds the
    decision is ALERT with TEMP_2C as its one rule, because [null] counts as
    0 in the comparisons: [null <= 2] holds, [null <= -3], [null >= 33] and
    [null >= 38] do not. *)
Theorem null_temperature_alerts (raw : value) (w r : float) :
  is_sql_null (opt_get (opt_get raw (js "main")) (js "temp")) = true →
  reading_windMs raw = VNum w → ge w 12 = false →
  reading_rain1hMm raw = VNum r → ge r 8 = false →
  reading_tempC raw = VNull
  ∧ decide_reading localeCompare raw
    = Some (Pack (js "ALERT")
                 (AppliedRule 1 (VNull, VNum w, VNum r)
                    [Rule (js "TEMP_2C") (js "ALERT") (js "temp_c<=2")]))
  ∧ toNumber VNull = Some 0%float
  ∧ le 0 2 = true ∧ le 0 (-3) = false ∧ ge 0 33 = false ∧ ge 0 38 = false.
Proof.
  intros Htemp Hw Hw12 Hr Hr8.
  assert (reading_tempC raw = VNull) as Ht.
  { unfold reading_tempC. by destruct (opt_get _ (js "temp")). }
  split; [done|]. split; [|done].
  unfold decide_reading. rewrite Ht, Hw, Hr.
  rewrite (decideRisk_table _ _ _ 0 w r) by done.
  assert (ge w 20 = false) as Hw20.
  { destruct (ge w 20) eqn:H20; [|done]. by rewrite (ge_weaken 20 12 w) in Hw12. }
  assert (ge r 20 = false) as Hr20.
  { destruct (ge r 20) eqn:H20; [|done]. by rewrite (ge_weaken 20 8 r) in Hr8. }
  unfold table, rain_rule, wind_rule. rewrite Hw12, Hw20, Hr8, Hr20.
  reflexivity.
Qed.

End RiskFacts.

(** C5, as stated, fails: a rainfall of 19.999 mm is below the CRITICAL
    threshold and above the ALERT one, so a rain rule is matched. *)
Lemma rain_19_999_matches_a_rule :
  Risk.matched Risk.rain_ids
    <$> Risk.decideRisk default_compare (VNum 25) (VNum 0) (VNum 19.999)
  = Some [(js "RAIN_8MM_1H", js "ALERT")]
  ∧ Risk.matched Risk.rain_ids
      <$> Risk.decideRisk default_compare (VNum 25) (VNum 0) (VNum 19.999)
    ≠ Some [].
Proof. split; [by vm_compute|]. vm_compute. discriminate. Qed.

(** ** The ledger *)

Section LedgerFacts.
Import Ledger.

Lemma last_or_snoc (prev : option LedgerEvent) (l : list LedgerEvent) (e : LedgerEvent) :
  last_or prev (l ++ [e]) = Some e.
Proof. unfold last_or. by rewrite last_snoc. Qed.

Lemma no_errors_app (l1 l2 : list audit_error) :
  no_errors (l1 ++ l2) = no_errors l1 && no_errors l2.
Proof. by destruct l1. Qed.

Lemma audit_rows_app (prev : option LedgerEvent) (l1 l2 : list LedgerEvent) :
  audit_rows prev (l1 ++ l2) = audit_rows prev l1 ++ audit_rows (last_or prev l1) l2.
Proof.
  revert prev. induction l1 as [|e l1 IH]; intros prev; [done|].
  cbn [app audit_rows]. rewrite IH, <-app_assoc. do 2 f_equal.
  unfold last_or. destruct l1 as [|e' l1]; [done|]. rewrite last_cons_cons.
  destruct (last (e' :: l1)) eqn:Hlast; [done|]. by apply last_None in Hlast.
Qed.

(** One turn of the loop adds the errors of its row and clears [ok] when
    there is one. *)
Lemma verify_row_errors (pre post : list LedgerEvent) (e : LedgerEvent)
    (st : bool * list audit_error) :
  verify_row (pre ++ e :: post) st (length pre)
  = (st.1 && no_errors (row_errors (last pre) e), st.2 ++ row_errors (last pre) e).
Proof.
  unfold verify_row, row_errors.
  rewrite list_lookup_middle by done. destruct st as [ok errs].
  generalize (hash_mismatch (String_of_Z (id e)) (event_hash e)
                (chain_hash (prev_hash e) (event_type e) (payload e))) as mismatch.
  generalize (negb (str_eqb (chain_hash (prev_hash e) (event_type e) (payload e))
                            (event_hash e))) as differs.
  intros differs mismatch.
  destruct pre as [|p pre _] using rev_ind.
  - cbn [length Nat.eqb last].
    generalize (genesis_prev_hash_not_zero (String_of_Z (id e)) (prev_hash e)) as not_zero.
    generalize (negb (str_eqb (prev_hash e) (js "0"))) as nonzero.
    intros [] ?; destruct differs; cbn [fst snd app no_errors];
      by rewrite ?andb_false_r, ?andb_true_r, ?app_nil_r, <-?app_assoc.
  - rewrite last_snoc, length_app. cbn [length].
    replace (length pre + 1 =? 0) with false by (symmetry; apply Nat.eqb_neq; lia).
    replace (length pre + 1 - 1) with (length pre) by lia.
    rewrite <-!app_assoc. cbn [app]. rewrite list_lookup_middle by done.
    generalize (prev_hash_link_broken (String_of_Z (id e)) (prev_hash e) (event_hash p))
      as broken.
    generalize (negb (str_eqb (prev_hash e) (event_hash p))) as unlinked.
    intros [] ?; destruct differs; cbn [fst snd app no_errors];
      by rewrite ?andb_false_r, ?andb_true_r, ?app_nil_r, <-?app_assoc.
Qed.

Lemma verify_loop (pre post : list LedgerEvent) (st : bool * list audit_error) :
  foldl (verify_row (pre ++ post)) st (seq (length pre) (length post))
  = (st.1 && no_errors (audit_rows (last pre) post), st.2 ++ audit_rows (last pre) post).
Proof.
  revert pre st. induction post as [|e post IH]; intros pre st.
  { destruct st. cbn. by rewrite andb_true_r, app_nil_r. }
  cbn [length seq foldl audit_rows]. rewrite verify_row_errors.
  replace (pre ++ e :: post) with ((pre ++ [e]) ++ post) by by rewrite <-app_assoc.
  replace (S (length pre)) with (length (pre ++ [e])) by (rewrite length_app; cbn; lia).
  rewrite IH. cbn [fst snd]. rewrite last_snoc.
  by rewrite no_errors_app, andb_assoc, app_assoc.
Qed.

(** The audit, row by row: [ok] says that no row has an error, [count] is
    the number of rows, whatever they hold. *)
Lemma verify_audit_rows (db : Db) :
  verify db = Audit (no_errors (audit_rows None (ledger_events db)))
                    (length (ledger_events db))
                    (audit_rows None (ledger_events db)).
Proof.
  unfold verify. pose proof (verify_loop [] (ledger_events db) (true, [])) as Hloop.
  cbn [app length last fst snd andb] in Hloop. by rewrite Hloop.
Qed.

Lemma row_errors_nil (prev : option LedgerEvent) (e : LedgerEvent) :
  row_errors prev e = [] ↔
    event_hash e = chain_hash (prev_hash e) (event_type e) (payload e)
    ∧ prev_hash e = match prev with Some p => event_hash p | None => js "0" end.
Proof.
  unfold row_errors.
  destruct (str_eqb (chain_hash _ _ _) (event_hash e)) eqn:Hh; cbn [negb app].
  - apply str_eqb_eq in Hh. destruct prev as [p|].
    + destruct (str_eqb (prev_hash e) (event_hash p)) eqn:Hp; cbn [negb].
      * apply str_eqb_eq in Hp. by split.
      * apply str_eqb_neq in Hp. split; [done|]. by intros [_ ?].
    + destruct (str_eqb (prev_hash e) (js "0")) eqn:Hp; cbn [negb].
      * apply str_eqb_eq in Hp. by split.
      * apply str_eqb_neq in Hp. split; [done|]. by intros [_ ?].
  - apply str_eqb_neq in Hh. split; [done|]. intros [? _]. by destruct Hh.
Qed.

Lemma stableStringify_genesis :
  stableStringify (envelope (js "GENESIS") genesis_payload)
  = jsq "{'event_type':'GENESIS','payload':{'note':'n29 climarisk genesis'}}".
Proof. by vm_compute. Qed.



(** What a call of [appendLedgerEvent] does to the table. *)
Lemma appendLedgerEvent_Ok (eventType : jstr) (payloadObj : value) (db db' : Db)
    (prevHash eventHash : jstr) :
  appendLedgerEvent eventType payloadObj db = (Ok (prevHash, eventHash), db') →
  ∃ row0,
    last (ledger_events db) = Some row0
    ∧ prevHash = event_hash row0
    ∧ eventHash = chain_hash prevHash eventType payloadObj
    ∧ is_sql_null payloadObj = false
    ∧ (∀ e, e ∈ ledger_events db → event_hash e ≠ eventHash)
    ∧ ledger_events db'
      = ledger_events db
          ++ [Event (ledger_events_id_seq db + 1) eventType payloadObj prevHash eventHash]
    ∧ ledger_events_id_seq db' = (ledger_events_id_seq db + 1)%Z.
Proof.
  unfold appendLedgerEvent, select_last, insert_event.
  destruct (last (ledger_events db)) as [row0|] eqn:Hlast; cbn [lookup list_lookup]; [|done].
  destruct (is_sql_null payloadObj) eqn:Hnull; [done|].
  destruct (existsb _ (ledger_events db)) eqn:Hex; [done|].
  intros [= <- <- <-]. exists row0. split_and!; try done.
  intros e He Heq. apply not_true_iff_false in Hex. apply Hex.
  apply existsb_exists. exists e. split; [by apply list_elem_of_In|]. by apply str_eqb_eq.
Qed.

Lemma appendLedgerEvent_audit (eventType : jstr) (payloadObj : value) (db db' : Db)
    (r : jstr * jstr) :
  appendLedgerEvent eventType payloadObj db = (Ok r, db') →
  audit_rows None (ledger_events db) = [] →
  audit_rows None (ledger_events db') = []
  ∧ length (ledger_events db') = S (length (ledger_events db)).
Proof.
  destruct r as [prevHash eventHash]. intros Happ Hok.
  apply appendLedgerEvent_Ok in Happ
    as (row0 & Hlast & -> & -> & _ & _ & -> & _).
  split; [|rewrite length_app; cbn; lia].
  rewrite audit_rows_app, Hok. cbn [app audit_rows]. rewrite app_nil_r.
  apply row_errors_nil. unfold last_or. by rewrite Hlast.
Qed.




Lemma alter_middle {A} (f : A → A) (l : list A) (i : nat) (x : A) :
  l !! i = Some x → alter f i l = take i l ++ f x :: drop (S i) l.
Proof.
  revert i. induction l as [|y l IH]; intros [|i]; cbn; try done.
  - by intros [= ->].
  - intros Hx. by rewrite (IH i Hx).
Qed.

Lemma no_errors_elem_of (x : audit_error) (l : list audit_error) :
  x ∈ l → no_errors l = false.
Proof. by destruct 1. Qed.



End LedgerFacts.

(** ** Values with identity: cycles *)

Section HeapFacts.






Lemma mapM_Ok_Forall2 {A B} (f : A → result B) (l : list A) (l' : list B) :
  Forall2 (λ x y, f x = Ok y) l l' → Heap.mapM f l = Ok l'.
Proof.
  induction 1 as [|x y l l' Hx _ IH]; cbn [Heap.mapM]; [done|]. by rewrite Hx, IH.
Qed.

Lemma depth_elem_of (elems : list value) (e : value) :
  e ∈ elems → Heap.depth e ≤ foldr (λ e d, Nat.max (Heap.depth e) d) 0 elems.
Proof.
  induction elems as [|e' elems IH]; [by intros ?%elem_of_nil|].
  intros [->|He]%elem_of_cons; cbn [foldr]; [lia|]. specialize (IH He). lia.
Qed.

Lemma depth_field (fields : list (jstr * value)) (kv : jstr * value) :
  kv ∈ fields → Heap.depth kv.2 ≤ foldr (λ kv d, Nat.max (Heap.depth kv.2) d) 0 fields.
Proof.
  induction fields as [|kv' fields IH]; [by intros ?%elem_of_nil|].
  intros [->|He]%elem_of_cons; cbn [foldr]; [lia|]. specialize (IH He). lia.
Qed.

(** On a tree laid out in the heap, and with frames for its depth, the
    encoder on the heap returns what the encoder on trees returns. *)
Lemma stableStringify_represents (h : Heap.heap) (v : value) :
  ∀ hv frames, Heap.represents h hv v → Heap.depth v ≤ frames →
    Heap.stableStringify frames h hv = Ok (stableStringify v).
Proof.
  induction v as [| |x|b|s|elems IH|r fields IH|fields IH|] using value_ind';
    intros hv [|frames] Hrep Hdepth; cbn [Heap.depth] in Hdepth; try lia; inv Hrep;
    cbn [Heap.stableStringify]; try done.
  - (* arrays *)
    match goal with Hl : h _ = Heap.HArray _ |- _ => rewrite Hl; clear Hl end.
    rewrite (mapM_Ok_Forall2 _ _ (stableStringify <$> elems)); [done|].
    apply Forall2_fmap_r. apply le_S_n in Hdepth.
    match goal with Hf : Forall2 (Heap.represents h) _ elems |- _ =>
      revert IH Hdepth; induction Hf as [|hx x hxs xs Hx Hxs IHl]; intros IH Hdepth end;
      [constructor|].
    apply Forall_cons in IH as [IHx IH]. cbn [foldr] in Hdepth. constructor.
    + apply IHx; [done|lia].
    + apply IHl; [done|lia].
  - (* toJSON *)
    match goal with Hl : h _ = Heap.HObject _ _ |- _ => rewrite Hl end.
    apply IH; [done|lia].
  - (* objects *)
    match goal with Hl : h _ = Heap.HObject None ?hf, Hf : Forall2 _ ?hf fields |- _ =>
      rewrite Hl; rename hf into hfields; rename Hf into Hfields end.
    rewrite stableStringify_object.
    rewrite (Forall2_keys _ _ _ Hfields).
    rewrite (mapM_Ok_Forall2 _ _
      ((λ k, JSON_stringify_string k ++ js ":" ++ stableStringify (get_value fields k))
         <$> Array_sort default_compare (Object_keys fields))); [done|].
    apply Forall2_fmap_r, Forall_Forall2_diag, Forall_forall. intros k Hk.
    rewrite Array_sort_Permutation in Hk.
    pose proof (get_field_Forall2 _ _ _ k Hfields) as Hget. unfold get_value.
    destruct (get_field hfields k) as [hw|] eqn:Hhw, (get_field fields k) as [w|] eqn:Hw;
      inv Hget; cbn [default from_option id].
    + apply get_field_Some in Hw as Hin.
      rewrite Forall_forall in IH. unfold compose. rewrite Hw, (IH _ Hin hw frames); [done|done|].
      pose proof (depth_field _ _ Hin). cbn [snd] in *. lia.
    + by apply get_field_None in Hw.
Qed.

End HeapFacts.

(** ** The projections *)

Section ProjectionFacts.
Import Projections.

Lemma applyProjections_Ok (now1 now2 : Z) (locationId : jstr) (p : Projected) (db db' : Db) :
  applyProjections now1 now2 locationId p db = (Ok (), db') →
  constraints locationId p db = Ok ()
  ∧ db' = MkDb (locations db)
               (<[locationId := MkState now1 p]> (location_state db))
               (weather_snapshots db
                  ++ [MkSnapshot (weather_snapshots_id_seq db + 1) locationId now2 p])
               (weather_snapshots_id_seq db + 1).
Proof.
  unfold applyProjections, upsert_location_state, insert_weather_snapshot.
  destruct (constraints locationId p db) as [[]|e] eqn:Hc; [|done].
  assert (constraints locationId p
            (MkDb (locations db) (<[locationId:=MkState now1 p]> (location_state db))
                  (weather_snapshots db) (weather_snapshots_id_seq db)) = Ok ()) as ->.
  { exact Hc. }
  cbn [locations location_state weather_snapshots weather_snapshots_id_seq].
  by intros [= <-].
Qed.

Lemma history_of_snoc (h : jstr) (db : Db) (s : Snapshot) (m : gmap jstr StateRow) (n : Z) :
  ledger_hash (snapshot s) = h →
  length (history_of h (MkDb (locations db) m (weather_snapshots db ++ [s]) n))
  = S (length (history_of h db)).
Proof.
  intros Hs. unfold history_of. cbn [weather_snapshots].
  rewrite filter_app, length_app, filter_cons_True by done. cbn. lia.
Qed.

(** C4 (amended). Applying the projection of one ledger event a second
    time goes through like the first and is not idempotent: each application
    appends a history row, so two of them leave two more rows with that
    [ledger_hash] than there were ([weather_snapshots] has no uniqueness
    constraint on it); the [location_state] row after the second application
    carries the same decision, rule, weather and hash as after the first,
    with [updated_at] set anew, and no other row of [location_state] is
    touched. *)
Theorem applyProjections_twice (now1 now2 now3 now4 : Z) (locationId : jstr) (p : Projected)
    (db db1 : Db) :
  applyProjections now1 now2 locationId p db = (Ok (), db1) →
  ∃ db2,
    applyProjections now3 now4 locationId p db1 = (Ok (), db2)
    ∧ length (history_of (ledger_hash p) db2) = length (history_of (ledger_hash p) db) + 2
    ∧ location_state db1 !! locationId = Some (MkState now1 p)
    ∧ location_state db2 !! locationId = Some (MkState now3 p)
    ∧ ∀ other, other ≠ locationId → location_state db2 !! other = location_state db1 !! other.
Proof.
  intros [Hc ->]%applyProjections_Ok. eexists. split.
  - unfold applyProjections, upsert_location_state, insert_weather_snapshot.
    assert (∀ m s n, constraints locationId p (MkDb (locations db) m s n) = Ok ()) as Hc'.
    { intros. exact Hc. }
    rewrite Hc'. cbn [locations location_state weather_snapshots weather_snapshots_id_seq].
    rewrite Hc'. reflexivity.
  - cbn [location_state]. split_and!.
    + pose proof (history_of_snoc (ledger_hash p)
                    (MkDb (locations db) (location_state db)
                          (weather_snapshots db
                             ++ [MkSnapshot (weather_snapshots_id_seq db + 1) locationId now2 p])
                          (weather_snapshots_id_seq db + 1))) as Hsnoc.
      cbn [locations weather_snapshots] in Hsnoc. rewrite Hsnoc by done.
      pose proof (history_of_snoc (ledger_hash p) db) as Hsnoc'.
      rewrite Hsnoc' by done. lia.
    + by rewrite lookup_insert_eq.
    + by rewrite lookup_insert_eq.
    + intros other Hother. by rewrite lookup_insert_ne.
Qed.

End ProjectionFacts.

(** ** Appends whose statements interleave *)

Section InterleavingFacts.
Import Ledger Interleaving.








End InterleavingFacts.

(** ** The properties at concrete inputs *)





(** C4 on the sample database. *)
Lemma applyProjections_twice_witness :
  ∃ db1 db2,
    Projections.applyProjections 10 11 (js "loc-1") Projections.sample_projection
      Projections.sample = (Ok (), db1)
    ∧ Projections.applyProjections 20 21 (js "loc-1") Projections.sample_projection db1
      = (Ok (), db2)
    ∧ length (Projections.history_of
                (Projections.ledger_hash Projections.sample_projection) db2) = 2.
Proof.
  eexists. 
  assert (Projections.applyProjections 10 11 (js "loc-1") Projections.sample_projection
            Projections.sample
          = (Ok (), (Projections.applyProjections 10 11 (js "loc-1")
                       Projections.sample_projection Projections.sample).2)) as H1.
  { by vm_compute. }
  destruct (applyProjections_twice 10 11 20 21 _ _ _ _ H1) as (db2 & H2 & Hlen & _).
  exists db2. split; [exact H1|]. split; [exact H2|]. exact Hlen.
Defined.

(** C4, as stated, fails: after two applications for one ledger event the
    history holds two rows with its hash, and the state row is another one
    than after the first. *)
Lemma applyProjections_twice_not_idempotent :
  let apply now1 now2 :=
    Projections.applyProjections now1 now2 (js "loc-1") Projections.sample_projection in
  let db1 := (apply 10%Z 11%Z Projections.sample).2 in
  let db2 := (apply 20%Z 21%Z db1).2 in
  (apply 10%Z 11%Z Projections.sample).1 = Ok ()
  ∧ (apply 20%Z 21%Z db1).1 = Ok ()
  ∧ length (Projections.history_of
              (Projections.ledger_hash Projections.sample_projection) db2) = 2
  ∧ Projections.location_state db1 !! js "loc-1"
    = Some (Projections.MkState 10 Projections.sample_projection)
  ∧ Projections.location_state db2 !! js "loc-1"
    = Some (Projections.MkState 20 Projections.sample_projection).
Proof. cbv zeta. split_and!; by vm_compute. Qed.

(** C6 with the comparison by code units as the host's collation. *)
Lemma default_compare_by_first_letter : Risk.by_first_letter default_compare.
Proof.
  intros x a y b _ _ Hxy. unfold default_compare. cbn [str_ltb].
  apply N.ltb_lt in Hxy as Hlt. rewrite Hlt.
  replace (y <? x)%N with false by (symmetry; apply N.ltb_ge; lia).
  split; lia.
Qed.

Lemma decideRisk_rules_sorted_witness :
  ∃ p, Risk.decideRisk default_compare (VNum (-5)) (VNum 25) (VNum 30) = Some p
       ∧ StronglySorted Risk.id_lt (Risk.rules (Risk.applied_rule p))
       ∧ ∀ l, l ≡ₚ Risk.rules (Risk.applied_rule p) →
              Array_sort (λ a b, default_compare (Risk.id a) (Risk.id b)) l
              = Risk.rules (Risk.applied_rule p).
Proof.
  exact (decideRisk_rules_sorted default_compare default_compare_by_first_letter (-5) 25 30).
Defined.

(** C7 on an object and its array of objects, listed in two orders. *)
Lemma stableStringify_deterministic_witness :
  stableStringify
    (VObj None [(js "b", VNum 2);
                (js "a", VArr [VObj None [(js "y", VNull); (js "x", VBool true)]])])
  = stableStringify
      (VObj None [(js "a", VArr [VObj None [(js "x", VBool true); (js "y", VNull)]]);
                  (js "b", VNum 2)]).
Proof.
  apply stableStringify_deterministic.
  eapply (same_object _ _ [(js "a", _); (js "b", _)]).
  - apply (bool_decide_unpack _). by vm_compute.
  - apply Permutation_swap.
  - constructor; [|constructor; [|constructor]].
    + split; [done|]. cbn [snd]. constructor. constructor; [|constructor].
      eapply (same_object _ _ [(js "x", _); (js "y", _)]).
      * apply (bool_decide_unpack _). by vm_compute.
      * apply Permutation_swap.
      * constructor; [split; [done|apply same_leaf]|].
        constructor; [split; [done|apply same_leaf]|constructor].
    + split; [done|apply same_leaf].
Defined.




(** C10 on a reading with wind and humidity and no temperature. *)
Lemma null_temperature_alerts_witness :
  let raw :=
    VObj None [(js "wind", VObj None [(js "speed", VNum 3.5)]);
               (js "main", VObj None [(js "humidity", VNum 40)])] in
  Risk.reading_tempC raw = VNull
  ∧ Risk.decide_reading default_compare raw
    = Some (Risk.Pack (js "ALERT")
              (Risk.AppliedRule 1 (VNull, VNum 3.5, VNum 0)
                 [Risk.Rule (js "TEMP_2C") (js "ALERT") (js "temp_c<=2")])).
Proof.
  cbv zeta.
  destruct (null_temperature_alerts default_compare
              (VObj None [(js "wind", VObj None [(js "speed", VNum 3.5)]);
                          (js "main", VObj None [(js "humidity", VNum 40)])])
              3.5 0) as (Ht & Hd & _); [by vm_compute..|].
  split; [exact Ht|exact Hd].
Defined.

(* ===================================================================== *)
(** * Part III: further properties of the code *)
(* ===================================================================== *)

(** ** The digest and the canonical text *)

Lemma hexdigit_lower_hex (d : N) : (d < 16)%N → is_lower_hex (hexdigit d).
Proof.
  intros Hd. unfold is_lower_hex, hexdigit. destruct (N.ltb_spec d 10); lia.
Qed.

Lemma hex_cons (b : N) (bytes : list N) :
  Sha256.hex (b :: bytes)
  = hexdigit (b / 16) :: hexdigit (b mod 16) :: Sha256.hex bytes.
Proof. done. Qed.

Lemma hex_length (bytes : list N) : length (Sha256.hex bytes) = 2 * length bytes.
Proof.
  induction bytes as [|b bytes IH]; [done|].
  rewrite hex_cons. cbn [length]. rewrite IH. lia.
Qed.

Lemma hex_lower_hex (bytes : list N) :
  Forall (λ b, (b < 256)%N) bytes → Forall is_lower_hex (Sha256.hex bytes).
Proof.
  induction 1 as [|b bytes Hb _ IH]; [constructor|].
  rewrite hex_cons. constructor; [|constructor; [|exact IH]].
  - apply hexdigit_lower_hex. apply N.Div0.div_lt_upper_bound. lia.
  - apply hexdigit_lower_hex. by apply N.mod_lt.
Qed.

Lemma mjoin_cons {A} (l : list A) (ls : list (list A)) : mjoin (l :: ls) = l ++ mjoin ls.
Proof. done. Qed.

Lemma be_bytes_length (n : nat) (x : N) : length (Sha256.be_bytes n x) = n.
Proof. induction n as [|n IH]; cbn [Sha256.be_bytes length]; [done|]. by rewrite IH. Qed.

Lemma be_bytes_bound (n : nat) (x : N) : Forall (λ b, (b < 256)%N) (Sha256.be_bytes n x).
Proof.
  induction n as [|n IH]; cbn [Sha256.be_bytes]; constructor; [|done].
  by apply N.mod_lt.
Qed.

Lemma compress_length (h block : list N) :
  length h = 8 → length (Sha256.compress h block) = 8.
Proof.
  intros Hh. unfold Sha256.compress. rewrite length_zip_with. unfold Sha256.to_list.
  cbn [length]. lia.
Qed.

Lemma blocks_length (n : nat) (h bytes : list N) :
  length h = 8 → length (Sha256.blocks n h bytes) = 8.
Proof.
  revert h bytes. induction n as [|n IH]; intros h bytes Hh; cbn [Sha256.blocks]; [done|].
  apply IH. by apply compress_length.
Qed.

Lemma digest_length (msg : list N) : length (Sha256.digest msg) = 32.
Proof.
  unfold Sha256.digest.
  assert (length Sha256.H0 = 8) as HH0 by done.
  pose proof (blocks_length (length (Sha256.pad msg) / 64) Sha256.H0 (Sha256.pad msg) HH0) as Hlen.
  revert Hlen. generalize (Sha256.blocks (length (Sha256.pad msg) / 64) Sha256.H0 (Sha256.pad msg)).
  intros h Hlen. clear HH0.
  assert (∀ l : list N, length (mjoin (Sha256.be_bytes 4 <$> l)) = 4 * length l) as Hjoin.
  { induction l as [|x l IH]; [done|].
    rewrite fmap_cons, mjoin_cons, length_app, be_bytes_length, IH. cbn [length]. lia. }
  rewrite Hjoin. lia.
Qed.

Lemma digest_bound (msg : list N) : Forall (λ b, (b < 256)%N) (Sha256.digest msg).
Proof.
  unfold Sha256.digest. generalize (Sha256.blocks (length (Sha256.pad msg) / 64) Sha256.H0 (Sha256.pad msg)).
  intros h. induction h as [|x h IH]; [constructor|].
  rewrite fmap_cons, mjoin_cons. apply Forall_app. split; [apply be_bytes_bound|exact IH].
Qed.

(** X1. Whatever the text, [sha256Hex] returns 64 lower-case hexadecimal
    digits. *)
Theorem sha256Hex_format (s : jstr) :
  length (sha256Hex s) = 64 ∧ Forall is_lower_hex (sha256Hex s).
Proof.
  unfold sha256Hex. split.
  - by rewrite hex_length, digest_length.
  - apply hex_lower_hex, digest_bound.
Qed.

Lemma decimal_digits (n : N) : Forall (λ c, (48 ≤ c ≤ 57)%N) (decimal n).
Proof.
  unfold decimal.
  assert (∀ fuel n acc, Forall (λ c, (48 ≤ c ≤ 57)%N) acc →
            Forall (λ c, (48 ≤ c ≤ 57)%N) (digits_fuel fuel n acc)) as Hfuel.
  { induction fuel as [|fuel IH]; intros m acc Hacc; cbn [digits_fuel]; [done|].
    assert (Forall (λ c, (48 ≤ c ≤ 57)%N) ((48 + m `mod` 10)%N :: acc)) as Hacc'.
    { constructor; [|done]. assert (m `mod` 10 < 10)%N as H by by apply N.mod_lt. cbv beta.
      revert H. generalize (m `mod` 10)%N. intros d Hd. lia. }
    destruct (m <? 10)%N; [done|]. by apply IH. }
  by apply Hfuel.
Qed.

Lemma Forall_no_control_impl (s : jstr) :
  Forall (λ c, (48 ≤ c ≤ 57)%N) s → Forall no_control s.
Proof. intros H. eapply Forall_impl; [done|]. unfold no_control. intros c ?. lia. Qed.

Lemma js_no_control (s : string) :
  forallb (λ c, (32 <=? c)%N) (js s) = true → Forall no_control (js s).
Proof.
  intros H. apply Forall_forall. intros c Hc.
  rewrite forallb_forall in H. apply list_elem_of_In in Hc. apply H in Hc.
  by apply N.leb_le in Hc.
Qed.

Lemma hex4_no_control (c : N) : Forall no_control (hex4 c).
Proof.
  assert (∀ d, no_control (hexdigit d)) as Hd.
  { intros d. unfold no_control, hexdigit. destruct (d <? 10)%N; lia. }
  unfold hex4. repeat (apply Forall_cons; split; [apply Hd|]). constructor.
Qed.

Lemma quote_body_no_control (s : jstr) : Forall no_control (quote_body s).
Proof.
  induction s as [s IH] using (induction_ltof1 _ length). unfold ltof in IH.
  destruct s as [|c rest]; [constructor|]. cbn [quote_body].
  assert (Forall no_control (quote_body rest)) as Hrest by (apply IH; cbn; lia).
  assert (∀ t, forallb (λ c, (32 <=? c)%N) (js t) = true →
            Forall no_control (js t ++ quote_body rest)) as Hesc.
  { intros t Ht. apply Forall_app. split; [by apply js_no_control|done]. }
  repeat match goal with
         | |- Forall _ (if (?a =? ?b)%N then _ else _) => destruct (a =? b)%N; [by apply Hesc|]
         end.
  destruct (c =? 34)%N; [by repeat (apply Forall_cons; split; [unfold no_control; lia|])|].
  destruct (c =? 92)%N; [by repeat (apply Forall_cons; split; [unfold no_control; lia|])|].
  destruct (N.ltb_spec c 32).
  { apply Forall_app. split; [by apply js_no_control|].
    apply Forall_app. split; [apply hex4_no_control|done]. }
  assert (Forall no_control (js "\u" ++ hex4 c ++ quote_body rest)) as Hu.
  { apply Forall_app. split; [by apply js_no_control|].
    apply Forall_app. split; [apply hex4_no_control|done]. }
  destruct (is_high_surrogate c) eqn:Hhigh.
  - destruct rest as [|d rest']; [|destruct (is_low_surrogate d) eqn:Hlow]; [| |done].
    + apply Forall_app. split; [by apply js_no_control|apply hex4_no_control].
    + constructor; [done|]. constructor.
      * unfold is_low_surrogate in Hlow. apply andb_true_iff in Hlow as [Hl _].
        apply N.leb_le in Hl. unfold no_control. lia.
      * apply IH. cbn. lia.
  - destruct (is_low_surrogate c); [done|]. by constructor.
Qed.

Lemma join_no_control (sep : jstr) (l : list jstr) :
  Forall no_control sep → Forall (Forall no_control) l → Forall no_control (join sep l).
Proof.
  intros Hsep. induction 1 as [|x l Hx Hl IH]; [constructor|].
  cbn [join]. destruct l as [|y l]; [done|].
  apply Forall_app. split; [done|]. apply Forall_app. by split.
Qed.

Lemma JSON_stringify_string_no_control (s : jstr) : Forall no_control (JSON_stringify_string s).
Proof.
  assert (Forall no_control [34%N]) as Hq.
  { apply Forall_cons. split; [unfold no_control; lia|constructor]. }
  unfold JSON_stringify_string. apply Forall_app. split; [done|].
  apply Forall_app. split; [apply quote_body_no_control|done].
Qed.

Lemma layout_no_control (s k n : Z) : Forall no_control (NumberToString.layout s k n).
Proof.
  unfold NumberToString.layout, NumberToString.zeros.
  pose proof (Forall_no_control_impl _ (decimal_digits (Z.to_N s))) as Hds.
  assert (∀ m, Forall no_control (replicate m 48%N)) as Hzeros.
  { intros m. apply Forall_replicate. unfold no_control. lia. }
  assert (∀ e, Forall no_control
            (js "e" ++ (if (e <? 0)%Z then js "-" else js "+") ++ decimal (Z.to_N (Z.abs e)))) as Hexp.
  { intros e. apply Forall_app. split; [by apply js_no_control|]. apply Forall_app. split.
    - destruct (e <? 0)%Z; by apply js_no_control.
    - apply Forall_no_control_impl, decimal_digits. }
  cbv zeta.
  repeat first [ match goal with |- Forall _ (if ?b then _ else _) => destruct b end
               | apply Forall_app; split ];
    first [ done | by apply Forall_take | by apply Forall_drop | by apply js_no_control
          | apply Forall_no_control_impl, decimal_digits ].
Qed.

Lemma toString_no_control (x : float) : Forall no_control (NumberToString.toString x).
Proof.
  unfold NumberToString.toString.
  destruct (Prim2SF x) as [s|s| |s m e].
  - by apply js_no_control.
  - apply Forall_app. split; [destruct s; [by apply js_no_control|constructor]|by apply js_no_control].
  - by apply js_no_control.
  - apply Forall_app. split; [destruct s; [by apply js_no_control|constructor]|].
    unfold NumberToString.positive_finite.
    destruct (NumberToString.shortest _ _ _ _) as [d k].
    destruct (d =? 10 ^ k)%Z; apply layout_no_control.
Qed.

(** X2. The canonical text of a value holds no control character, and so
    no line feed: in the text that is hashed, [prevHash + "\n" + canonical],
    the first line feed is the separator, and two hash inputs are equal only
    if their hashes before and their canonical texts are. *)
Theorem stableStringify_no_control (v : value) :
  Forall no_control (stableStringify v)
  ∧ ∀ (prev1 prev2 : jstr) (w : value),
      Forall is_lower_hex prev1 → Forall is_lower_hex prev2 →
      prev1 ++ [10%N] ++ stableStringify v = prev2 ++ [10%N] ++ stableStringify w →
      prev1 = prev2 ∧ stableStringify v = stableStringify w.
Proof.
  assert (∀ v, Forall no_control (stableStringify v)) as Hall.
  { clear v. induction v as [| |x|b|s|elems IH|r fields IH|fields IH|] using value_ind'.
    - by apply js_no_control.
    - by apply js_no_control.
    - cbn [stableStringify]. destruct (Number_isFinite x);
        [apply toString_no_control|by apply js_no_control].
    - destruct b; by apply js_no_control.
    - apply JSON_stringify_string_no_control.
    - cbn [stableStringify]. apply Forall_app. split; [by apply js_no_control|].
      apply Forall_app. split; [|by apply js_no_control].
      apply join_no_control; [by apply js_no_control|]. by apply Forall_fmap.
    - done.
    - rewrite stableStringify_object. apply Forall_app. split; [by apply js_no_control|].
      apply Forall_app. split; [|by apply js_no_control].
      apply join_no_control; [by apply js_no_control|].
      apply Forall_fmap, Forall_forall. intros k _. cbv beta.
      apply Forall_app. split; [apply JSON_stringify_string_no_control|].
      apply Forall_app. split; [by apply js_no_control|].
      unfold get_value. destruct (get_field fields k) as [w|] eqn:Hk; cbn [default from_option id].
      + apply get_field_Some in Hk. rewrite Forall_forall in IH. apply (IH _ Hk).
      + by apply js_no_control.
    - by apply js_no_control. }
  split; [apply Hall|]. intros prev1 prev2 w H1 H2.
  generalize (Hall v) (Hall w). generalize (stableStringify v) (stableStringify w).
  intros c1 c2 Hc1 Hc2. clear Hall. revert prev2 H2.
  induction H1 as [|a prev1 Ha H1 IH]; intros [|b prev2] H2 Heq; cbn in Heq.
  - by injection Heq as ->.
  - injection Heq as <- Heq. apply Forall_cons in H2 as [Hb _].
    unfold is_lower_hex in Hb. lia.
  - injection Heq as -> Heq. unfold is_lower_hex in Ha. lia.
  - injection Heq as -> Heq. apply Forall_cons in H2 as [_ H2].
    destruct (IH prev2 H2 Heq) as [-> ->]. done.
Qed.

(** ** More on the ledger and its audit *)

Section LedgerMore.
Import Ledger.

Lemma audit_rows_intact (prev : option LedgerEvent) (rows : list LedgerEvent) :
  audit_rows prev rows = [] ↔
  ∀ i e, rows !! i = Some e →
    event_hash e = chain_hash (prev_hash e) (event_type e) (payload e)
    ∧ match i with
      | O => prev_hash e = match prev with Some p => event_hash p | None => js "0" end
      | S j => ∃ p, rows !! j = Some p ∧ prev_hash e = event_hash p
      end.
Proof.
  revert prev. induction rows as [|r rows IH]; intros prev.
  { split; [|done]. intros _ i e. by rewrite lookup_nil. }
  cbn [audit_rows]. rewrite app_nil, row_errors_nil, IH. split.
  - intros [[Hhash Hprev] Hrows] [|i] e Hi.
    + injection Hi as <-. done.
    + destruct (Hrows i e Hi) as [Hh Hp]. split; [done|].
      destruct i as [|i]; [by exists r|done].
  - intros Hall. split; [apply (Hall 0 r eq_refl)|].
    intros i e Hi. destruct (Hall (S i) e Hi) as [Hh Hp]. split; [done|].
    destruct i as [|i]; [|done]. destruct Hp as (p & [= <-] & Hp). done.
Qed.

Lemma row_errors_length (prev : option LedgerEvent) (e : LedgerEvent) :
  length (row_errors prev e) ≤ 2.
Proof.
  unfold row_errors. rewrite length_app.
  destruct (negb (str_eqb (chain_hash _ _ _) _)); destruct prev as [p|];
    match goal with |- context [negb (str_eqb ?a ?b)] => destruct (negb (str_eqb a b)) end;
    cbn [length]; lia.
Qed.

Lemma audit_rows_length (prev : option LedgerEvent) (rows : list LedgerEvent) :
  length (audit_rows prev rows) ≤ 2 * length rows.
Proof.
  revert prev. induction rows as [|r rows IH]; intros prev; cbn [audit_rows length]; [lia|].
  rewrite length_app. pose proof (row_errors_length prev r). specialize (IH (Some r)). lia.
Qed.

Lemma no_errors_true (l : list audit_error) : no_errors l = true ↔ l = [].
Proof. by destruct l. Qed.

Lemma verify_intact (db : Db) : ok (verify db) = true ↔ intact (ledger_events db).
Proof.
  rewrite verify_audit_rows. cbn [ok]. rewrite no_errors_true. apply audit_rows_intact.
Qed.

(** X3. The audit answers [ok = true] exactly on a ledger in which every
    row carries the hash of its own content, the first row names the
    sentinel "0" and every later row names the hash of the row before it;
    [ok] is true exactly when [errors] is empty; [count] is the number of
    rows, and no row gives more than two errors. *)
Theorem verify_sound_complete (db : Db) :
  (ok (verify db) = true ↔ intact (ledger_events db))
  ∧ (ok (verify db) = true ↔ errors (verify db) = [])
  ∧ count (verify db) = length (ledger_events db)
  ∧ length (errors (verify db)) ≤ 2 * length (ledger_events db).
Proof.
  split; [apply verify_intact|].
  rewrite verify_audit_rows. cbn [ok count errors]. split_and!.
  - apply no_errors_true.
  - done.
  - apply audit_rows_length.
Qed.

Lemma chain_hash_format (prevHash eventType : jstr) (payloadObj : value) :
  length (chain_hash prevHash eventType payloadObj) = 64
  ∧ Forall is_lower_hex (chain_hash prevHash eventType payloadObj).
Proof.
  unfold chain_hash, sha256Hex. split.
  - by rewrite hex_length, digest_length.
  - apply hex_lower_hex, digest_bound.
Qed.

Lemma chain_hash_not_sentinel (prevHash eventType : jstr) (payloadObj : value) :
  chain_hash prevHash eventType payloadObj ≠ js "0".
Proof.
  intros Heq. pose proof (chain_hash_format prevHash eventType payloadObj) as [Hlen _].
  by rewrite Heq in Hlen.
Qed.

(** X4. In a ledger the audit accepts, the sentinel "0" marks the first
    row and no other: every other row names a [prev_hash] of 64 hexadecimal
    digits. *)
Theorem sentinel_marks_genesis_only (db : Db) (i : nat) (e : LedgerEvent) :
  ok (verify db) = true → ledger_events db !! i = Some e →
  (prev_hash e = js "0" ↔ i = 0)
  ∧ (i ≠ 0 → length (prev_hash e) = 64 ∧ Forall is_lower_hex (prev_hash e)).
Proof.
  intros Hok' Hi. pose proof (proj1 (verify_intact db) Hok') as Hok.
  destruct (Hok i e Hi) as [_ Hprev]. destruct i as [|j].
  { split; [done|]. by intros []. }
  destruct Hprev as (p & Hp & Hprev). destruct (Hok j p Hp) as [Hhash _].
  rewrite Hprev, Hhash. split.
  - split; [|done]. intros Heq. by apply chain_hash_not_sentinel in Heq.
  - intros _. apply chain_hash_format.
Qed.

(** X5. The genesis block writes its row once: on a table that has a row
    it changes nothing, so running it again adds no second GENESIS row; on
    an empty table it leaves one row, of type GENESIS with [prev_hash] "0",
    that the audit accepts. *)
Theorem genesis_once (db : Db) :
  genesis (genesis db) = genesis db
  ∧ (ledger_events db ≠ [] → genesis db = db)
  ∧ (ledger_events db = [] →
     ledger_events (genesis db)
     = [Event (ledger_events_id_seq db + 1) (js "GENESIS") genesis_payload (js "0")
              (sha256Hex genesis_text)]
     ∧ verify (genesis db) = Audit true 1 []).
Proof.
  assert (ledger_events db = [] →
          ledger_events (genesis db)
          = [Event (ledger_events_id_seq db + 1) (js "GENESIS") genesis_payload (js "0")
                   (sha256Hex genesis_text)]) as Hempty.
  { intros Hnil. unfold genesis, insert_event. by rewrite Hnil. }
  assert (∀ d, ledger_events d ≠ [] → genesis d = d) as Hfull.
  { intros d Hne. unfold genesis. by destruct (ledger_events d). }
  split_and!.
  - apply Hfull. destruct (ledger_events db) as [|r rows] eqn:Hrows.
    + by rewrite Hempty.
    + rewrite Hfull; by rewrite Hrows.
  - apply Hfull.
  - intros Hnil. split; [by apply Hempty|].
    rewrite verify_audit_rows, (Hempty Hnil). cbn [audit_rows length].
    assert (row_errors None (Event (ledger_events_id_seq db + 1) (js "GENESIS") genesis_payload
                               (js "0") (sha256Hex genesis_text)) = []) as ->.
    { apply row_errors_nil. cbn [event_hash prev_hash event_type payload]. split; [|done].
      unfold chain_hash, genesis_text. by rewrite stableStringify_genesis. }
    done.
Qed.

(** X6. In a ledger the audit accepts, set the stored [prev_hash] of a row
    to another value: the audit answers [ok = false] and still counts every
    row; for the first row it reports [genesis_prev_hash_not_zero], for a
    later row [prev_hash_link_broken] with the hash of the row before. *)
Theorem verify_detects_rewiring (db : Db) (i : nat) (e : LedgerEvent) (h : jstr) :
  ok (verify db) = true → ledger_events db !! i = Some e → h ≠ prev_hash e →
  let a := verify (rewire i h db) in
  ok a = false
  ∧ count a = length (ledger_events db)
  ∧ match i with
    | O => genesis_prev_hash_not_zero (String_of_Z (id e)) h ∈ errors a
    | S j => ∃ p, ledger_events db !! j = Some p
                  ∧ prev_hash_link_broken (String_of_Z (id e)) h (event_hash p) ∈ errors a
    end.
Proof.
  intros Hok Hi Hne. cbv zeta.
  pose proof (proj1 (verify_intact db) Hok i e Hi) as [_ Hprev].
  rewrite verify_audit_rows. cbn [ok count errors]. unfold rewire. cbn [ledger_events].
  rewrite (alter_middle _ _ _ _ Hi), length_app. cbn [length].
  set (e' := Event (id e) (event_type e) (payload e) h (event_hash e)).
  set (pre := take i (ledger_events db)). set (post := drop (S i) (ledger_events db)).
  assert (length pre + S (length post) = length (ledger_events db)) as Hlen.
  { unfold pre, post. rewrite length_take, length_drop. apply lookup_lt_Some in Hi. lia. }
  assert (∀ x, x ∈ row_errors (last_or None pre) e' →
               no_errors (audit_rows None (pre ++ e' :: post)) = false
               ∧ x ∈ audit_rows None (pre ++ e' :: post)) as Hin.
  { intros x Hx.
    assert (x ∈ audit_rows None (pre ++ e' :: post)) as Hx'.
    { rewrite audit_rows_app. cbn [audit_rows]. rewrite !elem_of_app. auto. }
    split; [by apply (no_errors_elem_of x)|done]. }
  destruct i as [|j].
  - assert (pre = []) as Hpre by done. 
    destruct (Hin (genesis_prev_hash_not_zero (String_of_Z (id e)) h)) as [Hno Hx].
    { rewrite Hpre. unfold row_errors, last_or. cbn [last prev_hash id e'].
      apply elem_of_app. right.
      assert (str_eqb h (js "0") = false) as -> by (apply str_eqb_neq; congruence).
      by left. }
    by split_and!.
  - destruct Hprev as (p & Hp & Hprev). 
    assert (last pre = Some p) as Hlast.
    { unfold pre. rewrite last_lookup, length_take.
      apply lookup_lt_Some in Hi as Hlt.
      replace (pred (S j `min` length (ledger_events db))) with j by lia.
      rewrite lookup_take_lt by lia. done. }
    destruct (Hin (prev_hash_link_broken (String_of_Z (id e)) h (event_hash p))) as [Hno Hx].
    { unfold row_errors, last_or. rewrite Hlast. cbn [prev_hash id e'].
      apply elem_of_app. right.
      assert (str_eqb h (event_hash p) = false) as -> by (apply str_eqb_neq; congruence).
      by left. }
    split_and!; [done..|]. by exists p.
Qed.

(** X7. The audit does not notice that the newest rows are gone: a ledger
    it accepts is accepted after its last rows were cut off, whatever their
    number, with [count] the number of rows left. *)
Theorem verify_accepts_truncation (db : Db) (n : nat) :
  ok (verify db) = true →
  verify (truncate n db) = Audit true (n `min` length (ledger_events db)) [].
Proof.
  rewrite !verify_audit_rows. cbn [ok]. intros Hok%no_errors_true.
  unfold truncate. cbn [ledger_events].
  rewrite <-(take_drop n (ledger_events db)) in Hok. rewrite audit_rows_app in Hok.
  apply app_eq_nil in Hok as [-> _]. by rewrite length_take.
Qed.

(** X8. In a ledger the audit accepts and in which no [event_hash] stands
    twice (the column is UNIQUE), remove a row that has a row after it: the
    audit answers [ok = false].  The row that followed now stands first and
    does not name the sentinel, or names a hash that is not that of the row
    before it. *)
Theorem verify_detects_deletion (db : Db) (i : nat) (next : LedgerEvent) :
  ok (verify db) = true →
  NoDup (event_hash <$> ledger_events db) →
  ledger_events db !! S i = Some next →
  let a := verify (delete_row i db) in
  ok a = false
  ∧ count a = length (ledger_events db) - 1
  ∧ match i with
    | O => genesis_prev_hash_not_zero (String_of_Z (id next)) (prev_hash next) ∈ errors a
    | S j => ∃ p, ledger_events db !! j = Some p
                  ∧ prev_hash_link_broken (String_of_Z (id next)) (prev_hash next)
                      (event_hash p) ∈ errors a
    end.
Proof.
  intros Hok Hnd Hnext. cbv zeta.
  pose proof (proj1 (verify_intact db) Hok) as Hintact.
  destruct (Hintact (S i) next Hnext) as [_ (e & He & Hprev)].
  destruct (Hintact i e He) as [Hhash He_prev].
  rewrite verify_audit_rows. cbn [ok count errors]. unfold delete_row. cbn [ledger_events].
  assert (ledger_events db = take i (ledger_events db) ++ e :: next :: drop (S (S i)) (ledger_events db))
    as Hsplit.
  { rewrite <-(take_drop_middle _ _ _ He) at 1. do 2 f_equal. by apply drop_S. }
  set (pre := take i (ledger_events db)) in *.
  set (post := drop (S (S i)) (ledger_events db)) in *.
  assert (length pre = i) as Hpre_len.
  { unfold pre. rewrite length_take. apply lookup_lt_Some in He. lia. }
  assert (delete i (ledger_events db) = pre ++ next :: post) as ->.
  { rewrite Hsplit at 1. rewrite <-Hpre_len at 1.
    rewrite delete_middle. done. }
  assert (length (pre ++ next :: post) = length (ledger_events db) - 1) as ->.
  { rewrite Hsplit. rewrite !length_app. cbn [length]. lia. }
  assert (∀ x, x ∈ row_errors (last_or None pre) next →
               no_errors (audit_rows None (pre ++ next :: post)) = false
               ∧ x ∈ audit_rows None (pre ++ next :: post)) as Hin.
  { intros x Hx.
    assert (x ∈ audit_rows None (pre ++ next :: post)) as Hx'.
    { rewrite audit_rows_app. cbn [audit_rows]. rewrite !elem_of_app. auto. }
    split; [by apply (no_errors_elem_of x)|done]. }
  destruct i as [|j].
  - assert (pre = []) as Hpre by done.
    destruct (Hin (genesis_prev_hash_not_zero (String_of_Z (id next)) (prev_hash next)))
      as [Hno Hx].
    { rewrite Hpre. unfold row_errors, last_or. cbn [last].
      apply elem_of_app. right.
      assert (str_eqb (prev_hash next) (js "0") = false) as ->.
      { apply str_eqb_neq. rewrite Hprev, Hhash. apply chain_hash_not_sentinel. }
      by left. }
    by split_and!.
  - destruct He_prev as (p & Hp & He_prev).
    assert (last pre = Some p) as Hlast.
    { unfold pre. rewrite last_lookup, length_take.
      apply lookup_lt_Some in He as Hlt.
      replace (pred (S j `min` length (ledger_events db))) with j by lia.
      rewrite lookup_take_lt by lia. done. }
    destruct (Hin (prev_hash_link_broken (String_of_Z (id next)) (prev_hash next) (event_hash p)))
      as [Hno Hx].
    { unfold row_errors, last_or. rewrite Hlast.
      apply elem_of_app. right.
      assert (str_eqb (prev_hash next) (event_hash p) = false) as ->.
      { apply str_eqb_neq. rewrite Hprev. intros Heq.
        assert (S j = j) as Habs; [|lia].
        apply (NoDup_lookup (event_hash <$> ledger_events db) _ _ (event_hash e)); [done|..].
        - by rewrite list_lookup_fmap, He.
        - by rewrite list_lookup_fmap, Hp, Heq. }
      by left. }
    split_and!; [done..|]. by exists p.
Qed.

Lemma insert_event_well_formed (eventType : jstr) (payloadObj : value)
    (prevHash eventHash : jstr) (db : Db) :
  well_formed db → well_formed (insert_event eventType payloadObj prevHash eventHash db).2.
Proof.
  intros (Hsorted & Hseq & Hnd). unfold insert_event.
  assert (Forall (λ e, (id e ≤ ledger_events_id_seq db + 1)%Z) (ledger_events db)) as Hseq'.
  { eapply Forall_impl; [exact Hseq|]. intros e ?. cbv beta in *. lia. }
  destruct (is_sql_null payloadObj); [by split_and!|].
  destruct (existsb _ (ledger_events db)) eqn:Hex; [by split_and!|].
  cbn [snd]. unfold well_formed. cbn [ledger_events ledger_events_id_seq]. split_and!.
  - rewrite fmap_app. apply StronglySorted_app. split_and!; [|done|repeat constructor].
    intros x y Hx Hy. cbn in Hy. apply list_elem_of_singleton in Hy as ->. cbn [id].
    apply list_elem_of_fmap in Hx as (e & -> & He). rewrite Forall_forall in Hseq.
    specialize (Hseq e He). cbv beta in Hseq. lia.
  - apply Forall_app. split; [done|]. constructor; [cbn; lia|constructor].
  - rewrite fmap_app. apply NoDup_app. split_and!; [done| |apply NoDup_singleton].
    intros h Hh Hh'. cbn in Hh'. apply list_elem_of_singleton in Hh' as ->. cbn [event_hash] in Hh.
    apply list_elem_of_fmap in Hh as (e & Heq & He).
    apply not_true_iff_false in Hex. apply Hex, existsb_exists. exists e.
    split; [by apply list_elem_of_In|]. by apply str_eqb_eq.
Qed.

Lemma insert_event_prefix (eventType : jstr) (payloadObj : value)
    (prevHash eventHash : jstr) (db : Db) :
  ledger_events db `prefix_of`
    ledger_events (insert_event eventType payloadObj prevHash eventHash db).2.
Proof.
  unfold insert_event. destruct (is_sql_null payloadObj); [done|].
  destruct (existsb _ (ledger_events db)); [done|]. cbn. by apply prefix_app_r.
Qed.

(** X9. The program only ever adds to the ledger, and keeps the table as it
    is declared: after the genesis block and after an append, whether it
    succeeds or fails, the rows that were there are there unchanged, in
    front of at most one new row; ids stay ascending and within what the
    sequence handed out, and no [event_hash] stands twice. *)
Theorem ledger_append_only (eventType : jstr) (payloadObj : value) (db : Db) :
  well_formed db →
  let after_genesis := genesis db in
  let after_append := (appendLedgerEvent eventType payloadObj db).2 in
  well_formed after_genesis ∧ well_formed after_append
  ∧ ledger_events db `prefix_of` ledger_events after_genesis
  ∧ ledger_events db `prefix_of` ledger_events after_append
  ∧ length (ledger_events after_append) ≤ S (length (ledger_events db)).
Proof.
  intros Hwf. cbv zeta.
  assert (∀ ty p prev h, length (ledger_events (insert_event ty p prev h db).2)
                         ≤ S (length (ledger_events db))) as Hlen.
  { intros. unfold insert_event. destruct (is_sql_null p); [cbn; lia|].
    destruct (existsb _ _); cbn; [lia|]. rewrite length_app. cbn. lia. }
  assert (∀ ty p, (appendLedgerEvent ty p db).2 = db
                  ∨ ∃ prev h, (appendLedgerEvent ty p db).2 = (insert_event ty p prev h db).2)
    as Happ.
  { intros ty p. unfold appendLedgerEvent. destruct (select_last db !! 0) as [row0|]; [|by left].
    right. exists (event_hash row0), (chain_hash (event_hash row0) ty p).
    by destruct (insert_event ty p _ _ db) as [[[]|] ?]. }
  split_and!.
  - unfold genesis. destruct (ledger_events db); [|done]. by apply insert_event_well_formed.
  - destruct (Happ eventType payloadObj) as [->|(prev & h & ->)]; [done|].
    by apply insert_event_well_formed.
  - unfold genesis. destruct (ledger_events db) eqn:Hrows; [|by rewrite Hrows].
    apply prefix_nil.
  - destruct (Happ eventType payloadObj) as [->|(prev & h & ->)]; [done|].
    apply insert_event_prefix.
  - destruct (Happ eventType payloadObj) as [->|(prev & h & ->)]; [lia|]. apply Hlen.
Qed.

End LedgerMore.

Lemma sentinel_marks_genesis_only_witness :
  Ledger.ok (Ledger.verify Ledger.sample) = true
  ∧ ∃ e, Ledger.ledger_events Ledger.sample !! 1 = Some e
         ∧ Ledger.prev_hash e ≠ js "0" ∧ length (Ledger.prev_hash e) = 64.
Proof.
  assert (Ledger.ok (Ledger.verify Ledger.sample) = true) as Hsample by (vm_compute; reflexivity).
  assert (∃ e, Ledger.ledger_events Ledger.sample !! 1 = Some e) as [e He].
  { eexists. vm_compute. reflexivity. }
  destruct (sentinel_marks_genesis_only Ledger.sample 1 e Hsample He) as [Hiff Hformat].
  split; [exact Hsample|]. exists e. split; [exact He|]. split.
  - intros Hzero. apply Hiff in Hzero. discriminate.
  - apply Hformat. discriminate.
Defined.

Lemma verify_detects_rewiring_witness :
  Ledger.ok (Ledger.verify Ledger.sample) = true
  ∧ Ledger.ok (Ledger.verify (Ledger.rewire 1 (js "0") Ledger.sample)) = false
  ∧ Ledger.count (Ledger.verify (Ledger.rewire 1 (js "0") Ledger.sample)) = 3.
Proof.
  assert (Ledger.ok (Ledger.verify Ledger.sample) = true) as Hsample by (vm_compute; reflexivity).
  assert (∃ e, Ledger.ledger_events Ledger.sample !! 1 = Some e ∧ js "0" ≠ Ledger.prev_hash e)
    as (e & He & Hne).
  { eexists. split; [vm_compute; reflexivity|]. vm_compute. discriminate. }
  destruct (verify_detects_rewiring Ledger.sample 1 e (js "0") Hsample He Hne)
    as (Hok & Hcount & _).
  split; [exact Hsample|]. split; [exact Hok|]. etrans; [exact Hcount|]. vm_compute. reflexivity.
Defined.

Lemma verify_accepts_truncation_witness :
  Ledger.ok (Ledger.verify Ledger.sample) = true
  ∧ Ledger.verify (Ledger.truncate 1 Ledger.sample) = Ledger.Audit true 1 [].
Proof.
  assert (Ledger.ok (Ledger.verify Ledger.sample) = true) as Hsample by (vm_compute; reflexivity).
  split; [exact Hsample|].
  etrans; [exact (verify_accepts_truncation Ledger.sample 1 Hsample)|]. vm_compute. reflexivity.
Defined.

Lemma verify_detects_deletion_witness :
  Ledger.ok (Ledger.verify Ledger.sample) = true
  ∧ NoDup (Ledger.event_hash <$> Ledger.ledger_events Ledger.sample)
  ∧ Ledger.ok (Ledger.verify (Ledger.delete_row 1 Ledger.sample)) = false
  ∧ Ledger.count (Ledger.verify (Ledger.delete_row 1 Ledger.sample)) = 2.
Proof.
  assert (Ledger.ok (Ledger.verify Ledger.sample) = true) as Hsample by (vm_compute; reflexivity).
  assert (NoDup (Ledger.event_hash <$> Ledger.ledger_events Ledger.sample)) as Hnd.
  { apply (bool_decide_unpack _). vm_compute. reflexivity. }
  assert (∃ e, Ledger.ledger_events Ledger.sample !! 2 = Some e) as [e He].
  { eexists. vm_compute. reflexivity. }
  destruct (verify_detects_deletion Ledger.sample 1 e Hsample Hnd He) as (Hok & Hcount & _).
  split; [exact Hsample|]. split; [exact Hnd|]. split; [exact Hok|].
  etrans; [exact Hcount|]. vm_compute. reflexivity.
Defined.

Lemma ledger_append_only_witness :
  Ledger.well_formed Ledger.sample
  ∧ Ledger.well_formed
      (Ledger.appendLedgerEvent (js "CMD_LOCATION_REFRESH")
         (VObj None [(js "locationId", VStr (js "loc-2"))]) Ledger.sample).2
  ∧ Ledger.ledger_events Ledger.sample `prefix_of`
      Ledger.ledger_events
        (Ledger.appendLedgerEvent (js "CMD_LOCATION_REFRESH")
           (VObj None [(js "locationId", VStr (js "loc-2"))]) Ledger.sample).2.
Proof.
  assert (Ledger.well_formed Ledger.sample) as Hwf.
  { unfold Ledger.well_formed. split_and!; apply (bool_decide_unpack _); vm_compute; reflexivity. }
  destruct (ledger_append_only (js "CMD_LOCATION_REFRESH")
              (VObj None [(js "locationId", VStr (js "loc-2"))]) Ledger.sample Hwf)
    as (_ & Hafter & _ & Hprefix & _).
  split; [exact Hwf|]. split; [exact Hafter|exact Hprefix].
Defined.

(** ** More on the decision rules *)

Section RiskMore.
Import Risk.
Variable localeCompare : jstr → jstr → Z.

Lemma decideRisk_Some (tempC windMs rain1hMm : value) (p : pack) :
  decideRisk localeCompare tempC windMs rain1hMm = Some p →
  ∃ t w r, toNumber tempC = Some t ∧ toNumber windMs = Some w ∧ toNumber rain1hMm = Some r.
Proof.
  unfold decideRisk.
  destruct (toNumber tempC) as [t|]; [|done]. destruct (toNumber windMs) as [w|]; [|done].
  destruct (toNumber rain1hMm) as [r|]; [|done]. intros _. by exists t, w, r.
Qed.

Lemma heat_rule_length (t : float) : length (heat_rule t) ≤ 1.
Proof. unfold heat_rule. destruct (ge t 38), (ge t 33); simpl; lia. Qed.

Lemma cold_rule_length (t : float) : length (cold_rule t) ≤ 1.
Proof. unfold cold_rule. destruct (le t (-3)), (le t 2); simpl; lia. Qed.

Lemma temp_rule_length (t : float) : length (heat_rule t ++ cold_rule t) ≤ 1.
Proof.
  rewrite length_app. pose proof (heat_rule_length t). pose proof (cold_rule_length t).
  destruct (heat_or_cold t) as [->| ->]; cbn [length]; lia.
Qed.

Lemma table_rules (t w r : float) :
  Forall (λ x, id x ∈ rule_ids ∧ severity x ∈ [js "ALERT"; js "CRITICAL"]) (table t w r).
Proof.
  unfold table, rain_rule, wind_rule, heat_rule, cold_rule.
  repeat apply Forall_app_2;
    repeat match goal with |- Forall _ (if ?b then _ else _) => destruct b end;
    repeat constructor; apply (bool_decide_unpack _); by vm_compute.
Qed.

Lemma classification_values (l : list rule) :
  classification l ∈ [js "NORMAL"; js "ALERT"; js "CRITICAL"].
Proof.
  unfold classification. destruct (existsb _ l); [set_solver|]. destruct (existsb _ l); set_solver.
Qed.

Lemma decideRisk_decision (tempC windMs rain1hMm : value) (p : pack) :
  decideRisk localeCompare tempC windMs rain1hMm = Some p →
  decision p ∈ [js "NORMAL"; js "ALERT"; js "CRITICAL"].
Proof.
  intros Hp. destruct (decideRisk_Some _ _ _ _ Hp) as (t & w & r & Ht & Hw & Hr).
  rewrite (decideRisk_table localeCompare _ _ _ t w r Ht Hw Hr) in Hp. injection Hp as <-.
  apply classification_values.
Qed.

(** X10. Whatever the readings it answers on, [decideRisk] returns one of
    NORMAL, ALERT and CRITICAL (the three values the CHECK constraints of
    the projection tables admit), the readings as it was given them under
    version 1, and at most one rule for rain, one for wind and one for
    temperature (never a heat rule with a cold rule); every rule is one of
    the eight of the table, of severity ALERT or CRITICAL. *)
Theorem decideRisk_shape (tempC windMs rain1hMm : value) (p : pack) :
  decideRisk localeCompare tempC windMs rain1hMm = Some p →
  decision p ∈ [js "NORMAL"; js "ALERT"; js "CRITICAL"]
  ∧ version (applied_rule p) = 1%Z
  ∧ inputs (applied_rule p) = (tempC, windMs, rain1hMm)
  ∧ length (matched rain_ids p) ≤ 1
  ∧ length (matched wind_ids p) ≤ 1
  ∧ length (matched temp_ids p) ≤ 1
  ∧ length (rules (applied_rule p)) ≤ 3
  ∧ Forall (λ x, id x ∈ rule_ids ∧ severity x ∈ [js "ALERT"; js "CRITICAL"])
           (rules (applied_rule p)).
Proof.
  intros Hp. pose proof (decideRisk_decision _ _ _ _ Hp) as Hdecision.
  destruct (decideRisk_Some _ _ _ _ Hp) as (t & w & r & Ht & Hw & Hr).
  rewrite (decideRisk_table localeCompare _ _ _ t w r Ht Hw Hr) in Hp. injection Hp as <-.
  cbn [applied_rule version inputs rules]. unfold matched. cbn [applied_rule rules].
  rewrite !length_fmap.
  assert (∀ ids : list jstr, length (filter (λ x, id x ∈ ids)
                           (Array_sort (λ a b, localeCompare (id a) (id b)) (table t w r)))
                 = length (filter (λ x, id x ∈ ids) (table t w r))) as Hfilter.
  { intros ids. by rewrite Array_sort_Permutation. }
  rewrite !Hfilter, filter_rain_table, filter_wind_table, filter_temp_table, Array_sort_length.
  pose proof (rain_rule_length r). pose proof (wind_rule_length w).
  pose proof (temp_rule_length t).
  split_and!; try done.
  - unfold table. rewrite !length_app in *. lia.
  - rewrite Array_sort_Permutation. apply table_rules.
Qed.

(** The order of the numbers is transitive. *)
Lemma le_trans (x y z : float) : le x y = true → le y z = true → le x z = true.
Proof.
  unfold le. rewrite !leb_spec. unfold SFleb.
  destruct (Prim2SF x) as [s1|s1| |s1 m1 e1], (Prim2SF y) as [s2|s2| |s2 m2 e2],
    (Prim2SF z) as [s|s| |s m e]; simpl; try done;
    repeat match goal with b : bool |- _ => destruct b end; simpl; try done.
  all: try (destruct (Z.compare_spec e1 e2), (Z.compare_spec e2 e), (Z.compare_spec e1 e);
            simpl; try done; try lia).
  all: subst; rewrite ?Pos.compare_cont_spec; simpl.
  all: try (destruct (Pos.compare_spec m1 m2), (Pos.compare_spec m2 m), (Pos.compare_spec m1 m);
            simpl; try done; try lia).
Qed.

Lemma ge_mono (x y c : float) : le x y = true → ge x c = true → ge y c = true.
Proof. unfold ge. intros Hxy Hc. by apply (le_trans c x y). Qed.

Lemma rank_classification_app (l1 l2 : list rule) :
  rank (classification (l1 ++ l2))
  = rank (classification l1) `max` rank (classification l2).
Proof.
  unfold classification. rewrite !existsb_app.
  destruct (existsb _ l1), (existsb _ l1), (existsb _ l2), (existsb _ l2); by vm_compute.
Qed.

Lemma rain_rule_mono (r r' : float) :
  le r r' = true → rank (classification (rain_rule r)) ≤ rank (classification (rain_rule r')).
Proof.
  intros Hle. unfold rain_rule.
  destruct (ge r 20) eqn:H20.
  { rewrite (ge_mono r r' 20 Hle H20). done. }
  destruct (ge r 8) eqn:H8.
  { rewrite (ge_mono r r' 8 Hle H8). destruct (ge r' 20); vm_compute; lia. }
  destruct (ge r' 20), (ge r' 8); vm_compute; lia.
Qed.

Lemma wind_rule_mono (w w' : float) :
  le w w' = true → rank (classification (wind_rule w)) ≤ rank (classification (wind_rule w')).
Proof.
  intros Hle. unfold wind_rule.
  destruct (ge w 20) eqn:H20.
  { rewrite (ge_mono w w' 20 Hle H20). done. }
  destruct (ge w 12) eqn:H12.
  { rewrite (ge_mono w w' 12 Hle H12). destruct (ge w' 20); vm_compute; lia. }
  destruct (ge w' 20), (ge w' 12); vm_compute; lia.
Qed.

(** X11. More rain or more wind never lowers the decision: at one
    temperature, if neither the rain nor the wind reading goes down, the
    decision stays or moves up in the order NORMAL, ALERT, CRITICAL. *)
Theorem decideRisk_monotone (t w w' r r' : float) :
  le w w' = true → le r r' = true →
  ∃ p p',
    decideRisk localeCompare (VNum t) (VNum w) (VNum r) = Some p
    ∧ decideRisk localeCompare (VNum t) (VNum w') (VNum r') = Some p'
    ∧ rank (decision p) ≤ rank (decision p').
Proof.
  intros Hw Hr. eexists _, _. split; [by apply decideRisk_table|].
  split; [by apply decideRisk_table|]. cbn [decision]. unfold table.
  rewrite !rank_classification_app.
  pose proof (rain_rule_mono r r' Hr). pose proof (wind_rule_mono w w' Hw). lia.
Qed.

End RiskMore.

Lemma decideRisk_shape_witness :
  ∃ p, Risk.decideRisk default_compare (VNum 35) (VNum 3) (VNum 9) = Some p
       ∧ Risk.decision p ∈ [js "NORMAL"; js "ALERT"; js "CRITICAL"]
       ∧ length (Risk.rules (Risk.applied_rule p)) ≤ 3.
Proof.
  assert (∃ p, Risk.decideRisk default_compare (VNum 35) (VNum 3) (VNum 9) = Some p) as [p Hp].
  { eexists. vm_compute. reflexivity. }
  exists p. split; [exact Hp|].
  destruct (decideRisk_shape default_compare (VNum 35) (VNum 3) (VNum 9) p Hp)
    as (Hdecision & _ & _ & _ & _ & _ & Hlen & _).
  split; [exact Hdecision|exact Hlen].
Defined.

Lemma decideRisk_monotone_witness :
  ∃ p p',
    Risk.decideRisk default_compare (VNum 35) (VNum 3) (VNum 1) = Some p
    ∧ Risk.decideRisk default_compare (VNum 35) (VNum 13) (VNum 9) = Some p'
    ∧ Risk.rank (Risk.decision p) ≤ Risk.rank (Risk.decision p').
Proof.
  apply (decideRisk_monotone default_compare 35 3 13 1 9); vm_compute; reflexivity.
Defined.

(** ** More on the projections *)

Section ProjectionMore.
Import Projections.

Lemma applyProjections_cases (now1 now2 : Z) (locationId : jstr) (p : Projected) (db : Db) :
  (∃ e, constraints locationId p db = Err e
        ∧ applyProjections now1 now2 locationId p db = (Err e, db))
  ∨ (constraints locationId p db = Ok ()
     ∧ applyProjections now1 now2 locationId p db
       = (Ok (), MkDb (locations db)
                      (<[locationId := MkState now1 p]> (location_state db))
                      (weather_snapshots db
                         ++ [MkSnapshot (weather_snapshots_id_seq db + 1) locationId now2 p])
                      (weather_snapshots_id_seq db + 1))).
Proof.
  unfold applyProjections, upsert_location_state, insert_weather_snapshot.
  destruct (constraints locationId p db) as [[]|e] eqn:Hc; [right|left; by exists e].
  assert (constraints locationId p
            (MkDb (locations db) (<[locationId:=MkState now1 p]> (location_state db))
                  (weather_snapshots db) (weather_snapshots_id_seq db)) = Ok ()) as ->.
  { exact Hc. }
  done.
Qed.

Lemma latest_snoc (l : jstr) (s : Snapshot) (db : Db) (m : gmap jstr StateRow) (n : Z) :
  latest l (MkDb (locations db) m (weather_snapshots db ++ [s]) n)
  = if decide (location_id s = l) then Some s else latest l db.
Proof.
  unfold latest. cbn [weather_snapshots]. rewrite filter_app.
  destruct (decide (location_id s = l)) as [Hl|Hl].
  - rewrite filter_cons_True by done. rewrite filter_nil. apply last_snoc.
  - rewrite filter_cons_False by done. rewrite filter_nil. by rewrite app_nil_r.
Qed.

Lemma applyProjections_keeps_consistent (now1 now2 : Z) (locationId : jstr) (p : Projected)
    (db : Db) :
  consistent db → consistent (applyProjections now1 now2 locationId p db).2.
Proof.
  intros Hcons.
  destruct (applyProjections_cases now1 now2 locationId p db) as [(e & _ & ->)|[_ ->]];
    cbn [fst snd]; [done|].
  intros l. rewrite latest_snoc. cbn [location_id location_state].
  destruct (decide (locationId = l)) as [->|Hl].
  - by rewrite lookup_insert_eq.
  - rewrite lookup_insert_ne by done. apply Hcons.
Qed.

(** X12. [applyProjections] keeps the two tables in step: if the current
    state of every location is its latest history row, it is so afterwards.
    A refused application leaves both tables as they were; an accepted one
    makes the projected row the current state and the latest history row of
    its location, leaves the state of every other location and the rows of
    [locations] alone, and keeps the history it found in front of the new
    row. *)
Theorem applyProjections_consistent (now1 now2 : Z) (locationId : jstr) (p : Projected)
    (db : Db) :
  consistent db →
  let r := (applyProjections now1 now2 locationId p db).1 in
  let db' := (applyProjections now1 now2 locationId p db).2 in
  consistent db'
  ∧ locations db' = locations db
  ∧ weather_snapshots db `prefix_of` weather_snapshots db'
  ∧ match r with
    | Err _ =>
        location_state db' = location_state db ∧ weather_snapshots db' = weather_snapshots db
    | Ok _ =>
        state <$> location_state db' !! locationId = Some p
        ∧ snapshot <$> latest locationId db' = Some p
        ∧ length (weather_snapshots db') = S (length (weather_snapshots db))
        ∧ ∀ l, l ≠ locationId →
            location_state db' !! l = location_state db !! l ∧ latest l db' = latest l db
    end.
Proof.
  intros Hcons. cbv zeta.
  split; [by apply applyProjections_keeps_consistent|].
  destruct (applyProjections_cases now1 now2 locationId p db) as [(e & _ & ->)|[_ ->]];
    cbn [fst snd].
  { by split_and!. }
  cbn [locations location_state weather_snapshots]. split_and!.
  - done.
  - by apply prefix_app_r.
  - by rewrite lookup_insert_eq.
  - rewrite latest_snoc. cbn [location_id]. by rewrite decide_True.
  - rewrite length_app. cbn [length]. lia.
  - intros l Hl. rewrite latest_snoc. cbn [location_id].
    rewrite lookup_insert_ne by done. by rewrite decide_False.
Qed.

End ProjectionMore.

Lemma applyProjections_consistent_witness :
  Projections.consistent Projections.sample
  ∧ Projections.consistent
      (Projections.applyProjections 10 11 (js "loc-1") Projections.sample_projection
         Projections.sample).2.
Proof.
  assert (Projections.consistent Projections.sample) as Hsample.
  { intros l. unfold Projections.sample, Projections.latest.
    cbn [Projections.location_state Projections.weather_snapshots]. by rewrite lookup_empty. }
  split; [exact Hsample|].
  apply (applyProjections_consistent 10 11 (js "loc-1") Projections.sample_projection
           Projections.sample Hsample).
Defined.

(** ** The key file *)

Section KeyFileFacts.
Import KeyFile.

Lemma trimStart_spec (s : jstr) :
  ∃ pre, s = pre ++ trimStart s ∧ Forall is_space pre
         ∧ ∀ c, head (trimStart s) = Some c → ¬ is_space c.
Proof.
  induction s as [|c s (pre & Hs & Hpre & Hhead)]; [by exists []|].
  cbn [trimStart]. destruct (is_space c) eqn:Hc.
  - exists (c :: pre). split_and!; [cbn [app]; f_equal; exact Hs| |done].
    constructor; [by rewrite Hc|done].
  - exists []. split_and!; [done..|]. intros c' [= <-]. rewrite Hc. intros [].
Qed.

Lemma trimEnd_spec (s : jstr) :
  ∃ post, s = trimEnd s ++ post ∧ Forall is_space post
          ∧ ∀ c, last (trimEnd s) = Some c → ¬ is_space c.
Proof.
  unfold trimEnd. destruct (trimStart_spec (reverse s)) as (pre & Hs & Hpre & Hhead).
  exists (reverse pre). split_and!.
  - rewrite <-reverse_app, <-Hs. by rewrite reverse_involutive.
  - by apply Forall_reverse.
  - intros c. rewrite last_reverse. apply Hhead.
Qed.

Lemma trim_spec (s : jstr) :
  ∃ pre post, s = pre ++ trim s ++ post ∧ Forall is_space pre ∧ Forall is_space post
              ∧ (∀ c, head (trim s) = Some c → ¬ is_space c)
              ∧ (∀ c, last (trim s) = Some c → ¬ is_space c).
Proof.
  unfold trim. destruct (trimStart_spec s) as (pre & Hs & Hpre & Hhead).
  destruct (trimEnd_spec (trimStart s)) as (post & Ht & Hpost & Hlast).
  exists pre, post. split_and!; [by rewrite <-Ht|done..| |done].
  intros c Hc. apply Hhead. rewrite Ht.
  destruct (trimEnd (trimStart s)); [done|exact Hc].
Qed.

(** X13. [readKeyFromFile] returns the text of the file without the
    white space around it, and never an empty key: what it returns is not
    empty, neither starts nor ends with white space, and the file holds it
    between two runs of white space.  It throws when the file cannot be
    read, and "OWM api key file empty" exactly when the file holds white
    space only. *)
Theorem readKeyFromFile_spec (fs : jstr → option jstr) (path : jstr) :
  match readKeyFromFile fs path with
  | Returns key =>
      key ≠ []
      ∧ (∀ c, head key = Some c → ¬ is_space c)
      ∧ (∀ c, last key = Some c → ¬ is_space c)
      ∧ ∃ pre post, fs path = Some (pre ++ key ++ post)
                    ∧ Forall is_space pre ∧ Forall is_space post
  | Throws e =>
      (e = FsError ∧ fs path = None)
      ∨ (e = JsError (js "OWM api key file empty")
         ∧ ∃ content, fs path = Some content ∧ Forall is_space content)
  end.
Proof.
  unfold readKeyFromFile. destruct (fs path) as [content|]; [|by left].
  destruct (trim_spec content) as (pre & post & Hc & Hpre & Hpost & Hhead & Hlast).
  destruct (bool_decide (trim content = [])) eqn:Hempty.
  - right. split; [done|]. exists content. split; [done|].
    apply bool_decide_eq_true in Hempty. rewrite Hc, Hempty. by apply Forall_app.
  - apply bool_decide_eq_false in Hempty. split_and!; [done..|].
    exists pre, post. by rewrite <-Hc.
Qed.

End KeyFileFacts.

(** ** The job handler of the worker *)

Lemma appendLedgerEvent_Err (eventType : jstr) (payloadObj : value) (db db' : Ledger.Db)
    (e : error) :
  Ledger.appendLedgerEvent eventType payloadObj db = (Err e, db') →
  Ledger.ledger_events db' = Ledger.ledger_events db.
Proof.
  unfold Ledger.appendLedgerEvent, Ledger.insert_event.
  destruct (Ledger.select_last db !! 0); [|by intros [= _ <-]].
  destruct (is_sql_null payloadObj); [by intros [= _ <-]|].
  destruct (existsb _ _); [by intros [= _ <-]|done].
Qed.

(** An append goes through on a ledger that has a row, for a payload that
    is not null and a hash that is not in the table. *)
Lemma appendLedgerEvent_runs (eventType : jstr) (payloadObj : value) (db : Ledger.Db)
    (row0 : Ledger.LedgerEvent) :
  last (Ledger.ledger_events db) = Some row0 →
  is_sql_null payloadObj = false →
  Ledger.chain_hash (Ledger.event_hash row0) eventType payloadObj
    ∉ Ledger.event_hash <$> Ledger.ledger_events db →
  Ledger.appendLedgerEvent eventType payloadObj db
  = (Ok (Ledger.event_hash row0,
         Ledger.chain_hash (Ledger.event_hash row0) eventType payloadObj),
     Ledger.MkDb (Ledger.ledger_events db
                    ++ [Ledger.Event (Ledger.ledger_events_id_seq db + 1) eventType payloadObj
                          (Ledger.event_hash row0)
                          (Ledger.chain_hash (Ledger.event_hash row0) eventType payloadObj)])
                 (Ledger.ledger_events_id_seq db + 1)).
Proof.
  intros Hlast Hnull Hfresh. unfold Ledger.appendLedgerEvent, Ledger.select_last, Ledger.insert_event.
  rewrite Hlast. cbn [lookup list_lookup]. rewrite Hnull.
  destruct (existsb _ (Ledger.ledger_events db)) eqn:Hex; [|done].
  exfalso. apply Hfresh. apply existsb_exists in Hex as (e & He & Heq).
  apply str_eqb_eq in Heq. apply list_elem_of_fmap. exists e. split; [done|].
  by apply list_elem_of_In.
Qed.

Lemma appendLedgerEvent_well_formed (eventType : jstr) (payloadObj : value) (db : Ledger.Db) :
  Ledger.well_formed db → Ledger.well_formed (Ledger.appendLedgerEvent eventType payloadObj db).2.
Proof.
  intros Hwf. unfold Ledger.appendLedgerEvent.
  destruct (Ledger.select_last db !! 0) as [row0|]; [|done].
  pose proof (insert_event_well_formed eventType payloadObj (Ledger.event_hash row0)
                (Ledger.chain_hash (Ledger.event_hash row0) eventType payloadObj) db Hwf) as Hins.
  by destruct (Ledger.insert_event _ _ _ _ db) as [[[]|] ?].
Qed.

Lemma appendLedgerEvent_keeps_ok (eventType : jstr) (payloadObj : value) (db : Ledger.Db) :
  Ledger.ok (Ledger.verify db) = true →
  Ledger.ok (Ledger.verify (Ledger.appendLedgerEvent eventType payloadObj db).2) = true.
Proof.
  rewrite !verify_audit_rows. cbn [Ledger.ok]. rewrite !no_errors_true. intros Hok.
  destruct (Ledger.appendLedgerEvent eventType payloadObj db) as [[r|e] db'] eqn:Happ; cbn [snd].
  - by destruct (appendLedgerEvent_audit _ _ _ _ _ Happ Hok).
  - by rewrite (appendLedgerEvent_Err _ _ _ _ _ Happ).
Qed.

Lemma worker_appendLedgerEvent_snd (eventType : jstr) (payloadObj : value) (db : Ledger.Db) :
  (Ledger.worker_appendLedgerEvent eventType payloadObj db).2
  = (Ledger.appendLedgerEvent eventType payloadObj db).2.
Proof.
  unfold Ledger.worker_appendLedgerEvent.
  by destruct (Ledger.appendLedgerEvent eventType payloadObj db) as [[[]|] ?].
Qed.

Lemma worker_appendLedgerEvent_Ok (eventType : jstr) (payloadObj : value) (db db' : Ledger.Db)
    (eventHash : jstr) :
  Ledger.worker_appendLedgerEvent eventType payloadObj db = (Ok eventHash, db') →
  ∃ prevHash, Ledger.appendLedgerEvent eventType payloadObj db = (Ok (prevHash, eventHash), db').
Proof.
  unfold Ledger.worker_appendLedgerEvent.
  destruct (Ledger.appendLedgerEvent eventType payloadObj db) as [[[prevHash h]|] ?]; [|done].
  intros [= <- <-]. by exists prevHash.
Qed.


Section WorkerFacts.
Import Worker.
Variable localeCompare : jstr → jstr → Z.
Variable uuid_in : jstr → option jstr.

(** The rows the select of the handler returns are active rows of
    [locations] with the id its parameter denotes. *)
Lemma select_active_Returns (param : value) (db : Projections.Db)
    (rows : list Projections.Location) :
  select_active uuid_in param db = Returns rows →
  ∃ text u, param = VStr text ∧ uuid_in text = Some u
    ∧ rows = filter (λ l, Projections.id l = u ∧ Projections.is_active l = true)
                    (Projections.locations db).
Proof.
  unfold select_active. destruct param as [| | | |text| | |]; try done.
  destruct (uuid_in text) as [u|] eqn:Hu; [|done]. intros [= <-]. exists text, u. by split_and!.
Qed.

(** The ways through the handler: it stops before the ledger and leaves
    the store alone, or it reaches the append with a location, a weather
    answer and a decision. *)
Lemma handler_inv (fs : jstr → option jstr) (key_path : jstr)
    (sensor : jstr → float → float → outcome value) (now1 now2 : Z) (job : Job)
    (st st' : Store) (r : outcome value) :
  handler localeCompare uuid_in fs key_path sensor now1 now2 job st = Some (r, st') →
  (st' = st
   ∧ (r = Returns VUndefined ∧ name job ≠ js "refresh-location"
      ∨ ∃ e, r = Throws e ∧ name job = js "refresh-location"))
  ∨ ∃ apiKey loc rest raw pack,
      name job = js "refresh-location"
      ∧ KeyFile.readKeyFromFile fs key_path = Returns apiKey
      ∧ select_active uuid_in (job_locationId (data job)) (projections st) = Returns (loc :: rest)
      ∧ sensor apiKey (Projections.lat loc) (Projections.lon loc) = Returns raw
      ∧ is_object_or_null raw = true
      ∧ Risk.decide_reading localeCompare raw = Some pack
      ∧ match Ledger.worker_appendLedgerEvent (js "DECISION_WEATHER_RISK")
                (decision_payload loc pack raw) (ledger st) with
        | (Err e, ledger') => r = Throws (DbError e) ∧ st' = MkStore ledger' (projections st)
        | (Ok h, ledger') =>
            match Projections.applyProjections now1 now2 (Projections.id loc)
                    (projected pack raw h) (projections st) with
            | (Err e, projections') =>
                r = Throws (DbError e) ∧ st' = MkStore ledger' projections'
            | (Ok _, projections') =>
                r = Returns (result_value pack h) ∧ st' = MkStore ledger' projections'
            end
        end.
Proof.
  unfold handler. destruct (str_eqb (name job) _) eqn:Hname; cbn [negb].
  2: { intros [= <- <-]. left. split; [done|]. left. split; [done|]. by apply str_eqb_neq. }
  apply str_eqb_eq in Hname.
  destruct (KeyFile.readKeyFromFile fs key_path) as [apiKey|e] eqn:Hkey.
  2: { intros [= <- <-]. left. eauto. }
  destruct (truthy (job_locationId (data job))); cbn [negb].
  2: { intros [= <- <-]. left. eauto. }
  destruct (select_active uuid_in _ (projections st)) as [[|loc rest]|e] eqn:Hsel.
  1, 3: intros [= <- <-]; left; eauto.
  destruct (sensor apiKey _ _) as [raw|e] eqn:Hsensor.
  2: { intros [= <- <-]. left. eauto. }
  destruct (is_object_or_null raw) eqn:Hraw.
  2: { case_guard; [|done]. by destruct (is_object_or_null raw). }
  case_guard; [|done]. cbn [mbind option_bind].
  destruct (Risk.decide_reading localeCompare raw) as [pack|] eqn:Hpack; [|done].
  cbn [mbind option_bind]. intros Hrun. right. exists apiKey, loc, rest, raw, pack.
  split_and!; try done. unfold projected, result_value.
  destruct (Ledger.worker_appendLedgerEvent _ _ (ledger st)) as [[h|e] ledger'].
  - destruct (Projections.applyProjections _ _ _ _ (projections st)) as [[[]|e] projections'];
      by injection Hrun as <- <-.
  - by injection Hrun as <- <-.
Qed.

(** What the handler projects passes every check of the projection tables
    but the one on a null weather answer. *)
Lemma projected_constraints (loc : Projections.Location) (rest : list Projections.Location)
    (param raw : value) (pack : Risk.pack) (h : jstr) (db : Projections.Db) :
  select_active uuid_in param db = Returns (loc :: rest) →
  Risk.decide_reading localeCompare raw = Some pack →
  Projections.constraints (Projections.id loc) (projected pack raw h) db
  = if is_sql_null raw then Err NotNullViolation else Ok ().
Proof.
  intros Hsel Hpack. apply select_active_Returns in Hsel as (text & u & _ & _ & Hrows).
  assert (loc ∈ Projections.locations db) as Hloc.
  { assert (loc ∈ loc :: rest) as Hin by left. rewrite Hrows in Hin.
    by apply list_elem_of_filter in Hin as [_ ?]. }
  unfold Projections.constraints, projected.
  cbn [Projections.applied_rule Projections.raw_weather Projections.decision].
  assert (is_sql_null (value_of_applied_rule (Risk.applied_rule pack)) = false) as ->.
  { unfold value_of_applied_rule. by destruct (Risk.inputs _) as [[? ?] ?]. }
  cbn [orb]. destruct (is_sql_null raw); [done|].
  rewrite bool_decide_eq_true_2 by by eapply decideRisk_decision.
  rewrite bool_decide_eq_true_2; [done|].
  apply list_elem_of_fmap. by exists loc.
Qed.


(** X15. A job the handler completes: either it is no "refresh-location"
    job, and nothing happened, or the location the job names is an active
    row of [locations], the ledger has one more row, last, a
    DECISION_WEATHER_RISK event that carries the location, the decision and
    the weather answer and names the hash of the row before it; the current
    state of the location and the newest history row are that decision,
    with the hash of the ledger row as their [ledger_hash], and the handler
    returns that hash and the decision. *)
Theorem handler_returns (fs : jstr → option jstr) (key_path : jstr)
    (sensor : jstr → float → float → outcome value) (now1 now2 : Z) (job : Job)
    (st st' : Store) (v : value) :
  handler localeCompare uuid_in fs key_path sensor now1 now2 job st = Some (Returns v, st') →
  (name job ≠ js "refresh-location" ∧ v = VUndefined ∧ st' = st)
  ∨ ∃ apiKey text loc raw pack row0,
      name job = js "refresh-location"
      ∧ job_locationId (data job) = VStr text
      ∧ uuid_in text = Some (Projections.id loc)
      ∧ loc ∈ Projections.locations (projections st)
      ∧ Projections.is_active loc = true
      ∧ sensor apiKey (Projections.lat loc) (Projections.lon loc) = Returns raw
      ∧ Risk.decide_reading localeCompare raw = Some pack
      ∧ last (Ledger.ledger_events (ledger st)) = Some row0
      ∧ let h := decision_hash row0 loc pack raw in
        v = result_value pack h
        ∧ Ledger.ledger_events (ledger st')
          = Ledger.ledger_events (ledger st) ++ [decision_event (ledger st) row0 loc pack raw]
        ∧ Projections.location_state (projections st') !! Projections.id loc
          = Some (Projections.MkState now1 (projected pack raw h))
        ∧ Projections.snapshot <$> last (Projections.weather_snapshots (projections st'))
          = Some (projected pack raw h)
        ∧ Projections.locations (projections st') = Projections.locations (projections st).
Proof.
  intros Hrun. apply handler_inv in Hrun
    as [[-> [[[= <-] Hname]|(e & He & _)]]
       |(apiKey & loc & rest & raw & pack & Hname & _ & Hsel & Hsensor & Hraw & Hpack & Hrun)];
    [by left|done|].
  right.
  destruct (Ledger.worker_appendLedgerEvent _ _ (ledger st)) as [[h|e'] ledger'] eqn:Happ;
    [|by destruct Hrun].
  destruct (applyProjections_cases now1 now2 (Projections.id loc) (projected pack raw h)
              (projections st)) as [(e' & Hc & Hproj)|[_ Hproj]];
    rewrite Hproj in Hrun; [by destruct Hrun|].
  destruct Hrun as [[= ->] ->]. cbn [projections ledger].
  apply worker_appendLedgerEvent_Ok in Happ as [prevHash Happ].
  apply appendLedgerEvent_Ok in Happ as (row0 & Hlast & -> & -> & _ & _ & Hrows & _).
  apply select_active_Returns in Hsel as (text & u & Htext & Hu & Hrows').
  assert (loc ∈ loc :: rest) as Hin by left. rewrite Hrows' in Hin.
  apply list_elem_of_filter in Hin as [[Hid Hactive] Hloc].
  exists apiKey, text, loc, raw, pack, row0. rewrite Hid. split_and!; try done.
  all: cbn [Projections.location_state Projections.weather_snapshots Projections.locations].
  - by rewrite lookup_insert_eq.
  - by rewrite last_snoc.
Qed.

(** X16. Whatever a job does, the handler keeps what the program relies
    on: a ledger the audit accepts is accepted afterwards, the table keeps
    its declared shape (ids ascending, no [event_hash] twice), the current
    state of every location stays its latest history row, the rows the
    ledger had stay in front, unchanged, and [locations] is not touched. *)
Theorem handler_preserves (fs : jstr → option jstr) (key_path : jstr)
    (sensor : jstr → float → float → outcome value) (now1 now2 : Z) (job : Job)
    (st st' : Store) (r : outcome value) :
  handler localeCompare uuid_in fs key_path sensor now1 now2 job st = Some (r, st') →
  (Ledger.ok (Ledger.verify (ledger st)) = true → Ledger.ok (Ledger.verify (ledger st')) = true)
  ∧ (Ledger.well_formed (ledger st) → Ledger.well_formed (ledger st'))
  ∧ (Projections.consistent (projections st) → Projections.consistent (projections st'))
  ∧ Ledger.ledger_events (ledger st) `prefix_of` Ledger.ledger_events (ledger st')
  ∧ Projections.locations (projections st') = Projections.locations (projections st).
Proof.
  intros Hrun. apply handler_inv in Hrun
    as [[-> _]|(apiKey & loc & rest & raw & pack & _ & _ & Hsel & Hsensor & Hraw & Hpack & Hrun)].
  { by split_and!. }
  assert (ledger st' = (Ledger.appendLedgerEvent (js "DECISION_WEATHER_RISK")
                          (decision_payload loc pack raw) (ledger st)).2
          ∧ (projections st' = projections st
             ∨ ∃ h, projections st'
                    = (Projections.applyProjections now1 now2 (Projections.id loc)
                         (projected pack raw h) (projections st)).2)) as [Hledger Hproj].
  { rewrite <-worker_appendLedgerEvent_snd.
    destruct (Ledger.worker_appendLedgerEvent _ _ (ledger st)) as [[h|e'] ledger'].
    - destruct (Projections.applyProjections now1 now2 (Projections.id loc)
                  (projected pack raw h) (projections st)) as [[[]|e] projections'] eqn:Hp;
        destruct Hrun as [_ ->]; cbn [ledger projections snd]; (split; [done|]);
        right; exists h; by rewrite Hp.
    - destruct Hrun as [_ ->]. cbn [ledger projections snd]. split; [done|by left]. }
  rewrite Hledger. split_and!.
  - apply appendLedgerEvent_keeps_ok.
  - apply appendLedgerEvent_well_formed.
  - intros Hcons. destruct Hproj as [->|[h ->]]; [done|].
    by apply applyProjections_keeps_consistent.
  - unfold Ledger.appendLedgerEvent.
    destruct (Ledger.select_last (ledger st) !! 0) as [row0|]; [|done].
    pose proof (insert_event_prefix (js "DECISION_WEATHER_RISK") (decision_payload loc pack raw)
                  (Ledger.event_hash row0)
                  (Ledger.chain_hash (Ledger.event_hash row0) (js "DECISION_WEATHER_RISK")
                     (decision_payload loc pack raw)) (ledger st)) as Hprefix.
    by destruct (Ledger.insert_event _ _ _ _ (ledger st)) as [[[]|] ?].
  - destruct Hproj as [->|[h ->]]; [done|].
    by destruct (applyProjections_cases now1 now2 (Projections.id loc) (projected pack raw h)
                   (projections st)) as [(e & _ & ->)|[_ ->]].
Qed.

End WorkerFacts.

Section WorkerRuns.
Import Worker.
Variable localeCompare : jstr → jstr → Z.
Variable uuid_in : jstr → option jstr.

(** With [id] the primary key of [locations], the select of the handler
    returns the one active row of that id. *)
Lemma select_active_row (text : jstr) (loc : Projections.Location) (db : Projections.Db) :
  NoDup (Projections.id <$> Projections.locations db) →
  uuid_in text = Some (Projections.id loc) →
  loc ∈ Projections.locations db → Projections.is_active loc = true →
  select_active uuid_in (VStr text) db = Returns [loc].
Proof.
  intros Hnd Hu Hloc Hactive. unfold select_active. rewrite Hu. f_equal.
  induction (Projections.locations db) as [|l locs IH]; [by apply elem_of_nil in Hloc|].
  rewrite fmap_cons in Hnd. apply NoDup_cons in Hnd as [Hl Hnd].
  apply elem_of_cons in Hloc as [<-|Hloc].
  - rewrite filter_cons_True by done. f_equal.
    clear IH Hnd. induction locs as [|l' locs IH]; [done|].
    rewrite fmap_cons, not_elem_of_cons in Hl. destruct Hl as [Hne Hl].
    rewrite filter_cons_False; [by apply IH|]. by intros [Hid _].
  - rewrite filter_cons_False; [by apply IH|].
    intros [Hid _]. apply Hl. apply list_elem_of_fmap. by exists loc.
Qed.

(** The handler up to the append. *)
Lemma handler_reaches_append (fs : jstr → option jstr) (key_path : jstr)
    (sensor : jstr → float → float → outcome value) (now1 now2 : Z) (job : Job) (st : Store)
    (apiKey text : jstr) (loc : Projections.Location) (raw : value) (pack : Risk.pack) :
  name job = js "refresh-location" →
  KeyFile.readKeyFromFile fs key_path = Returns apiKey →
  job_locationId (data job) = VStr text → text ≠ [] →
  select_active uuid_in (VStr text) (projections st) = Returns [loc] →
  sensor apiKey (Projections.lat loc) (Projections.lon loc) = Returns raw →
  is_object_or_null raw = true →
  Risk.decide_reading localeCompare raw = Some pack →
  handler localeCompare uuid_in fs key_path sensor now1 now2 job st
  = match Ledger.worker_appendLedgerEvent (js "DECISION_WEATHER_RISK")
            (decision_payload loc pack raw) (ledger st) with
    | (Err e, ledger') => Some (Throws (DbError e), MkStore ledger' (projections st))
    | (Ok h, ledger') =>
        match Projections.applyProjections now1 now2 (Projections.id loc)
                (projected pack raw h) (projections st) with
        | (Err e, projections') => Some (Throws (DbError e), MkStore ledger' projections')
        | (Ok _, projections') =>
            Some (Returns (result_value pack h), MkStore ledger' projections')
        end
    end.
Proof.
  intros Hname Hkey Htext Hne Hsel Hsensor Hraw Hpack. unfold handler.
  rewrite Hname, str_eqb_refl, Hkey, Htext. cbn [negb truthy].
  rewrite bool_decide_eq_false_2 by done. cbn [negb].
  rewrite Hsel, Hsensor, Hraw. case_guard; [|done]. cbn [mbind option_bind].
  rewrite Hpack. done.
Qed.


(** X18. A weather answer [null] is decided on as ALERT (no temperature
    counts as 0 degrees, below the threshold of TEMP_2C), and the decision
    goes into the ledger; the projection is then refused, NOT NULL on
    [raw_weather], and the job fails: the ledger holds a decision that
    neither the state nor the history of the location shows. *)
Theorem handler_null_weather (fs : jstr → option jstr) (key_path : jstr)
    (sensor : jstr → float → float → outcome value) (now1 now2 : Z) (job : Job) (st : Store)
    (apiKey text : jstr) (loc : Projections.Location) (row0 : Ledger.LedgerEvent) :
  name job = js "refresh-location" →
  KeyFile.readKeyFromFile fs key_path = Returns apiKey →
  job_locationId (data job) = VStr text → text ≠ [] →
  uuid_in text = Some (Projections.id loc) →
  NoDup (Projections.id <$> Projections.locations (projections st)) →
  loc ∈ Projections.locations (projections st) → Projections.is_active loc = true →
  sensor apiKey (Projections.lat loc) (Projections.lon loc) = Returns VNull →
  last (Ledger.ledger_events (ledger st)) = Some row0 →
  let pack :=
    Risk.Pack (js "ALERT")
      (Risk.AppliedRule 1 (VNull, VNum 0, VNum 0)
         [Risk.Rule (js "TEMP_2C") (js "ALERT") (js "temp_c<=2")]) in
  decision_hash row0 loc pack VNull ∉ Ledger.event_hash <$> Ledger.ledger_events (ledger st) →
  handler localeCompare uuid_in fs key_path sensor now1 now2 job st
  = Some (Throws (DbError NotNullViolation),
          MkStore
            (Ledger.MkDb (Ledger.ledger_events (ledger st)
                            ++ [decision_event (ledger st) row0 loc pack VNull])
                         (Ledger.ledger_events_id_seq (ledger st) + 1))
            (projections st)).
Proof.
  intros Hname Hkey Htext Hne Hu Hnd Hloc Hactive Hsensor Hlast pack Hfresh.
  pose proof (select_active_row text loc (projections st) Hnd Hu Hloc Hactive) as Hsel.
  assert (Risk.decide_reading localeCompare VNull = Some pack) as Hpack by reflexivity.
  rewrite (handler_reaches_append fs key_path sensor now1 now2 job st apiKey text loc
             VNull pack Hname Hkey Htext Hne Hsel Hsensor eq_refl Hpack).
  unfold Ledger.worker_appendLedgerEvent.
  rewrite (appendLedgerEvent_runs (js "DECISION_WEATHER_RISK")
             (decision_payload loc pack VNull) (ledger st) row0 Hlast eq_refl Hfresh).
  destruct (applyProjections_cases now1 now2 (Projections.id loc)
              (projected pack VNull (decision_hash row0 loc pack VNull))
              (projections st)) as [(e & Hc & Hproj)|[Hc _]].
  - rewrite (projected_constraints localeCompare uuid_in _ _ _ _ _ _ _ Hsel Hpack) in Hc.
    injection Hc as <-. unfold decision_hash in *. by rewrite Hproj.
  - by rewrite (projected_constraints localeCompare uuid_in _ _ _ _ _ _ _ Hsel Hpack) in Hc.
Qed.

End WorkerRuns.

(** ** The command routes of the API *)

Section ApiFacts.
Import Api.
Variable uuid_in : jstr → option jstr.

Lemma LocationCreate_Some (body : value) (name : jstr) (lat lon : float) :
  LocationCreate body = Some (name, lat, lon) →
  (∃ fields, body = VObj None fields
             ∧ get_value fields (js "name") = VStr name
             ∧ get_value fields (js "lat") = VNum lat
             ∧ get_value fields (js "lon") = VNum lon)
  ∧ 1 ≤ length name ≤ 80
  ∧ Risk.ge lat (-90) = true ∧ Risk.le lat 90 = true
  ∧ Risk.ge lon (-180) = true ∧ Risk.le lon 180 = true.
Proof.
  unfold LocationCreate. destruct body as [| | | | | |[r|] fields|]; try done.
  destruct (get_value fields (js "name")) as [| | | |name'| | |] eqn:Hname; try done.
  destruct (get_value fields (js "lat")) as [| |lat'| | | | |] eqn:Hlat; try done.
  destruct (get_value fields (js "lon")) as [| |lon'| | | | |] eqn:Hlon; try done.
  destruct (_ && _) eqn:Hcond; [|done]. intros [= <- <- <-].
  repeat (apply andb_prop in Hcond as [Hcond ?]).
  split; [by exists fields|].
  repeat match goal with H : (_ <=? _) = true |- _ => apply Nat.leb_le in H end.
  by split_and!.
Qed.

(** The location a request leaves in [locations]. *)
Lemma insert_location_cases (new_id name : jstr) (lat lon : float) (db : Projections.Db) :
  (∃ e, insert_location new_id name lat lon db = (Throws e, db)
        ∧ (e = InvalidText ∧ 0%N ∈ name
           ∨ e = DbError UniqueViolation
             ∧ new_id ∈ Projections.id <$> Projections.locations db))
  ∨ ((0%N ∉ name) ∧ (new_id ∉ Projections.id <$> Projections.locations db)
     ∧ insert_location new_id name lat lon db
       = (Returns (Projections.MkLocation new_id (toWellFormed name) lat lon true),
          Projections.MkDb
            (Projections.locations db
               ++ [Projections.MkLocation new_id (toWellFormed name) lat lon true])
            (Projections.location_state db) (Projections.weather_snapshots db)
            (Projections.weather_snapshots_id_seq db))).
Proof.
  unfold insert_location. case_bool_decide as Hnul; [left; eauto|].
  case_bool_decide as Hid; [left; eauto|]. by right.
Qed.

(** X19. What an answer of [POST /api/cmd/locations] means.  400: the
    body does not pass the schema, and nothing was stored.  200: the body
    has a name of 1 to 80 code units and coordinates within -90..90 and
    -180..180; the location is a new active row of [locations], the ledger
    has one more row, last, a CMD_LOCATION_ADD event with that row as its
    payload, and one "refresh-location" job for the new id is in the queue.
    An exception: no job was queued and the ledger has no new row, but the
    location may be stored all the same, when it is the append that failed
    (the insert and the append are no single transaction). *)
Theorem post_locations_spec (new_id : jstr) (body : value) (sys : System) :
  let r := (post_locations new_id body sys).1 in
  let sys' := (post_locations new_id body sys).2 in
  match r with
  | Returns BadRequest => LocationCreate body = None ∧ sys' = sys
  | Returns NotFound => False
  | Returns (Json answer) =>
      ∃ name lat lon row0,
        LocationCreate body = Some (name, lat, lon)
        ∧ 1 ≤ length name ≤ 80
        ∧ Risk.ge lat (-90) = true ∧ Risk.le lat 90 = true
        ∧ Risk.ge lon (-180) = true ∧ Risk.le lon 180 = true
        ∧ (new_id ∉ Projections.id <$> Projections.locations (Worker.projections (store sys)))
        ∧ last (Ledger.ledger_events (Worker.ledger (store sys))) = Some row0
        ∧ let loc := Projections.MkLocation new_id (toWellFormed name) lat lon true in
          let payload := VObj None [(js "location", value_of_location loc)] in
          answer = VObj None [(js "ok", VBool true); (js "location", value_of_location loc)]
          ∧ Projections.locations (Worker.projections (store sys'))
            = Projections.locations (Worker.projections (store sys)) ++ [loc]
          ∧ Ledger.ledger_events (Worker.ledger (store sys'))
            = Ledger.ledger_events (Worker.ledger (store sys))
                ++ [Ledger.Event (Ledger.ledger_events_id_seq (Worker.ledger (store sys)) + 1)
                      (js "CMD_LOCATION_ADD") payload (Ledger.event_hash row0)
                      (Ledger.chain_hash (Ledger.event_hash row0) (js "CMD_LOCATION_ADD")
                         payload)]
          ∧ queue sys'
            = queue sys ++ [Worker.MkJob (js "refresh-location")
                              (VObj None [(js "locationId", VStr new_id)])]
  | Throws e =>
      queue sys' = queue sys
      ∧ Ledger.ledger_events (Worker.ledger (store sys'))
        = Ledger.ledger_events (Worker.ledger (store sys))
      ∧ (Worker.projections (store sys') = Worker.projections (store sys)
         ∨ ∃ err name lat lon,
             e = DbError err
             ∧ LocationCreate body = Some (name, lat, lon)
             ∧ Projections.locations (Worker.projections (store sys'))
               = Projections.locations (Worker.projections (store sys))
                   ++ [Projections.MkLocation new_id (toWellFormed name) lat lon true])
  end.
Proof.
  cbv zeta. unfold post_locations, queue_add.
  destruct (LocationCreate body) as [[[name lat] lon]|] eqn:Hbody; [|done].
  destruct (LocationCreate_Some _ _ _ _ Hbody) as (_ & Hname & Hlat1 & Hlat2 & Hlon1 & Hlon2).
  destruct (insert_location_cases new_id name lat lon (Worker.projections (store sys)))
    as [(e & -> & _)|(Hnul & Hid & ->)]; cbn [fst snd].
  { cbn [store Worker.projections Worker.ledger queue]. split_and!; [done..|by left]. }
  destruct (Ledger.appendLedgerEvent _ _ (Worker.ledger (store sys)))
    as [[[prevHash eventHash]|err] ledger'] eqn:Happ; cbn [fst snd].
  - apply appendLedgerEvent_Ok in Happ as (row0 & Hlast & -> & -> & _ & _ & Hrows & _).
    exists name, lat, lon, row0.
    cbn [store Worker.projections Worker.ledger queue Projections.locations].
    split_and!; try done; lia.
  - apply appendLedgerEvent_Err in Happ.
    cbn [store Worker.projections Worker.ledger queue Projections.locations].
    split_and!; [done..|]. right. by exists err, name, lat, lon.
Qed.

(** X20. A request with a body the schema accepts, a name without NUL and
    a fresh id goes through when the ledger has a last row and does not
    hold the hash of the new event.  On a ledger without any row, the
    genesis row missing, the request fails, and still leaves the location
    in [locations]: stored, with no event in the ledger and no job. *)
Theorem post_locations_runs (new_id : jstr) (body : value) (sys : System)
    (name : jstr) (lat lon : float) :
  LocationCreate body = Some (name, lat, lon) →
  0%N ∉ name →
  new_id ∉ Projections.id <$> Projections.locations (Worker.projections (store sys)) →
  let loc := Projections.MkLocation new_id (toWellFormed name) lat lon true in
  let payload := VObj None [(js "location", value_of_location loc)] in
  let projections' :=
    Projections.MkDb (Projections.locations (Worker.projections (store sys)) ++ [loc])
      (Projections.location_state (Worker.projections (store sys)))
      (Projections.weather_snapshots (Worker.projections (store sys)))
      (Projections.weather_snapshots_id_seq (Worker.projections (store sys))) in
  (Ledger.ledger_events (Worker.ledger (store sys)) = [] →
   post_locations new_id body sys
   = (Throws (DbError TypeError),
      MkSystem (Worker.MkStore (Worker.ledger (store sys)) projections')
               (queue sys) (queue_seq sys)))
  ∧ ∀ row0,
      last (Ledger.ledger_events (Worker.ledger (store sys))) = Some row0 →
      let h := Ledger.chain_hash (Ledger.event_hash row0) (js "CMD_LOCATION_ADD") payload in
      h ∉ Ledger.event_hash <$> Ledger.ledger_events (Worker.ledger (store sys)) →
      post_locations new_id body sys
      = (Returns (Json (VObj None [(js "ok", VBool true);
                                   (js "location", value_of_location loc)])),
         MkSystem
           (Worker.MkStore
              (Ledger.MkDb
                 (Ledger.ledger_events (Worker.ledger (store sys))
                    ++ [Ledger.Event
                          (Ledger.ledger_events_id_seq (Worker.ledger (store sys)) + 1)
                          (js "CMD_LOCATION_ADD") payload (Ledger.event_hash row0) h])
                 (Ledger.ledger_events_id_seq (Worker.ledger (store sys)) + 1))
              projections')
           (queue sys ++ [Worker.MkJob (js "refresh-location")
                            (VObj None [(js "locationId", VStr new_id)])])
           (queue_seq sys + 1)).
Proof.
  intros Hbody Hnul Hid. cbv zeta. unfold post_locations. rewrite Hbody.
  destruct (insert_location_cases new_id name lat lon (Worker.projections (store sys)))
    as [(e & _ & [[_ ?]|[_ ?]])|(_ & _ & ->)]; [done..|].
  split.
  - intros Hrows. unfold Ledger.appendLedgerEvent, Ledger.select_last. by rewrite Hrows.
  - intros row0 Hlast Hfresh.
    by rewrite (appendLedgerEvent_runs (js "CMD_LOCATION_ADD")
                  (VObj None [(js "location",
                     value_of_location
                       (Projections.MkLocation new_id (toWellFormed name) lat lon true))])
                  (Worker.ledger (store sys)) row0 Hlast eq_refl Hfresh).
Qed.

(** X21. What an answer of [POST /api/cmd/locations/:id/refresh] means.
    404: no active location has the id, and nothing was stored.  200: an
    active location has it, the ledger has one more row, last, a
    CMD_LOCATION_REFRESH event that names the id as it was given, and one
    "refresh-location" job for it is in the queue, whose id is returned.
    An exception: no job was queued and the ledger has no new row.  The
    route never changes a projection. *)
Theorem post_refresh_spec (id : jstr) (sys : System) :
  let r := (post_refresh uuid_in id sys).1 in
  let sys' := (post_refresh uuid_in id sys).2 in
  Worker.projections (store sys') = Worker.projections (store sys)
  ∧ match r with
    | Returns BadRequest => False
    | Returns NotFound =>
        sys' = sys
        ∧ ∀ loc, loc ∈ Projections.locations (Worker.projections (store sys)) →
                 uuid_in id = Some (Projections.id loc) → Projections.is_active loc = false
    | Returns (Json answer) =>
        ∃ loc row0,
          loc ∈ Projections.locations (Worker.projections (store sys))
          ∧ uuid_in id = Some (Projections.id loc)
          ∧ Projections.is_active loc = true
          ∧ last (Ledger.ledger_events (Worker.ledger (store sys))) = Some row0
          ∧ let payload := VObj None [(js "locationId", VStr id)] in
            answer = VObj None [(js "ok", VBool true); (js "enqueued", VBool true);
                                (js "jobId", VStr (String_of_Z (queue_seq sys + 1)))]
            ∧ Ledger.ledger_events (Worker.ledger (store sys'))
              = Ledger.ledger_events (Worker.ledger (store sys))
                  ++ [Ledger.Event (Ledger.ledger_events_id_seq (Worker.ledger (store sys)) + 1)
                        (js "CMD_LOCATION_REFRESH") payload (Ledger.event_hash row0)
                        (Ledger.chain_hash (Ledger.event_hash row0)
                           (js "CMD_LOCATION_REFRESH") payload)]
            ∧ queue sys'
              = queue sys ++ [Worker.MkJob (js "refresh-location")
                                (VObj None [(js "locationId", VStr id)])]
    | Throws e =>
        queue sys' = queue sys
        ∧ Ledger.ledger_events (Worker.ledger (store sys'))
          = Ledger.ledger_events (Worker.ledger (store sys))
    end.
Proof.
  cbv zeta. unfold post_refresh, queue_add.
  destruct (Worker.select_active uuid_in (VStr id) (Worker.projections (store sys)))
    as [[|loc rest]|e] eqn:Hsel; cbn [fst snd]; [|idtac|done].
  - split; [done|]. split; [done|]. intros loc Hloc Hu.
    apply select_active_Returns in Hsel as (text & u & [= <-] & Hu' & Hrows).
    rewrite Hu in Hu'. injection Hu' as <-.
    destruct (Projections.is_active loc) eqn:Hactive; [|done].
    assert (loc ∈ @nil Projections.Location) as Hin; [|by apply elem_of_nil in Hin].
    rewrite Hrows. by apply list_elem_of_filter.
  - apply select_active_Returns in Hsel as (text & u & [= <-] & Hu & Hrows).
    assert (loc ∈ loc :: rest) as Hin by left. rewrite Hrows in Hin.
    apply list_elem_of_filter in Hin as [[Hid Hactive] Hloc].
    destruct (Ledger.appendLedgerEvent _ _ (Worker.ledger (store sys)))
      as [[[prevHash eventHash]|err] ledger'] eqn:Happ; cbn [fst snd].
    + apply appendLedgerEvent_Ok in Happ as (row0 & Hlast & -> & -> & _ & _ & Hrows' & _).
      cbn [store Worker.projections Worker.ledger queue].
      split; [done|]. exists loc, row0. rewrite Hid. by split_and!.
    + apply appendLedgerEvent_Err in Happ. by split_and!.
Qed.

Lemma post_locations_Json (new_id : jstr) (body answer : value) (sys sys' : System) :
  post_locations new_id body sys = (Returns (Json answer), sys') →
  ∃ name lat lon,
    (new_id ∉ Projections.id <$> Projections.locations (Worker.projections (store sys)))
    ∧ Projections.locations (Worker.projections (store sys'))
      = Projections.locations (Worker.projections (store sys))
          ++ [Projections.MkLocation new_id (toWellFormed name) lat lon true]
    ∧ queue sys'
      = queue sys ++ [Worker.MkJob (js "refresh-location")
                        (VObj None [(js "locationId", VStr new_id)])].
Proof.
  unfold post_locations.
  destruct (LocationCreate body) as [[[name lat] lon]|]; [|done].
  destruct (insert_location_cases new_id name lat lon (Worker.projections (store sys)))
    as [(e & -> & _)|(Hnul & Hid & ->)]; [done|].
  destruct (Ledger.appendLedgerEvent _ _ (Worker.ledger (store sys))) as [[[? ?]|err] ledger'];
    [|done].
  cbn [queue_add]. intros [= <- <-]. by exists name, lat, lon.
Qed.

Lemma post_refresh_Json (id : jstr) (answer : value) (sys sys' : System) :
  post_refresh uuid_in id sys = (Returns (Json answer), sys') →
  Worker.projections (store sys') = Worker.projections (store sys)
  ∧ ∃ loc, loc ∈ Projections.locations (Worker.projections (store sys))
           ∧ uuid_in id = Some (Projections.id loc)
           ∧ Projections.is_active loc = true
           ∧ queue sys'
             = queue sys ++ [Worker.MkJob (js "refresh-location")
                               (VObj None [(js "locationId", VStr id)])].
Proof.
  unfold post_refresh.
  destruct (Worker.select_active uuid_in (VStr id) (Worker.projections (store sys)))
    as [[|loc rest]|e] eqn:Hsel; [done| |done].
  apply select_active_Returns in Hsel as (text & u & [= <-] & Hu & Hrows).
  assert (loc ∈ loc :: rest) as Hin by left. rewrite Hrows in Hin.
  apply list_elem_of_filter in Hin as [[Hid Hactive] Hloc].
  destruct (Ledger.appendLedgerEvent _ _ (Worker.ledger (store sys))) as [[[? ?]|err] ledger'];
    [|done].
  cbn [queue_add]. intros [= <- <-]. split; [done|]. exists loc. by rewrite Hid.
Qed.

Lemma job_locationId_queued (id : jstr) :
  Worker.job_locationId (VObj None [(js "locationId", VStr id)]) = VStr id.
Proof. reflexivity. Qed.

(** X22. The job a command queues names a location the worker finds: with
    [id] the primary key of [locations], after a 200 of either route the
    last job of the queue is a "refresh-location" job whose [locationId] is
    not empty and is selected by the worker as one active row, the new
    location after [POST /api/cmd/locations]. *)
Theorem queued_job_finds_location (sys sys' : System) (answer : value) :
  NoDup (Projections.id <$> Projections.locations (Worker.projections (store sys))) →
  (∀ new_id body,
     uuid_in new_id = Some new_id → new_id ≠ [] →
     post_locations new_id body sys = (Returns (Json answer), sys') →
     ∃ job loc,
       last (queue sys') = Some job
       ∧ Worker.name job = js "refresh-location"
       ∧ Worker.truthy (Worker.job_locationId (Worker.data job)) = true
       ∧ Projections.id loc = new_id
       ∧ Worker.select_active uuid_in (Worker.job_locationId (Worker.data job))
           (Worker.projections (store sys')) = Returns [loc])
  ∧ (∀ id,
       id ≠ [] →
       post_refresh uuid_in id sys = (Returns (Json answer), sys') →
       ∃ job loc,
         last (queue sys') = Some job
         ∧ Worker.name job = js "refresh-location"
         ∧ Worker.truthy (Worker.job_locationId (Worker.data job)) = true
         ∧ uuid_in id = Some (Projections.id loc)
         ∧ Worker.select_active uuid_in (Worker.job_locationId (Worker.data job))
             (Worker.projections (store sys')) = Returns [loc]).
Proof.
  intros Hnd. split.
  - intros new_id body Hu Hne Hrun.
    apply post_locations_Json in Hrun as (name & lat & lon & Hid & Hlocs & Hqueue).
    exists (Worker.MkJob (js "refresh-location") (VObj None [(js "locationId", VStr new_id)])),
           (Projections.MkLocation new_id (toWellFormed name) lat lon true).
    rewrite Hqueue, last_snoc. cbn [Worker.name Worker.data].
    rewrite job_locationId_queued. cbn [Worker.truthy]. split_and!; try done.
    + by rewrite bool_decide_eq_false_2.
    + apply select_active_row; cbn [Projections.id Projections.is_active]; try done.
      * rewrite Hlocs, fmap_app. apply NoDup_app. split_and!; [done| |apply NoDup_singleton].
        intros x Hx Hx'. cbn in Hx'. apply list_elem_of_singleton in Hx' as ->. done.
      * rewrite Hlocs. apply elem_of_app. right. by left.
  - intros id Hne Hrun.
    apply post_refresh_Json in Hrun as (Hproj & loc & Hloc & Hu & Hactive & Hqueue).
    exists (Worker.MkJob (js "refresh-location") (VObj None [(js "locationId", VStr id)])), loc.
    rewrite Hqueue, last_snoc, Hproj. cbn [Worker.name Worker.data].
    rewrite job_locationId_queued. cbn [Worker.truthy]. split_and!; try done.
    + by rewrite bool_decide_eq_false_2.
    + by apply select_active_row.
Qed.

End ApiFacts.

(** ** The handlers on the examples *)


Lemma handler_returns_witness :
  ∃ v st',
    Worker.handler default_compare Some Worker.sample_fs []
      (Worker.sample_sensor (VObj None Worker.sample_fields)) 10 11
      Worker.sample_job Worker.sample_store = Some (Returns v, st')
    ∧ length (Ledger.ledger_events (Worker.ledger st')) = 4.
Proof.
  assert (∃ v st',
            Worker.handler default_compare Some Worker.sample_fs []
              (Worker.sample_sensor (VObj None Worker.sample_fields)) 10 11
              Worker.sample_job Worker.sample_store = Some (Returns v, st'))
    as (v & st' & Hrun).
  { eexists _, _. vm_compute. reflexivity. }
  exists v, st'. split; [exact Hrun|].
  destruct (handler_returns default_compare Some _ _ _ _ _ _ _ _ _ Hrun)
    as [(Hname & _)|(apiKey & text & loc & raw & pack & row0 & _ & _ & _ & _ & _ & _ & _ & _
                     & Hrest)].
  - exfalso. apply Hname. reflexivity.
  - cbv zeta in Hrest. destruct Hrest as (_ & Hrows & _).
    rewrite Hrows, length_app. cbn [length]. vm_compute. reflexivity.
Defined.

Lemma handler_preserves_witness :
  ∃ r st',
    Worker.handler default_compare Some Worker.sample_fs []
      (Worker.sample_sensor (VObj None Worker.sample_fields)) 10 11
      Worker.sample_job Worker.sample_store = Some (r, st')
    ∧ Ledger.ok (Ledger.verify (Worker.ledger st')) = true.
Proof.
  assert (∃ r st',
            Worker.handler default_compare Some Worker.sample_fs []
              (Worker.sample_sensor (VObj None Worker.sample_fields)) 10 11
              Worker.sample_job Worker.sample_store = Some (r, st'))
    as (r & st' & Hrun).
  { eexists _, _. vm_compute. reflexivity. }
  exists r, st'. split; [exact Hrun|].
  destruct (handler_preserves default_compare Some _ _ _ _ _ _ _ _ _ Hrun) as (Hok & _).
  apply Hok. vm_compute. reflexivity.
Defined.


Lemma handler_null_weather_witness :
  ∃ st',
    Worker.handler default_compare Some Worker.sample_fs [] (Worker.sample_sensor VNull) 10 11
      Worker.sample_job Worker.sample_store = Some (Throws (DbError NotNullViolation), st')
    ∧ length (Ledger.ledger_events (Worker.ledger st')) = 4
    ∧ Worker.projections st' = Projections.sample.
Proof.
  eexists. split.
  - eapply (handler_null_weather default_compare Some Worker.sample_fs []
              (Worker.sample_sensor VNull) 10 11 Worker.sample_job Worker.sample_store _ _
              (Projections.MkLocation (js "loc-1") (js "Recife") (-8.05) (-34.9) true)).
    + reflexivity.
    + vm_compute. reflexivity.
    + vm_compute. reflexivity.
    + discriminate.
    + reflexivity.
    + apply (bool_decide_unpack _). vm_compute. reflexivity.
    + unfold Worker.sample_store, Projections.sample.
      cbn [Worker.projections Projections.locations]. left.
    + reflexivity.
    + reflexivity.
    + vm_compute. reflexivity.
    + apply (bool_decide_unpack _). vm_compute. reflexivity.
  - split; [vm_compute; reflexivity|reflexivity].
Defined.

Lemma post_locations_runs_witness :
  ∃ answer sys',
    Api.post_locations (js "loc-2") Api.sample_body Api.sample_system
    = (Returns (Api.Json answer), sys').
Proof.
  assert (Api.LocationCreate Api.sample_body = Some (js "Olinda", (-8.01)%float, (-34.85)%float))
    as Hbody by (vm_compute; reflexivity).
  assert (0%N ∉ js "Olinda") as Hnul by (apply (bool_decide_unpack _); vm_compute; reflexivity).
  assert (js "loc-2" ∉ Projections.id
            <$> Projections.locations (Worker.projections (Api.store Api.sample_system)))
    as Hid by (apply (bool_decide_unpack _); vm_compute; reflexivity).
  destruct (post_locations_runs (js "loc-2") Api.sample_body Api.sample_system _ _ _
              Hbody Hnul Hid) as [_ Hrun].
  eexists _, _. eapply Hrun.
  - vm_compute. reflexivity.
  - apply (bool_decide_unpack _). vm_compute. reflexivity.
Defined.

Lemma queued_job_finds_location_witness :
  ∃ answer sys' job loc,
    Api.post_locations (js "loc-2") Api.sample_body Api.sample_system
    = (Returns (Api.Json answer), sys')
    ∧ last (Api.queue sys') = Some job
    ∧ Worker.select_active Some (Worker.job_locationId (Worker.data job))
        (Worker.projections (Api.store sys')) = Returns [loc]
    ∧ Projections.id loc = js "loc-2".
Proof.
  assert (∃ answer sys',
            Api.post_locations (js "loc-2") Api.sample_body Api.sample_system
            = (Returns (Api.Json answer), sys')) as (answer & sys' & Hrun).
  { eexists _, _. vm_compute. reflexivity. }
  assert (NoDup (Projections.id
                   <$> Projections.locations (Worker.projections (Api.store Api.sample_system))))
    as Hnd by (apply (bool_decide_unpack _); vm_compute; reflexivity).
  destruct (queued_job_finds_location Some Api.sample_system sys' answer Hnd) as [Hadd _].
  destruct (Hadd (js "loc-2") Api.sample_body eq_refl ltac:(discriminate) Hrun)
    as (job & loc & Hlast & _ & _ & Hid & Hsel).
  exists answer, sys', job, loc. by split_and!.
Defined.
